(** * rebytes: a pool of recycled byte slices and a chunked buffer over it

    A shallow embedding of [pool.go] and [buffer.go] of xdg-go/rebytes, and
    the properties of the two types that its specification states.

    Go values are modelled as follows.
    - [int] and [int64] are [Z]; [int] has 64 bits, so [int(off)] in
      [ReadAt] is the identity.  No sum computed by the package can leave
      the 64-bit range: each one is bounded by the length or capacity of a
      slice that exists in memory, so wrap-around is not written out.
    - A [[]byte] is its slice header: a data pointer, a length and a
      capacity.  All byte arrays live in one flat memory, a [list byte];
      a data pointer is an index into it and [None] is the nil pointer.
      Two headers over the same addresses alias, as they do in Go.
    - [make] extends the memory with zeroed bytes.  Memory exhaustion is
      outside the model.
    - [p.slices] and [b.chunks] are lists of slice headers, in source order
      (the pool's stack grows at the end of the list).
    - A run-time panic is an outcome of its own, [Panic], and ends the call.
    - The mutex of [Pool] serialises the methods; each method is modelled
      as one atomic step.
    - The source holds two versions of [buffer.go].  The one with [ReadAt]
      is embedded at top level; of the other one, which gives chunks back
      to the pool while it reads, the functions that differ are in the
      module [Recycling].

    The file has three parts: the embedding of the source; the invariants
    and the other notions that the properties are stated with; the lemmas
    and theorems.  The package does not check who owns a slice: [Put] asks
    its caller not to use the slice again.  Properties about the contents
    of memory are therefore stated under that discipline ([MemInv],
    [foreign]); properties about slice headers, results and errors hold
    without it. *)

From Stdlib Require Import ZArith Lia ZifyBool List Bool.
From Stdlib Require Import Strings.String Strings.Byte.
From stdpp Require Import base option list numbers.

Local Open Scope Z_scope.

(** ** Outcomes *)

(** The values with which the package, or the Go run time on its behalf,
    panics. *)
Inductive panic : Set :=
| ErrTooLarge              (* panic(ErrTooLarge) in moveBytes *)
| IndexOutOfRange          (* a[i] with i outside 0 <= i < len(a) *)
| SliceBoundsOutOfRange    (* s[lo:hi] outside 0 <= lo <= hi <= cap(s) *)
| IntegerDivideByZero      (* x / 0 and x % 0 *)
| MakesliceOutOfRange.     (* make with a negative length or capacity *)

(** The non-nil [error] values the package returns. *)
Inductive error : Set :=
| EOF                      (* io.EOF *)
| ErrNilValue              (* "nil value not allowed for rebytes.Pool.Put()" *)
| ErrWrongCapacity         (* "wrong capacity byte slice for rebytes.Pool.Put()" *)
| ErrNilPool               (* "can't pass nil to rebytes.NewBuffer()" *)
| ErrReadAfterFree         (* "can't read from buffer after Free()" *)
| ErrWriteAfterFree.       (* "can't write to buffer after Free()" *)

(** The outcome of a call: it returns, it panics, or the bound on the
    number of loop iterations given to the model was too small.  The last
    one never happens for the bounds used below ([readFromOffset_fuel],
    [Write_fuel]). *)
Inductive result (A : Type) : Type :=
| Ok (a : A)
| Panic (e : panic)
| OutOfFuel.
Arguments Ok {A} a.
Arguments Panic {A} e.
Arguments OutOfFuel {A}.

(** ** Slices and memory *)

Definition byte := Byte.byte.

Record slice : Set := Slice {
  sdata : option nat;   (* Data: address of the first element, None for nil *)
  slen : nat;           (* Len *)
  scap : nat            (* Cap *)
}.

Definition nil_slice : slice := Slice None 0 0.

Definition len (s : slice) : Z := Z.of_nat (slen s).
Definition cap (s : slice) : Z := Z.of_nat (scap s).
Definition is_nil (s : slice) : bool :=
  match sdata s with None => true | Some _ => false end.
Definition addr (s : slice) : nat := default 0%nat (sdata s).

(** [s[lo:hi]]: the bounds check of the run time, then the new header. *)
Definition reslice (s : slice) (lo hi : Z) : result slice :=
  if (0 <=? lo) && (lo <=? hi) && (hi <=? cap s) then
    Ok (Slice ((λ a, a + Z.to_nat lo)%nat <$> sdata s)
              (Z.to_nat (hi - lo)) (Z.to_nat (cap s - lo)))
  else Panic SliceBoundsOutOfRange.

(** [s[lo:]] and [s[:hi]]. *)
Definition slice_from (s : slice) (lo : Z) : result slice := reslice s lo (len s).
Definition slice_to (s : slice) (hi : Z) : result slice := reslice s 0 hi.

(** [a[i]] on a Go slice of any element type, with its bounds check. *)
Definition index {A} (a : list A) (i : Z) : result A :=
  if (i <? 0) || (Z.of_nat (length a) <=? i) then Panic IndexOutOfRange
  else match a !! Z.to_nat i with
       | Some x => Ok x
       | None => Panic IndexOutOfRange
       end.

(** Integer division and remainder truncate toward zero and panic on a zero
    divisor. *)
Definition div (a b : Z) : result Z :=
  if b =? 0 then Panic IntegerDivideByZero else Ok (Z.quot a b).
Definition rem (a b : Z) : result Z :=
  if b =? 0 then Panic IntegerDivideByZero else Ok (Z.rem a b).

(** The flat memory. *)
Definition load (m : list byte) (a n : nat) : list byte := take n (drop a m).
Definition store (m : list byte) (a : nat) (bs : list byte) : list byte :=
  list_inserts a bs m.

(** The elements [s[0], ..., s[len(s)-1]] of a slice. *)
Definition bytes_of (m : list byte) (s : slice) : list byte :=
  load m (addr s) (slen s).

(** ** The program state *)

(** [type Pool struct] of pool.go, without its mutex. *)
Record Pool : Set := mkPool {
  slices : list slice;
  bytesCap : Z;
  poolCap : Z
}.

(** [type Buffer struct] of buffer.go.  Its [pool] field points to the pool
    of the state. *)
Record Buffer : Set := mkBuffer {
  offset : Z;
  chunks : list slice;
  chunkCap : Z
}.

(** One memory, one pool and one buffer over that pool. *)
Record World : Set := mkWorld {
  mem : list byte;
  pool : Pool;
  buf : Buffer
}.

Definition set_mem (w : World) (m : list byte) : World :=
  mkWorld m (pool w) (buf w).
Definition set_pool (w : World) (p : Pool) : World :=
  mkWorld (mem w) p (buf w).
Definition set_buf (w : World) (b : Buffer) : World :=
  mkWorld (mem w) (pool w) b.
Definition set_slices (p : Pool) (l : list slice) : Pool :=
  mkPool l (bytesCap p) (poolCap p).
Definition set_offset (b : Buffer) (o : Z) : Buffer :=
  mkBuffer o (chunks b) (chunkCap b).
Definition set_chunks (b : Buffer) (l : list slice) : Buffer :=
  mkBuffer (offset b) l (chunkCap b).

Arguments set_mem _ _ /.
Arguments set_pool _ _ /.
Arguments set_buf _ _ /.
Arguments set_slices _ _ /.
Arguments set_offset _ _ /.
Arguments set_chunks _ _ /.

(** Non-nil pointers to the pool and to the buffer of the state. *)
Inductive PoolRef : Set := ThePool.
Inductive BufferRef : Set := TheBuffer.

(** ** A state and panic monad *)

Definition M (A : Type) : Type := World → result (A * World).

Definition ret {A} (a : A) : M A := λ w, Ok (a, w).
Definition bind {A B} (c : M A) (k : A → M B) : M B :=
  λ w, match c w with
       | Ok (a, w') => k a w'
       | Panic e => Panic e
       | OutOfFuel => OutOfFuel
       end.
Definition lift {A} (r : result A) : M A :=
  λ w, match r with
       | Ok a => Ok (a, w)
       | Panic e => Panic e
       | OutOfFuel => OutOfFuel
       end.
Definition get_world : M World := λ w, Ok (w, w).
Definition put_world (w : World) : M unit := λ _, Ok (tt, w).

Notation "x <- c ;; k" := (bind c (λ x, k))
  (at level 100, c at next level, right associativity).
Notation "c ;;; k" := (bind c (λ _, k))
  (at level 100, right associativity).

(** The built-ins [make([]byte, l, c)] and [copy(dst, src)]. *)
Definition make (l c : Z) : M slice := λ w,
  if (l <? 0) || (c <? l) then Panic MakesliceOutOfRange
  else Ok (Slice (Some (length (mem w))) (Z.to_nat l) (Z.to_nat c),
           set_mem w (mem w ++ replicate (Z.to_nat c) Byte.x00)).

Definition copy (dst src : slice) : M Z := λ w,
  let x := Z.min (len dst) (len src) in
  Ok (x, set_mem w (store (mem w) (addr dst) (load (mem w) (addr src) (Z.to_nat x)))).

(** [[]byte(s)]: a fresh slice holding the bytes of a string. *)
Definition bytes_of_string (s : list byte) : M slice := λ w,
  Ok (Slice (Some (length (mem w))) (length s) (length s),
      set_mem w (mem w ++ s)).

(** ** pool.go *)

(** [func NewPool(bytesCap, poolCap int) *Pool]: the new pool, which the
    caller places in the state.  [make([][]byte, 0, poolCap)] panics on a
    negative capacity. *)
Definition NewPool (bytesCap poolCap : Z) : result Pool :=
  if poolCap <? 0 then Panic MakesliceOutOfRange
  else Ok (mkPool [] bytesCap poolCap).

(** [func (p *Pool) Get() []byte] *)
Definition Get : M slice := λ w,
  let p := pool w in
  if 0 <? Z.of_nat (length (slices p)) then
    (* b, p.slices = p.slices[len(p.slices)-1], p.slices[0:len(p.slices)-1] *)
    (b <- lift (index (slices p) (Z.of_nat (length (slices p)) - 1)) ;;
     put_world (set_pool w (set_slices p (take (length (slices p) - 1) (slices p)))) ;;;
     ret b) w
  else
    make 0 (bytesCap p) w.

(** [func (p *Pool) Put(b []byte) error] *)
Definition Put (b : slice) : M (option error) := λ w,
  let p := pool w in
  if is_nil b then ret (Some ErrNilValue) w
  else if negb (cap b =? bytesCap p) then ret (Some ErrWrongCapacity) w
  else if Z.of_nat (length (slices p)) =? poolCap p then ret None w
  else
    (b' <- lift (reslice b 0 0) ;;
     put_world (set_pool w (set_slices p (slices p ++ [b']))) ;;;
     ret None) w.

(** [func (p *Pool) Size() int] *)
Definition Size : M Z := λ w, Ok (Z.of_nat (length (slices (pool w))), w).

(** ** buffer.go *)

(** [func NewBuffer(pool *Pool)], which returns a [*Buffer] and an [error]. *)
Definition NewBuffer (pool : option PoolRef) : M (option BufferRef * option error) :=
  match pool with
  | None => ret (None, Some ErrNilPool)
  | Some ThePool =>
      c <- Get ;;
      w <- get_world ;;
      put_world (set_buf w (mkBuffer 0 [c] (cap c))) ;;;
      ret (Some TheBuffer, None)
  end.

(** [func (b *Buffer) findReadLocation(offset int) (s *[]byte, i int)].
    The pointer [s] is only read through, at once; the model returns the
    slice header it points to. *)
Definition findReadLocation (offset : Z) : M (slice * Z) := λ w,
  let b := buf w in
  (q <- lift (div offset (chunkCap b)) ;;
   s <- lift (index (chunks b) q) ;;
   i <- lift (rem offset (chunkCap b)) ;;
   ret (s, i)) w.

(** [func (b *Buffer) findWritableChunk() (w *[]byte)].  The pointer is
    the index of the chunk in [b.chunks]. *)
Definition findWritableChunk : M Z := λ w0,
  let b := buf w0 in
  (let wi := Z.of_nat (length (chunks b)) - 1 in
   s <- lift (index (chunks b) wi) ;;
   let l := len s in
   let c := cap s in
   if c - l =? 0 then
     s <- Get ;;
     w1 <- get_world ;;
     let b1 := buf w1 in
     put_world (set_buf w1 (set_chunks b1 (chunks b1 ++ [s]))) ;;;
     ret (Z.of_nat (length (chunks b1 ++ [s])) - 1)
   else ret wi) w0.

(** [func (b *Buffer) Chunks() int] *)
Definition Chunks : M Z := λ w, Ok (Z.of_nat (length (chunks (buf w))), w).

(** [for _, s := range b.chunks { b.pool.Put(s) }]: the result of [Put] is
    dropped. *)
Fixpoint putAll (l : list slice) : M unit :=
  match l with
  | [] => ret tt
  | s :: l' => Put s ;;; putAll l'
  end.

(** [func (b *Buffer) Free()] *)
Definition Free : M unit :=
  w <- get_world ;;
  putAll (chunks (buf w)) ;;;
  w <- get_world ;;
  put_world (set_buf w (set_chunks (buf w) [])).

(** [func (b *Buffer) String() string]: the chunks joined with the empty
    separator. *)
Definition String (w : World) : list byte :=
  concat (map (bytes_of (mem w)) (chunks (buf w))).

(** [func min(a, b int) int] *)
Definition min (a b : Z) : Z := if a <? b then a else b.

(** [func moveBytes(dst, src *[]byte) (n int)].  Both pointers are in-out
    parameters: the model returns [n] with the new [*dst] and [*src]. *)
Definition moveBytes (dst src : slice) : M (Z * slice * slice) :=
  if len src =? 0 then ret (0, dst, src)
  else
    let l := len dst in
    let c := cap dst in
    let r := c - l in
    if r =? 0 then λ _, Panic ErrTooLarge
    else
      let r := min (len src) r in
      dst' <- lift (slice_to dst (l + r)) ;;
      d <- lift (slice_from dst' l) ;;
      s <- lift (slice_to src r) ;;
      copy d s ;;;
      src' <- lift (slice_from src r) ;;
      ret (r, dst', src').

(** [*w = v] for the pointer [w = &b.chunks[i]]. *)
Definition set_chunk (i : Z) (v : slice) : M unit := λ w,
  Ok (tt, set_buf w (set_chunks (buf w) (<[Z.to_nat i := v]> (chunks (buf w))))).

(** The loop [for len(p) > 0] of [Write], run at most [fuel] times. *)
Fixpoint writeLoop (fuel : nat) (p : slice) (n : Z) : M (Z * option error) :=
  if 0 <? len p then
    match fuel with
    | O => λ _, OutOfFuel
    | S fuel' =>
        wi <- findWritableChunk ;;
        w <- get_world ;;
        dst <- lift (index (chunks (buf w)) wi) ;;
        r <- moveBytes dst p ;;
        set_chunk wi r.1.2 ;;;
        writeLoop fuel' r.2 (n + r.1.1)
    end
  else ret (n, None).

(** [func (b *Buffer) Write(p []byte) (n int, err error)] *)
Definition Write (p : slice) : M (Z * option error) := λ w,
  if Z.of_nat (length (chunks (buf w))) =? 0 then
    ret (0, Some ErrWriteAfterFree) w
  else writeLoop (slen p) p 0 w.

(** [func (b *Buffer) WriteString(s string) (n int, err error)] *)
Definition WriteString (s : list byte) : M (Z * option error) :=
  p <- bytes_of_string s ;;
  Write p.

(** The loop [for n < len(p)] of [readFromOffset], run at most [fuel]
    times. *)
Fixpoint readLoop (fuel : nat) (p : slice) (off n : Z) : M (Z * option error) :=
  if n <? len p then
    match fuel with
    | O => λ _, OutOfFuel
    | S fuel' =>
        si <- findReadLocation off ;;
        if si.2 =? len si.1 then ret (n, Some EOF)
        else
          d <- lift (slice_from p n) ;;
          s <- lift (slice_from si.1 si.2) ;;
          x <- copy d s ;;
          readLoop fuel' p (off + x) (n + x)
    end
  else ret (n, None).

(** [func (b *Buffer) readFromOffset(p []byte, off int) (n int, err error)] *)
Definition readFromOffset (p : slice) (off : Z) : M (Z * option error) := λ w,
  if Z.of_nat (length (chunks (buf w))) =? 0 then
    ret (0, Some ErrReadAfterFree) w
  else readLoop (slen p) p off 0 w.

(** [func (b *Buffer) Read(p []byte) (n int, err error)] *)
Definition Read (p : slice) : M (Z * option error) :=
  w <- get_world ;;
  r <- readFromOffset p (offset (buf w)) ;;
  w <- get_world ;;
  put_world (set_buf w (set_offset (buf w) (offset (buf w) + r.1))) ;;;
  ret r.

(** [func (b *Buffer) ReadAt(p []byte, off int64) (n int, err error)]:
    [readFromOffset(p, int(off))]. *)
Definition ReadAt (p : slice) (off : Z) : M (Z * option error) :=
  readFromOffset p off.

(** ** buffer.go, the version that recycles chunks while it reads *)

(** The source holds a second version of [buffer.go].  It has no [ReadAt]
    and its [Buffer] has no field [chunkCap]: [offset] counts from the start
    of the first chunk, and [Read] gives a chunk back to the pool as soon as
    it has read all of it.  Its [findWritableChunk], [Chunks], [Free],
    [String], [Write], [WriteString], [min] and [moveBytes] are, word for
    word, the functions above.  The functions that differ are embedded
    here, over the same state; none of them reads the field [chunkCap] of
    the record, which [NewBuffer] leaves at zero. *)
Module Recycling.

(** [func NewBuffer(pool *Pool)] of this version. *)
Definition NewBuffer (pool : option PoolRef) : M (option BufferRef * option error) :=
  match pool with
  | None => ret (None, Some ErrNilPool)
  | Some ThePool =>
      c <- Get ;;
      w <- get_world ;;
      put_world (set_buf w (mkBuffer 0 [c] 0)) ;;;
      ret (Some TheBuffer, None)
  end.

(** [l[lo:]] on the list of chunks, with the bounds check of the run time. *)
Definition chunks_from (l : list slice) (lo : Z) : result (list slice) :=
  if (0 <=? lo) && (lo <=? Z.of_nat (length l)) then Ok (drop (Z.to_nat lo) l)
  else Panic SliceBoundsOutOfRange.

(** [func (b *Buffer) findReadableChunk() (r *[]byte)].  The pointer is
    only read through, at once; the model returns the slice header it
    points to. *)
Definition findReadableChunk : M slice := λ w0,
  let b := buf w0 in
  (r <- lift (index (chunks b) 0) ;;
   if (offset b =? cap r) && (1 <? Z.of_nat (length (chunks b))) then
     Put r ;;;
     w1 <- get_world ;;
     put_world (set_buf w1 (set_offset (buf w1) 0)) ;;;
     w2 <- get_world ;;
     l <- lift (chunks_from (chunks (buf w2)) 1) ;;
     put_world (set_buf w2 (set_chunks (buf w2) l)) ;;;
     w3 <- get_world ;;
     lift (index (chunks (buf w3)) 0)
   else ret r) w0.

(** The loop [for n < len(p)] of [Read], run at most [fuel] times. *)
Fixpoint readLoop (fuel : nat) (p : slice) (n : Z) : M (Z * option error) :=
  if n <? len p then
    match fuel with
    | O => λ _, OutOfFuel
    | S fuel' =>
        s <- findReadableChunk ;;
        w <- get_world ;;
        if offset (buf w) =? len s then ret (n, Some EOF)
        else
          d <- lift (slice_from p n) ;;
          s' <- lift (slice_from s (offset (buf w))) ;;
          x <- copy d s' ;;
          w <- get_world ;;
          put_world (set_buf w (set_offset (buf w) (offset (buf w) + x))) ;;;
          readLoop fuel' p (n + x)
    end
  else ret (n, None).

(** [func (b *Buffer) Read(p []byte) (n int, err error)] of this version. *)
Definition Read (p : slice) : M (Z * option error) := λ w,
  if Z.of_nat (length (chunks (buf w))) =? 0 then
    ret (0, Some ErrReadAfterFree) w
  else readLoop (slen p) p 0 w.

End Recycling.

(** * Properties *)

(** ** Invariants of the state *)

(** What the pool holds: every idle slice is non-nil, has length zero and
    the pool's capacity, and the pool holds at most [poolCap] of them. *)
Definition idle_ok (bc : Z) (s : slice) : Prop :=
  slen s = 0%nat ∧ cap s = bc ∧ is_nil s = false.

(** The invariant of the pool. *)
Definition PoolInv (p : Pool) : Prop :=
  Forall (idle_ok (bytesCap p)) (slices p) ∧
  Z.of_nat (length (slices p)) <= poolCap p.

(** A call of [Get] or [Put] by some owner of the pool. *)
Inductive pool_op : Set :=
| OpGet
| OpPut (b : slice).

(** The calls run in order; what they return is dropped. *)
Definition pool_step (o : pool_op) : M unit :=
  match o with
  | OpGet => Get ;;; ret tt
  | OpPut b => Put b ;;; ret tt
  end.

Fixpoint pool_steps (ops : list pool_op) : M unit :=
  match ops with
  | [] => ret tt
  | o :: ops' => pool_step o ;;; pool_steps ops'
  end.

(** The classes of errors of the specification. *)
Definition InvalidArgument (e : error) : Prop :=
  e = ErrNilValue ∨ e = ErrWrongCapacity ∨ e = ErrNilPool.
Definition ClosedResource (e : error) : Prop :=
  e = ErrReadAfterFree ∨ e = ErrWriteAfterFree.

(** ** Slice headers and ownership of memory *)

(** A header as the run time keeps it: the length is within the capacity
    and a nil pointer has no capacity. *)
Definition slice_wf (s : slice) : Prop :=
  (slen s <= scap s)%nat ∧ (sdata s = None → scap s = 0%nat).

(** The header of [s[k:]], for [k] within the length of [s]. *)
Definition advance (s : slice) (k : nat) : slice :=
  Slice ((λ a, a + k)%nat <$> sdata s) (slen s - k) (scap s - k).

(** All chunks of the buffer are what the pool takes back: non-nil, of the
    pool's capacity. *)
Definition chunk_ok (bc : Z) (s : slice) : Prop :=
  cap s = bc ∧ is_nil s = false ∧ (slen s <= scap s)%nat.

(** The cells a header gives access to: its address and its capacity. *)
Definition range (s : slice) : nat * nat := (addr s, scap s).

(** The cells [r] lie in the memory [m]. *)
Definition in_mem (m : list byte) (r : nat * nat) : Prop :=
  (r.1 + r.2 <= length m)%nat.

(** The cells [r] end before the cells [t] begin, or the other way round. *)
Definition apart (r t : nat * nat) : Prop :=
  (r.1 + r.2 <= t.1 ∨ t.1 + t.2 <= r.1)%nat.

(** No two members of the list overlap. *)
Fixpoint pairwise_apart (l : list (nat * nat)) : Prop :=
  match l with
  | [] => True
  | r :: l' => Forall (apart r) l' ∧ pairwise_apart l'
  end.

(** The slices that the buffer and the pool hold. *)
Definition owned (w : World) : list slice :=
  chunks (buf w) ++ slices (pool w).

(** The discipline of ownership of the package: the slices held by the
    buffer and by the pool lie in memory and no two of them overlap. *)
Definition MemInv (w : World) : Prop :=
  Forall (in_mem (mem w)) (map range (owned w)) ∧
  pairwise_apart (map range (owned w)).

(** A slice of a caller, [p], is its own: in memory and apart from the
    slices of the buffer and of the pool. *)
Definition foreign (w : World) (p : slice) : Prop :=
  in_mem (mem w) (range p) ∧ Forall (apart (range p)) (map range (owned w)).

(** The invariant of a buffer in use over its pool. *)
Definition BufInv (w : World) : Prop :=
  PoolInv (pool w) ∧ chunks (buf w) ≠ [] ∧
  Forall (chunk_ok (bytesCap (pool w))) (chunks (buf w)) ∧
  chunkCap (buf w) = bytesCap (pool w).

(** The invariant of the chunk list that the addressing of
    [findReadLocation] relies on: every chunk but the last is full. *)
Definition full (s : slice) : Prop := slen s = scap s.

Definition FullInv (b : Buffer) : Prop :=
  Forall full (take (length (chunks b) - 1) (chunks b)).

(** The number of bytes that the buffer holds. *)
Definition written (b : Buffer) : Z :=
  Z.of_nat (sum_list_with slen (chunks b)).

(** What a read into [p] relies on: the invariants of the buffer and of
    its chunk list, a chunk capacity that is not zero, and the discipline
    of ownership for the buffer, the pool and [p]. *)
Definition ReadInv (w : World) (p : slice) : Prop :=
  BufInv w ∧ FullInv (buf w) ∧ 0 < chunkCap (buf w) ∧
  MemInv w ∧ foreign w p ∧ slice_wf p.

(** The state after [moveBytes] has moved [r] bytes of [p] to the chunk
    [dst], the last of the chunks [init ++ [dst]]. *)
Definition moved (w1 : World) (init : list slice) (dst p : slice) (r : nat) : World :=
  mkWorld (store (mem w1) (addr dst + slen dst) (load (mem w1) (addr p) r))
          (pool w1)
          (mkBuffer (offset (buf w1))
             (init ++ [Slice (sdata dst) (slen dst + r) (scap dst)])
             (chunkCap (buf w1))).

(** ** Reads from two states *)




(** The chunk and the offset in it that [findReadLocation] computes, as a
    function of the buffer. *)
Definition locate (b : Buffer) (off : Z) : result (slice * Z) :=
  match div off (chunkCap b) with
  | Ok q =>
      match index (chunks b) q with
      | Ok s =>
          match rem off (chunkCap b) with
          | Ok i => Ok (s, i)
          | Panic e => Panic e
          | OutOfFuel => OutOfFuel
          end
      | Panic e => Panic e
      | OutOfFuel => OutOfFuel
      end
  | Panic e => Panic e
  | OutOfFuel => OutOfFuel
  end.


(** ** The number of chunks *)

(** The last chunk holds data, unless it is the only chunk: [Write] takes a
    chunk from the pool only when it has a byte to store in it. *)
Definition TightInv (b : Buffer) : Prop :=
  length (chunks b) = 1%nat ∨
  ∃ init lst, chunks b = init ++ [lst] ∧ (0 < slen lst)%nat.

(** The number of chunks of capacity [cc] that [n] bytes fill or touch:
    [n / cc] rounded up. *)
Definition chunks_for (n cc : Z) : Z := (n + cc - 1) / cc.

(** ** The buffer that recycles chunks while it reads *)

(** The data not read yet: the chunks joined, less the part of the first
    chunk before the read offset. *)
Definition unread (w : World) : list byte :=
  drop (Z.to_nat (offset (buf w))) (String w).

(** The invariant of the buffer of [Recycling]: the pool is sound, the
    chunks are what the pool takes back, of a capacity that is not zero,
    every chunk but the last is full, the read offset lies within the
    elements of the first chunk, and the discipline of ownership holds. *)
Definition RecInv (w : World) : Prop :=
  PoolInv (pool w) ∧ chunks (buf w) ≠ [] ∧
  Forall (chunk_ok (bytesCap (pool w))) (chunks (buf w)) ∧
  0 < bytesCap (pool w) ∧
  FullInv (buf w) ∧ MemInv w ∧
  0 <= offset (buf w) <= len (default nil_slice (head (chunks (buf w)))).

(** The state [w] with [c] in the field [chunkCap], which the buffer of
    [Recycling] does not have. *)
Definition with_chunkCap (w : World) (c : Z) : World :=
  set_buf w (mkBuffer (offset (buf w)) (chunks (buf w)) c).

(** An outcome, with [c] in that field of its state. *)
Definition outcome_with_chunkCap {A} (c : Z) (r : result (A * World)) :
    result (A * World) :=
  match r with
  | Ok (a, w) => Ok (a, with_chunkCap w c)
  | Panic e => Panic e
  | OutOfFuel => OutOfFuel
  end.

(** A computation that neither reads nor writes the field. *)
Definition ignores_chunkCap {A} (m : M A) : Prop :=
  ∀ w c, m (with_chunkCap w c) = outcome_with_chunkCap c (m w).

(** ** The tests of the package *)

(** Runs [c] in the empty state over [NewPool(bc, pc)] and returns its
    value. *)
Definition run {A} (bc pc : Z) (c : M A) : result A :=
  match NewPool bc pc with
  | Ok pl =>
      match c (mkWorld [] pl (mkBuffer 0 [] 0)) with
      | Ok (a, _) => Ok a
      | Panic e => Panic e
      | OutOfFuel => OutOfFuel
      end
  | Panic e => Panic e
  | OutOfFuel => OutOfFuel
  end.

(** The elements of [p] as a string. *)
Definition show (p : slice) : M string :=
  w <- get_world ;; ret (string_of_list_byte (bytes_of (mem w) p)).

Definition contents : M string :=
  w <- get_world ;; ret (string_of_list_byte (String w)).

(** [initTestBuffer]: a buffer over [NewPool(5, 100)] holding "hello world". *)
Definition initTestBuffer : M unit :=
  NewBuffer (Some ThePool) ;;;
  WriteString (list_byte_of_string "hello world") ;;;
  ret tt.

(** [TestPoolPut], first part. *)
Definition TestPoolPut : M (slice * Z * slice * Z) :=
  b1 <- Get ;;
  Put (Slice (sdata b1) 3 (scap b1)) ;;;
  n1 <- Size ;;
  b2 <- Get ;;
  n2 <- Size ;;
  ret (b1, n1, b2, n2).

(** [TestBufferWrite] *)
Definition TestBufferWrite : M _ :=
  NewBuffer (Some ThePool) ;;;
  r1 <- WriteString (list_byte_of_string "hel") ;;
  s1 <- contents ;;
  c1 <- Chunks ;;
  r2 <- WriteString (list_byte_of_string "lo world") ;;
  s2 <- contents ;;
  c2 <- Chunks ;;
  ret (r1, s1, c1, r2, s2, c2).

(** [TestBufferRead] *)
Definition TestBufferRead : M _ :=
  initTestBuffer ;;;
  got0 <- make 0 0 ;;
  r0 <- Read got0 ;;
  got3 <- make 3 3 ;;
  r1 <- Read got3 ;;
  s1 <- show got3 ;;
  r2 <- Read got3 ;;
  s2 <- show got3 ;;
  got20 <- make 20 20 ;;
  r3 <- Read got20 ;;
  s3 <- show (Slice (sdata got20) (Z.to_nat r3.1) (scap got20)) ;;
  c <- Chunks ;;
  ret (r0, r1, s1, r2, s2, r3, s3, c).

(** [TestBufferFree] *)
Definition TestBufferFree : M _ :=
  initTestBuffer ;;;
  Free ;;;
  c <- Chunks ;;
  got <- make 3 3 ;;
  r1 <- Read got ;;
  r2 <- WriteString (list_byte_of_string "hello world") ;;
  ret (c, r1.2, r2.2).

(** [TestBufferReadAt] *)
Definition TestBufferReadAt : M _ :=
  initTestBuffer ;;;
  s <- make 3 3 ;;
  r1 <- ReadAt s 0 ;;
  s1 <- show s ;;
  got <- make 20 20 ;;
  r2 <- ReadAt got 6 ;;
  s2 <- show (Slice (sdata got) (Z.to_nat r2.1) (scap got)) ;;
  ret (r1, s1, r2, s2).

(** A caller that breaks the discipline: it puts the slice [x] twice, so
    that the pool hands the same memory out twice. *)
Definition put_twice_then_write : M (Z * string) :=
  x <- Get ;;
  Put x ;;;
  Put x ;;;
  NewBuffer (Some ThePool) ;;;
  WriteString (list_byte_of_string "helloworld") ;;;
  c <- Chunks ;;
  s <- contents ;;
  ret (c, s).

(** A caller that reads into a slice that it has put back and that the
    buffer now holds as its chunk. *)
Definition read_into_chunk : M (string * string) :=
  x <- Get ;;
  Put x ;;;
  NewBuffer (Some ThePool) ;;;
  WriteString (list_byte_of_string "hello") ;;;
  s1 <- contents ;;
  ReadAt (Slice (sdata x) 3 (scap x)) 2 ;;;
  s2 <- contents ;;
  ret (s1, s2).

(** [TestBufferRead] of the tests of the version that recycles chunks. *)
Definition TestBufferRead_recycling : M _ :=
  Recycling.NewBuffer (Some ThePool) ;;;
  WriteString (list_byte_of_string "hello world") ;;;
  c0 <- Chunks ;;
  got0 <- make 0 0 ;;
  r0 <- Recycling.Read got0 ;;
  got3 <- make 3 3 ;;
  r1 <- Recycling.Read got3 ;;
  s1 <- show got3 ;;
  c1 <- Chunks ;;
  r2 <- Recycling.Read got3 ;;
  s2 <- show got3 ;;
  c2 <- Chunks ;;
  got20 <- make 20 20 ;;
  r3 <- Recycling.Read got20 ;;
  s3 <- show (Slice (sdata got20) (Z.to_nat r3.1) (scap got20)) ;;
  c3 <- Chunks ;;
  ret (c0, r0, r1, s1, c1, r2, s2, c2, r3, s3, c3).

(** ** Basic facts *)

Lemma world_eta w : mkWorld (mem w) (pool w) (buf w) = w.
Proof. by destruct w. Qed.

Lemma pool_eta p : mkPool (slices p) (bytesCap p) (poolCap p) = p.
Proof. by destruct p. Qed.

Lemma buffer_eta b : mkBuffer (offset b) (chunks b) (chunkCap b) = b.
Proof. by destruct b. Qed.

Lemma index_last {A} (l : list A) (x : A) :
  index (l ++ [x]) (Z.of_nat (length (l ++ [x])) - 1) = Ok x.
Proof.
  unfold index. rewrite length_app. simpl.
  destruct (_ || _) eqn:E.
  { exfalso. apply orb_true_iff in E as [E|E]; lia. }
  replace (Z.to_nat _) with (length l) by lia.
  by rewrite list_lookup_middle.
Qed.

Lemma index_Ok {A} (l : list A) (i : Z) (x : A) :
  index l i = Ok x ↔ 0 <= i ∧ l !! Z.to_nat i = Some x.
Proof.
  unfold index. split.
  - destruct (_ || _) eqn:E; [done|].
    apply orb_false_iff in E as [E1 E2].
    destruct (l !! _) eqn:L; [|done]. intros [= ->]. split; [lia|done].
  - intros [Hi L]. pose proof (lookup_lt_Some _ _ _ L).
    destruct (_ || _) eqn:E.
    { exfalso. apply orb_true_iff in E as [E|E]; lia. }
    by rewrite L.
Qed.

Lemma snoc_cases {A} (l : list A) : l = [] ∨ ∃ l' x, l = l' ++ [x].
Proof. induction l using rev_ind; [by left|right; eauto]. Qed.

(** ** The pool *)

Lemma NewPool_inv bc pc p : NewPool bc pc = Ok p → PoolInv p.
Proof.
  unfold NewPool. destruct (pc <? 0) eqn:E; [done|].
  intros [= <-]. split; simpl; [constructor|lia].
Qed.

Lemma NewPool_fields bc pc p :
  NewPool bc pc = Ok p → slices p = [] ∧ bytesCap p = bc ∧ poolCap p = pc.
Proof.
  unfold NewPool. destruct (pc <? 0); [done|]. by intros [= <-].
Qed.

(** What [Get] returns and what it leaves behind. *)
Lemma Get_pop w l b :
  slices (pool w) = l ++ [b] →
  Get w = Ok (b, set_pool w (set_slices (pool w) l)).
Proof.
  intros E. unfold Get. rewrite E.
  assert ((0 <? Z.of_nat (length (l ++ [b]))) = true) as ->.
  { rewrite length_app. simpl. lia. }
  unfold bind, lift. rewrite index_last. simpl.
  rewrite length_app. simpl.
  replace (length l + 1 - 1)%nat with (length l) by lia.
  by rewrite take_app_length.
Qed.

Lemma Get_fresh w :
  slices (pool w) = [] → 0 <= bytesCap (pool w) →
  Get w = Ok (Slice (Some (length (mem w))) 0 (Z.to_nat (bytesCap (pool w))),
              set_mem w (mem w ++ replicate (Z.to_nat (bytesCap (pool w))) Byte.x00)).
Proof.
  intros E Hc. unfold Get, make. rewrite E. simpl.
  destruct (bytesCap (pool w) <? 0) eqn:E1; [lia|done].
Qed.

Lemma Get_inv w b w' :
  PoolInv (pool w) → Get w = Ok (b, w') →
  PoolInv (pool w') ∧ bytesCap (pool w') = bytesCap (pool w) ∧
  poolCap (pool w') = poolCap (pool w) ∧ buf w' = buf w ∧
  slen b = 0%nat ∧ cap b = bytesCap (pool w) ∧ is_nil b = false.
Proof.
  intros [HF HL] HG.
  destruct (snoc_cases (slices (pool w))) as [E|(l0 & s0 & E)].
  - unfold Get, make in HG. rewrite E in HG. simpl in HG.
    destruct (bytesCap (pool w) <? 0) eqn:E1; [done|].
    injection HG as <- <-. simpl.
    repeat split; try done; try lia. unfold cap. simpl. lia.
  - rewrite (Get_pop _ _ _ E) in HG. injection HG as <- <-.
    rewrite E in HF, HL. apply Forall_app in HF as [HF Hs].
    apply Forall_singleton in Hs as (? & ? & ?).
    rewrite length_app in HL. simpl in *.
    repeat split; simpl; try done; lia.
Qed.

Lemma Get_total w :
  PoolInv (pool w) → 0 <= bytesCap (pool w) → ∃ b w', Get w = Ok (b, w').
Proof.
  intros _ Hc.
  destruct (snoc_cases (slices (pool w))) as [E|(l0 & s0 & E)].
  - eexists _, _. by apply Get_fresh.
  - eexists _, _. by apply Get_pop.
Qed.

(** The four outcomes of [Put], in the order of the source. *)
Lemma Put_nil w b : is_nil b = true → Put b w = Ok (Some ErrNilValue, w).
Proof. intros E. unfold Put. by rewrite E. Qed.

Lemma Put_wrong_capacity w b :
  is_nil b = false → cap b ≠ bytesCap (pool w) →
  Put b w = Ok (Some ErrWrongCapacity, w).
Proof.
  intros E1 E2. unfold Put. rewrite E1.
  destruct (cap b =? _) eqn:E; [lia|done].
Qed.

Lemma Put_full w b :
  is_nil b = false → cap b = bytesCap (pool w) →
  Z.of_nat (length (slices (pool w))) = poolCap (pool w) →
  Put b w = Ok (None, w).
Proof.
  intros E1 E2 E3. unfold Put. rewrite E1.
  destruct (cap b =? _) eqn:E; [|lia]. simpl.
  destruct (_ =? poolCap _) eqn:E'; [done|lia].
Qed.

Lemma reslice_0_0 b : reslice b 0 0 = Ok (Slice (sdata b) 0 (scap b)).
Proof.
  unfold reslice.
  assert ((0 <=? cap b) = true) as -> by (unfold cap; lia). simpl.
  unfold cap. rewrite !Z.sub_0_r, Nat2Z.id. do 2 f_equal.
  destruct (sdata b); simpl; [|done]. by rewrite Nat.add_0_r.
Qed.

Lemma Put_push w b :
  is_nil b = false → cap b = bytesCap (pool w) →
  Z.of_nat (length (slices (pool w))) ≠ poolCap (pool w) →
  Put b w = Ok (None, set_pool w (set_slices (pool w)
                        (slices (pool w) ++ [Slice (sdata b) 0 (scap b)]))).
Proof.
  intros E1 E2 E3. unfold Put. rewrite E1.
  destruct (cap b =? _) eqn:E; [|lia]. simpl.
  destruct (_ =? poolCap _) eqn:E'; [lia|].
  unfold bind, lift. by rewrite reslice_0_0.
Qed.

(** [Put] always returns, and the cases above are all there are. *)
Lemma Put_cases w b :
  (is_nil b = true ∧ Put b w = Ok (Some ErrNilValue, w)) ∨
  (is_nil b = false ∧ cap b ≠ bytesCap (pool w) ∧
   Put b w = Ok (Some ErrWrongCapacity, w)) ∨
  (is_nil b = false ∧ cap b = bytesCap (pool w) ∧
   Z.of_nat (length (slices (pool w))) = poolCap (pool w) ∧
   Put b w = Ok (None, w)) ∨
  (is_nil b = false ∧ cap b = bytesCap (pool w) ∧
   Z.of_nat (length (slices (pool w))) ≠ poolCap (pool w) ∧
   Put b w = Ok (None, set_pool w (set_slices (pool w)
                        (slices (pool w) ++ [Slice (sdata b) 0 (scap b)])))).
Proof.
  destruct (is_nil b) eqn:E1.
  { left. split; [done|]. by apply Put_nil. }
  destruct (decide (cap b = bytesCap (pool w))) as [E2|E2].
  2:{ right; left. repeat split; try done. by apply Put_wrong_capacity. }
  destruct (decide (Z.of_nat (length (slices (pool w))) = poolCap (pool w))) as [E3|E3].
  { right; right; left. repeat split; try done. by apply Put_full. }
  right; right; right. repeat split; try done. by apply Put_push.
Qed.

Lemma Put_inv w b e w' :
  PoolInv (pool w) → Put b w = Ok (e, w') →
  PoolInv (pool w') ∧ bytesCap (pool w') = bytesCap (pool w) ∧
  poolCap (pool w') = poolCap (pool w) ∧ buf w' = buf w ∧ mem w' = mem w.
Proof.
  intros [HF HL] HP.
  destruct (Put_cases w b) as [(_ & H)|[(_ & _ & H)|[(_ & _ & _ & H)|(E1 & E2 & E3 & H)]]];
    rewrite H in HP; injection HP as <- <-; try done.
  simpl. repeat split; simpl; try done.
  - apply Forall_app. split; [done|]. apply Forall_singleton.
    repeat split; try done.
  - rewrite length_app. simpl. lia.
Qed.

Lemma pool_step_inv o w w' :
  PoolInv (pool w) → pool_step o w = Ok (tt, w') →
  PoolInv (pool w') ∧ bytesCap (pool w') = bytesCap (pool w) ∧
  poolCap (pool w') = poolCap (pool w).
Proof.
  intros HI. destruct o as [|b]; unfold pool_step, bind, ret.
  - destruct (Get w) as [[s w1]| |] eqn:HG; [|done..].
    intros [= <-]. apply (Get_inv _ _ _ HI) in HG. tauto.
  - destruct (Put b w) as [[e w1]| |] eqn:HP; [|done..].
    intros [= <-]. apply (Put_inv _ _ _ _ HI) in HP. tauto.
Qed.

Lemma pool_steps_inv ops : ∀ w w',
  PoolInv (pool w) → pool_steps ops w = Ok (tt, w') →
  PoolInv (pool w') ∧ bytesCap (pool w') = bytesCap (pool w) ∧
  poolCap (pool w') = poolCap (pool w).
Proof.
  induction ops as [|o ops IH]; intros w w' HI; simpl.
  - unfold ret. by intros [= <-].
  - unfold bind at 1. destruct (pool_step o w) as [[[] w1]| |] eqn:H1; [|done..].
    intros H2. destruct (pool_step_inv _ _ _ HI H1) as (HI1 & E1 & E2).
    destruct (IH _ _ HI1 H2) as (? & ? & ?). split; [done|split; congruence].
Qed.

Lemma pool_steps_total ops : ∀ w,
  PoolInv (pool w) → 0 <= bytesCap (pool w) →
  ∃ w', pool_steps ops w = Ok (tt, w').
Proof.
  induction ops as [|o ops IH]; intros w HI Hc; simpl.
  - by eexists.
  - assert (∃ w1, pool_step o w = Ok (tt, w1)) as [w1 H1].
    { destruct o as [|b]; unfold pool_step, bind, ret.
      - destruct (Get_total w HI Hc) as (s & w1 & ->). by eexists.
      - destruct (Put_cases w b) as [(_ & ->)|[(_ & _ & ->)|[(_ & _ & _ & ->)|(_ & _ & _ & ->)]]];
          by eexists. }
    unfold bind at 1. rewrite H1.
    destruct (pool_step_inv _ _ _ HI H1) as (HI1 & E1 & E2).
    apply IH; [done|congruence].
Qed.

(** C4. Starting from [NewPool(bc, pc)], after any sequence of calls of
    [Get] and [Put]: every slice held by the pool has length 0 and capacity
    [bc], and the pool holds at most [pc] slices; a [Put] of a non-nil slice
    of capacity [bc] into a pool that holds [pc] slices returns nil and
    leaves the whole state, hence [Size()], as it was.  With [0 <= bc] no
    such sequence panics. *)
Theorem pool_idle_invariant (bc pc : Z) (p : Pool) (m : list byte) (b : Buffer)
    (ops : list pool_op) :
  NewPool bc pc = Ok p →
  (∀ w', pool_steps ops (mkWorld m p b) = Ok (tt, w') →
     Forall (λ s, len s = 0 ∧ cap s = bc) (slices (pool w')) ∧
     Z.of_nat (length (slices (pool w'))) <= pc ∧
     bytesCap (pool w') = bc ∧ poolCap (pool w') = pc ∧
     ∀ x, is_nil x = false → cap x = bc →
          Z.of_nat (length (slices (pool w'))) = pc →
          Put x w' = Ok (None, w') ∧ (Put x ;;; Size) w' = Size w') ∧
  (0 <= bc → ∃ w', pool_steps ops (mkWorld m p b) = Ok (tt, w')).
Proof.
  intros HN. pose proof (NewPool_inv _ _ _ HN) as HI.
  destruct (NewPool_fields _ _ _ HN) as (_ & Hbc & Hpc).
  split.
  - intros w' Hs.
    destruct (pool_steps_inv ops (mkWorld m p b) w' HI Hs) as ([HF HL] & E1 & E2).
    simpl in E1, E2. rewrite Hbc in E1. rewrite Hpc in E2.
    repeat split; try congruence.
    + eapply List.Forall_impl; [|exact HF]. intros s (? & ? & ?).
      unfold len. split; [lia|congruence].
    + apply Put_full; congruence.
    + unfold bind. rewrite Put_full; congruence.
  - intros Hc. apply pool_steps_total; simpl; [done|lia].
Qed.

Lemma pool_idle_invariant_witness :
  ∃ w', pool_steps [OpGet; OpPut (Slice (Some 0%nat) 3 4); OpPut (Slice (Some 4%nat) 0 4); OpGet]
          (mkWorld [] (mkPool [] 4 1) (mkBuffer 0 [] 0)) = Ok (tt, w').
Proof.
  apply (pool_idle_invariant 4 1 (mkPool [] 4 1) [] (mkBuffer 0 [] 0)); [reflexivity|lia].
Defined.

(** C7, as the code has it.  Let [x] be a non-nil slice of the pool's
    capacity.  When the pool is not full ([len(p.slices) != poolCap]),
    [Put(x)] followed at once by [Get()] returns the header of [x] with the
    same data pointer and capacity and with length 0, and the state is as
    it was before the [Put].  When the pool is full, [Put(x)] returns nil
    and changes nothing, so the [Get()] that follows returns what it would
    have returned without the [Put]. *)
Theorem put_get_lifo (w : World) (x : slice) :
  is_nil x = false → cap x = bytesCap (pool w) →
  (Z.of_nat (length (slices (pool w))) ≠ poolCap (pool w) →
     (e <- Put x ;; y <- Get ;; ret (e, y)) w
     = Ok ((None, Slice (sdata x) 0 (scap x)), w)) ∧
  (Z.of_nat (length (slices (pool w))) = poolCap (pool w) →
     (e <- Put x ;; y <- Get ;; ret (e, y)) w
     = (y <- Get ;; ret (None, y)) w).
Proof.
  intros E1 E2. split; intros E3.
  - unfold bind at 1. rewrite Put_push by done.
    unfold bind. erewrite Get_pop by (simpl; reflexivity).
    unfold ret. simpl. by rewrite pool_eta, world_eta.
  - unfold bind at 1. by rewrite Put_full.
Qed.

Lemma put_get_lifo_witness :
  (e <- Put (Slice (Some 0%nat) 3 4) ;; y <- Get ;; ret (e, y))
    (mkWorld (replicate 4 Byte.x00) (mkPool [] 4 1) (mkBuffer 0 [] 0))
  = Ok ((None, Slice (Some 0%nat) 0 4),
        mkWorld (replicate 4 Byte.x00) (mkPool [] 4 1) (mkBuffer 0 [] 0)).
Proof.
  apply (put_get_lifo (mkWorld (replicate 4 Byte.x00) (mkPool [] 4 1) (mkBuffer 0 [] 0))
           (Slice (Some 0%nat) 3 4)); [reflexivity|reflexivity|simpl; lia].
Defined.

(** C7 as stated fails on a full pool.  From [NewPool(4, 1)], two calls of
    [Get] hand out the slices [a] (at address 0) and [x] (at address 4);
    [Put(a)] fills the pool.  Then [Put(x)], for a non-nil [x] of the
    pool's capacity, returns nil and drops [x], and the [Get] that follows
    returns [a], which does not share its memory with [x]. *)
Lemma put_get_full_pool_counterexample :
  let a := Slice (Some 0%nat) 0 4 in
  let x := Slice (Some 4%nat) 0 4 in
  let w0 := mkWorld [] (mkPool [] 4 1) (mkBuffer 0 [] 0) in
  let w1 := mkWorld (replicate 8 Byte.x00) (mkPool [a] 4 1) (mkBuffer 0 [] 0) in
  let w2 := mkWorld (replicate 8 Byte.x00) (mkPool [] 4 1) (mkBuffer 0 [] 0) in
  NewPool 4 1 = Ok (pool w0) ∧
  (a' <- Get ;; x' <- Get ;; Put a' ;;; ret (a', x')) w0 = Ok ((a, x), w1) ∧
  is_nil x = false ∧ cap x = bytesCap (pool w1) ∧
  (e <- Put x ;; y <- Get ;; ret (e, y)) w1 = Ok ((None, a), w2) ∧
  sdata a ≠ sdata x.
Proof.
  repeat split; try reflexivity. simpl. congruence.
Qed.

(** ** The closed buffer *)

Lemma readFromOffset_closed w p off :
  chunks (buf w) = [] → readFromOffset p off w = Ok ((0, Some ErrReadAfterFree), w).
Proof. intros E. unfold readFromOffset. by rewrite E. Qed.

Lemma Read_closed w p :
  chunks (buf w) = [] → Read p w = Ok ((0, Some ErrReadAfterFree), w).
Proof.
  intros E. unfold Read, bind, get_world, put_world, ret.
  rewrite readFromOffset_closed by done. simpl.
  by rewrite Z.add_0_r, buffer_eta, world_eta.
Qed.

Lemma ReadAt_closed w p off :
  chunks (buf w) = [] → ReadAt p off w = Ok ((0, Some ErrReadAfterFree), w).
Proof. apply readFromOffset_closed. Qed.

Lemma Write_closed w p :
  chunks (buf w) = [] → Write p w = Ok ((0, Some ErrWriteAfterFree), w).
Proof. intros E. unfold Write. by rewrite E. Qed.

(** The loops return nil or [io.EOF] only. *)
Lemma readLoop_error fuel : ∀ p off n w r e w',
  readLoop fuel p off n w = Ok ((r, Some e), w') → e = EOF.
Proof.
  induction fuel as [|fuel IH]; intros p off n w r e w'; simpl.
  - destruct (n <? len p); [done|]. by intros [= _ <- _].
  - destruct (n <? len p); [|by intros [= _ <- _]].
    unfold bind at 1. destruct (findReadLocation off w) as [[[s i] w1]| |]; [|done..].
    simpl. destruct (i =? len s); [by intros [= _ <- _]|].
    unfold bind at 1. destruct (lift (slice_from p n) w1) as [[d w2]| |]; [|done..].
    unfold bind at 1. destruct (lift (slice_from s i) w2) as [[s' w3]| |]; [|done..].
    unfold bind at 1. destruct (copy d s' w3) as [[x w4]| |]; [|done..].
    apply IH.
Qed.

Lemma writeLoop_error fuel : ∀ p n w r e w',
  writeLoop fuel p n w = Ok ((r, e), w') → e = None.
Proof.
  induction fuel as [|fuel IH]; intros p n w r e w'; simpl.
  - destruct (0 <? len p); [done|]. by intros [= _ <- _].
  - destruct (0 <? len p); [|by intros [= _ <- _]].
    unfold bind at 1. destruct (findWritableChunk w) as [[wi w1]| |]; [|done..].
    unfold bind at 1. simpl.
    unfold bind at 1. destruct (lift (index (chunks (buf w1)) wi) w1) as [[dst w2]| |]; [|done..].
    unfold bind at 1. destruct (moveBytes dst p w2) as [[x w3]| |]; [|done..].
    unfold bind at 1. simpl. apply IH.
Qed.

Lemma putAll_buf l : ∀ w w',
  putAll l w = Ok (tt, w') → buf w' = buf w ∧ mem w' = mem w.
Proof.
  induction l as [|s l IH]; intros w w'; simpl.
  - unfold ret. by intros [= <-].
  - unfold bind at 1.
    destruct (Put_cases w s) as [(_ & ->)|[(_ & _ & ->)|[(_ & _ & _ & ->)|(_ & _ & _ & ->)]]];
      intros H; apply IH in H; simpl in H; done.
Qed.

Lemma putAll_total l : ∀ w, ∃ w', putAll l w = Ok (tt, w').
Proof.
  induction l as [|s l IH]; intros w; simpl.
  - by eexists.
  - unfold bind at 1.
    destruct (Put_cases w s) as [(_ & ->)|[(_ & _ & ->)|[(_ & _ & _ & ->)|(_ & _ & _ & ->)]]];
      apply IH.
Qed.

(** [Free] changes the pool as the successive calls of [Put] do, and empties
    the chunk list. *)
Lemma Free_unfold w w1 :
  putAll (chunks (buf w)) w = Ok (tt, w1) →
  Free w = Ok (tt, mkWorld (mem w) (pool w1) (mkBuffer (offset (buf w)) [] (chunkCap (buf w)))).
Proof.
  intros H. unfold Free, bind, get_world, put_world. rewrite H. simpl.
  apply putAll_buf in H as [-> ->]. done.
Qed.

Lemma Free_closed w : chunks (buf w) = [] → Free w = Ok (tt, w).
Proof.
  intros E. rewrite (Free_unfold w w) by (by rewrite E).
  rewrite <- E. by rewrite buffer_eta, world_eta.
Qed.

(** The chunks that [Put] keeps when the pool has room for [k] more. *)
Lemma putAll_room l : ∀ w (k : nat),
  Forall (chunk_ok (bytesCap (pool w))) l →
  Z.of_nat (length (slices (pool w))) + Z.of_nat k = poolCap (pool w) →
  putAll l w = Ok (tt, set_pool w (set_slices (pool w)
                 (slices (pool w) ++ map (λ s, Slice (sdata s) 0 (scap s)) (take k l)))).
Proof.
  induction l as [|s l IH]; intros w k HF Hk; simpl.
  - rewrite take_nil. simpl. rewrite app_nil_r. unfold ret.
    by rewrite pool_eta, world_eta.
  - apply list.Forall_cons in HF as [(Hc & Hn & _) HF]. unfold bind at 1.
    destruct k as [|k].
    + rewrite Put_full by (done || lia).
      rewrite (IH w 0%nat) by done. by rewrite take_0.
    + rewrite Put_push by (done || lia).
      rewrite (IH _ k); simpl; [|done|rewrite length_app; simpl; lia].
      by rewrite <- app_assoc.
Qed.

Lemma readFromOffset_zero_length w p off :
  chunks (buf w) ≠ [] → len p = 0 → readFromOffset p off w = Ok ((0, None), w).
Proof.
  intros E Hp. unfold readFromOffset.
  destruct (chunks (buf w)) as [|c l]; [done|]. simpl.
  unfold len in Hp. replace (slen p) with 0%nat by lia. simpl.
  unfold len. by replace (0 <? Z.of_nat (slen p)) with false by lia.
Qed.

(** An error of the class [ClosedResource] comes from the first test of
    [readFromOffset] and of [Write] only. *)
Lemma readFromOffset_ClosedResource w p off n e w' :
  readFromOffset p off w = Ok ((n, Some e), w') → ClosedResource e →
  chunks (buf w) = [] ∧ w' = w ∧ n = 0 ∧ e = ErrReadAfterFree.
Proof.
  unfold readFromOffset. destruct (chunks (buf w)) as [|c l]; simpl.
  - unfold ret. by intros [= <- <- <-].
  - intros H%readLoop_error [-> | ->]; done.
Qed.

Lemma Write_error w p n e w' :
  Write p w = Ok ((n, Some e), w') →
  chunks (buf w) = [] ∧ w' = w ∧ n = 0 ∧ e = ErrWriteAfterFree.
Proof.
  unfold Write. destruct (chunks (buf w)) as [|c l]; simpl.
  - unfold ret. by intros [= <- <- <-].
  - by intros H%writeLoop_error.
Qed.

Lemma Put_error w b e w' :
  Put b w = Ok (Some e, w') → InvalidArgument e ∧ w' = w.
Proof.
  intros H.
  destruct (Put_cases w b) as [(_ & H')|[(_ & _ & H')|[(_ & _ & _ & H')|(_ & _ & _ & H')]]];
    rewrite H' in H; try done; injection H as <- <-; unfold InvalidArgument; tauto.
Qed.

Lemma NewBuffer_error w pl r e w' :
  NewBuffer pl w = Ok ((r, Some e), w') → InvalidArgument e ∧ w' = w.
Proof.
  destruct pl as [[]|]; simpl.
  - unfold bind, get_world, put_world, ret.
    by destruct (Get w) as [[? ?]| |].
  - unfold ret. intros H. inversion H; subst. unfold InvalidArgument. tauto.
Qed.

Lemma Read_ClosedResource w p n e w' :
  Read p w = Ok ((n, Some e), w') → ClosedResource e → w' = w.
Proof.
  unfold Read, bind, get_world, put_world, ret.
  destruct (readFromOffset p (offset (buf w)) w) as [[[n1 e1] w1]| |] eqn:HR; [|done..].
  simpl. intros [= <- -> <-] HC.
  apply readFromOffset_ClosedResource in HR as (_ & -> & -> & _); [|done].
  by rewrite Z.add_0_r, buffer_eta, world_eta.
Qed.

(** C5. [Free] always returns.  It passes every chunk of the buffer to
    [Put], in order, and leaves the buffer without chunks ([Chunks() == 0])
    and the memory as it was; when the chunks are non-nil slices of the
    pool's capacity and the pool has room for [k] more slices, the pool
    gains the first [k] chunks, each reset to length 0.  After [Free], every
    [Read], [ReadAt] and [Write] returns its error of use after [Free] and
    changes nothing, and a second [Free] changes nothing either: it puts no
    chunk a second time and [Chunks()] is still 0. *)
Theorem free_closes_buffer (w : World) :
  ∃ w1, Free w = Ok (tt, w1) ∧
    (∃ wp, putAll (chunks (buf w)) w = Ok (tt, wp) ∧ pool w1 = pool wp) ∧
    (∀ k : nat,
       Forall (chunk_ok (bytesCap (pool w))) (chunks (buf w)) →
       Z.of_nat (length (slices (pool w))) + Z.of_nat k = poolCap (pool w) →
       slices (pool w1) =
       slices (pool w) ++
         map (λ s, Slice (sdata s) 0 (scap s)) (take k (chunks (buf w)))) ∧
    mem w1 = mem w ∧
    Chunks w1 = Ok (0, w1) ∧
    (∀ p, Read p w1 = Ok ((0, Some ErrReadAfterFree), w1)) ∧
    (∀ p off, ReadAt p off w1 = Ok ((0, Some ErrReadAfterFree), w1)) ∧
    (∀ p, Write p w1 = Ok ((0, Some ErrWriteAfterFree), w1)) ∧
    Free w1 = Ok (tt, w1) ∧
    (Free ;;; Chunks) w1 = Ok (0, w1).
Proof.
  destruct (putAll_total (chunks (buf w)) w) as [wp Hp].
  eexists. split; [by apply Free_unfold|]. simpl.
  split; [by exists wp|]. split.
  { intros k HF Hk. rewrite (putAll_room _ _ _ HF Hk) in Hp.
    injection Hp as <-. done. }
  split; [done|]. split; [done|].
  split; [intros; by apply Read_closed|].
  split; [intros; by apply ReadAt_closed|].
  split; [intros; by apply Write_closed|].
  split; [by apply Free_closed|].
  unfold bind. by rewrite Free_closed.
Qed.

Lemma free_closes_buffer_witness :
  ∃ w1, Free (mkWorld (replicate 8 Byte.x00) (mkPool [] 4 1)
                (mkBuffer 2 [Slice (Some 0%nat) 4 4; Slice (Some 4%nat) 1 4] 4))
        = Ok (tt, w1) ∧
        slices (pool w1) = [Slice (Some 0%nat) 0 4] ∧
        Chunks w1 = Ok (0, w1).
Proof.
  destruct (free_closes_buffer
              (mkWorld (replicate 8 Byte.x00) (mkPool [] 4 1)
                 (mkBuffer 2 [Slice (Some 0%nat) 4 4; Slice (Some 4%nat) 1 4] 4)))
    as (w1 & HF & _ & Hroom & _ & HC & _).
  exists w1. split; [exact HF|]. split; [|exact HC].
  apply (Hroom 1%nat).
  - repeat constructor.
  - reflexivity.
Defined.

(** C6. Every call that returns an error of the classes [InvalidArgument]
    and [ClosedResource] leaves the state (memory, pool and buffer) exactly
    as it was: [Put] of a nil slice or of a slice of another capacity,
    [NewBuffer] of a nil pool, and [Read], [ReadAt] and [Write] on a buffer
    without chunks; and these calls do return those errors. *)
Theorem errors_leave_state_unchanged :
  (∀ w b, is_nil b = true → Put b w = Ok (Some ErrNilValue, w)) ∧
  (∀ w b, is_nil b = false → cap b ≠ bytesCap (pool w) →
          Put b w = Ok (Some ErrWrongCapacity, w)) ∧
  (∀ w, NewBuffer None w = Ok ((None, Some ErrNilPool), w)) ∧
  (∀ w p, chunks (buf w) = [] → Read p w = Ok ((0, Some ErrReadAfterFree), w)) ∧
  (∀ w p off, chunks (buf w) = [] →
              ReadAt p off w = Ok ((0, Some ErrReadAfterFree), w)) ∧
  (∀ w p, chunks (buf w) = [] → Write p w = Ok ((0, Some ErrWriteAfterFree), w)) ∧
  (∀ w b e w', Put b w = Ok (Some e, w') → InvalidArgument e ∧ w' = w) ∧
  (∀ w pl r e w', NewBuffer pl w = Ok ((r, Some e), w') →
                  InvalidArgument e ∧ w' = w) ∧
  (∀ w p n e w', Read p w = Ok ((n, Some e), w') → ClosedResource e → w' = w) ∧
  (∀ w p off n e w', ReadAt p off w = Ok ((n, Some e), w') →
                     ClosedResource e → w' = w) ∧
  (∀ w p n e w', Write p w = Ok ((n, Some e), w') → ClosedResource e ∧ w' = w).
Proof.
  split; [intros; by apply Put_nil|].
  split; [intros; by apply Put_wrong_capacity|].
  split; [done|].
  split; [intros; by apply Read_closed|].
  split; [intros; by apply ReadAt_closed|].
  split; [intros; by apply Write_closed|].
  split; [apply Put_error|].
  split; [apply NewBuffer_error|].
  split; [apply Read_ClosedResource|].
  split.
  - intros w p off n e w' H HC.
    by apply readFromOffset_ClosedResource in H as (_ & -> & _).
  - intros w p n e w' H. apply Write_error in H as (_ & -> & _ & ->).
    split; [by right|done].
Qed.

Lemma errors_leave_state_unchanged_witness :
  Put nil_slice (mkWorld [] (mkPool [] 4 1) (mkBuffer 0 [] 0))
  = Ok (Some ErrNilValue, mkWorld [] (mkPool [] 4 1) (mkBuffer 0 [] 0)).
Proof.
  apply (proj1 errors_leave_state_unchanged). reflexivity.
Defined.

(** C10. On a buffer without chunks, [Read] and [ReadAt] with a
    destination of length zero return 0 and the error of use after [Free]:
    the test for the freed buffer comes before the loop that a destination
    of length zero skips.  On a buffer with chunks the same calls return 0
    and nil. *)
Theorem closed_check_precedes_zero_length (w : World) (p : slice) (off : Z) :
  len p = 0 →
  (chunks (buf w) = [] →
     Read p w = Ok ((0, Some ErrReadAfterFree), w) ∧
     ReadAt p off w = Ok ((0, Some ErrReadAfterFree), w)) ∧
  (chunks (buf w) ≠ [] →
     Read p w = Ok ((0, None), w) ∧ ReadAt p off w = Ok ((0, None), w)).
Proof.
  intros Hp. split; intros E.
  - split; [by apply Read_closed|by apply ReadAt_closed].
  - split; [|by apply readFromOffset_zero_length].
    unfold Read, bind, get_world, put_world, ret.
    rewrite readFromOffset_zero_length by done. simpl.
    by rewrite Z.add_0_r, buffer_eta, world_eta.
Qed.

Lemma closed_check_precedes_zero_length_witness :
  Read (Slice (Some 0%nat) 0 3) (mkWorld (replicate 3 Byte.x00) (mkPool [] 4 1) (mkBuffer 0 [] 4))
  = Ok ((0, Some ErrReadAfterFree),
        mkWorld (replicate 3 Byte.x00) (mkPool [] 4 1) (mkBuffer 0 [] 4)).
Proof.
  apply (closed_check_precedes_zero_length
           (mkWorld (replicate 3 Byte.x00) (mkPool [] 4 1) (mkBuffer 0 [] 4))
           (Slice (Some 0%nat) 0 3) 0); reflexivity.
Defined.

(** ** Memory *)

Section memory.
Implicit Types (m : list byte) (a n : nat) (bs : list byte).

Lemma load_lookup m a n i :
  load m a n !! i = if decide (i < n)%nat then m !! (a + i)%nat else None.
Proof.
  unfold load. case_decide.
  - by rewrite lookup_take_lt, lookup_drop.
  - apply lookup_take_ge. lia.
Qed.

Lemma length_load m a n : (a + n <= length m)%nat → length (load m a n) = n.
Proof. intros H. unfold load. rewrite length_take, length_drop. lia. Qed.

Lemma length_store m a bs : length (store m a bs) = length m.
Proof. apply length_inserts. Qed.

Lemma store_lookup_outside m a bs j :
  (j < a ∨ a + length bs <= j)%nat → store m a bs !! j = m !! j.
Proof.
  intros [H|H]; unfold store.
  - by apply list_lookup_inserts_lt.
  - by apply list_lookup_inserts_ge.
Qed.

Lemma store_lookup_inside m a bs j :
  (a <= j < a + length bs)%nat → (a + length bs <= length m)%nat →
  store m a bs !! j = bs !! (j - a)%nat.
Proof. intros H1 H2. unfold store. apply list_lookup_inserts; lia. Qed.

(** A load is split at any point. *)
Lemma load_add m a n1 n2 :
  load m a (n1 + n2) = load m a n1 ++ load m (a + n1) n2.
Proof.
  unfold load. rewrite <- take_take_drop. by rewrite drop_drop.
Qed.

Lemma take_load m a n k : (k <= n)%nat → take k (load m a n) = load m a k.
Proof. intros H. unfold load. rewrite take_take. f_equal. lia. Qed.

Lemma drop_load m a n k : (k <= n)%nat → drop k (load m a n) = load m (a + k) (n - k).
Proof.
  intros H. apply list_eq. intros i. rewrite lookup_drop, !load_lookup.
  repeat case_decide; try lia; [|done]. f_equal. lia.
Qed.

(** Loads that read the same cells are equal. *)
Lemma load_ext m m' a n :
  (∀ j, (a <= j < a + n)%nat → m !! j = m' !! j) →
  load m a n = load m' a n.
Proof.
  intros H. apply list_eq. intros i. rewrite !load_lookup.
  case_decide; [|done]. apply H. lia.
Qed.

Lemma load_store_outside m a bs a' n' :
  (a' + n' <= a ∨ a + length bs <= a')%nat →
  load (store m a bs) a' n' = load m a' n'.
Proof.
  intros H. apply load_ext. intros j Hj. apply store_lookup_outside. lia.
Qed.

Lemma load_store_same m a bs :
  (a + length bs <= length m)%nat → load (store m a bs) a (length bs) = bs.
Proof.
  intros H. apply list_eq. intros i. rewrite load_lookup. case_decide.
  - rewrite store_lookup_inside by lia. f_equal. lia.
  - symmetry. apply lookup_ge_None. lia.
Qed.

(** Memory that grows keeps what it held. *)
Lemma load_app_l m m' a n :
  (a + n <= length m)%nat → load (m ++ m') a n = load m a n.
Proof.
  intros H. apply load_ext. intros j Hj. apply lookup_app_l. lia.
Qed.

Lemma load_app_r m m' n :
  (n <= length m')%nat → load (m ++ m') (length m) n = take n m'.
Proof.
  intros H. unfold load. by rewrite drop_app_length.
Qed.
End memory.

(** ** Slice headers *)

Lemma slice_to_Ok s (k : nat) :
  (k <= scap s)%nat → slice_to s (Z.of_nat k) = Ok (Slice (sdata s) k (scap s)).
Proof.
  intros H. unfold slice_to, reslice.
  destruct (_ && _) eqn:E.
  2:{ exfalso. unfold cap in E. lia. }
  unfold cap. rewrite !Z.sub_0_r, !Nat2Z.id. do 2 f_equal.
  destruct (sdata s); simpl; [|done]. by rewrite Nat.add_0_r.
Qed.

Lemma slice_from_Ok s (k : nat) :
  (k <= slen s)%nat → (slen s <= scap s)%nat →
  slice_from s (Z.of_nat k) = Ok (advance s k).
Proof.
  intros H1 H2. unfold slice_from, reslice, advance.
  destruct (_ && _) eqn:E.
  2:{ exfalso. unfold cap, len in E. lia. }
  unfold cap, len. rewrite !Nat2Z.id. do 2 f_equal; lia.
Qed.

Lemma slice_from_panic s (i : Z) :
  i < 0 ∨ len s < i → slice_from s i = Panic SliceBoundsOutOfRange.
Proof.
  intros H. unfold slice_from, reslice.
  destruct (_ && _) eqn:E; [|done]. exfalso. lia.
Qed.

Lemma addr_advance s k :
  slice_wf s → (k <= scap s)%nat → addr (advance s k) = (addr s + k)%nat.
Proof.
  intros [_ Hn] Hk. unfold addr, advance. simpl.
  destruct (sdata s); simpl; [done|]. specialize (Hn eq_refl). lia.
Qed.

Lemma advance_wf s k : slice_wf s → slice_wf (advance s k).
Proof.
  intros [H1 H2]. split; simpl; [lia|].
  destruct (sdata s); simpl; [done|]. intros _. specialize (H2 eq_refl). lia.
Qed.

Lemma bytes_of_advance m s k :
  slice_wf s → (k <= slen s)%nat →
  bytes_of m (advance s k) = drop k (bytes_of m s).
Proof.
  intros Hw Hk. unfold bytes_of. destruct Hw as [H1 H2].
  rewrite addr_advance by (done || lia). simpl.
  by rewrite drop_load.
Qed.

(** ** [moveBytes] *)

Lemma min_nat (a b : nat) : min (Z.of_nat a) (Z.of_nat b) = Z.of_nat (Nat.min a b).
Proof. unfold min. destruct (_ <? _) eqn:E; lia. Qed.

(** With something to move and no room, it panics. *)
Lemma moveBytes_full dst src w :
  (0 < slen src)%nat → slen dst = scap dst →
  moveBytes dst src w = Panic ErrTooLarge.
Proof.
  intros H1 H2. unfold moveBytes, len, cap.
  destruct (Z.of_nat (slen src) =? 0) eqn:E; [lia|].
  destruct (_ - _ =? 0) eqn:E'; [done|lia].
Qed.

(** Otherwise it moves [r] bytes, the smaller of the length of the source
    and of the room in the destination, to the end of the destination. *)
Lemma moveBytes_Ok dst src w :
  (0 < slen src)%nat → slice_wf src → slice_wf dst → (slen dst < scap dst)%nat →
  let r := Nat.min (slen src) (scap dst - slen dst) in
  moveBytes dst src w =
    Ok ((Z.of_nat r, Slice (sdata dst) (slen dst + r) (scap dst), advance src r),
        set_mem w (store (mem w) (addr dst + slen dst)
                     (load (mem w) (addr src) r))).
Proof.
  intros H1 [H2 _] [_ Hn] H3 r. unfold moveBytes, len, cap.
  destruct (Z.of_nat (slen src) =? 0) eqn:E; [lia|].
  destruct (_ - _ =? 0) eqn:E'; [lia|].
  replace (Z.of_nat (scap dst) - Z.of_nat (slen dst))
    with (Z.of_nat (scap dst - slen dst)) by lia.
  rewrite min_nat. fold r.
  replace (Z.of_nat (slen dst) + Z.of_nat r) with (Z.of_nat (slen dst + r)) by lia.
  unfold bind, lift.
  rewrite slice_to_Ok by lia.
  rewrite slice_from_Ok by (simpl; lia).
  rewrite slice_to_Ok by lia.
  rewrite slice_from_Ok by lia.
  unfold copy, ret, len. simpl.
  replace (Z.to_nat (Z.min _ _)) with r by lia.
  do 4 f_equal. unfold addr, advance. simpl.
  destruct (sdata dst); simpl; [done|]. specialize (Hn eq_refl). lia.
Qed.

(** ** Ownership of memory *)

Lemma apart_sym r t : apart r t → apart t r.
Proof. unfold apart. lia. Qed.

Lemma pairwise_apart_app l1 l2 :
  pairwise_apart (l1 ++ l2) ↔
  pairwise_apart l1 ∧ pairwise_apart l2 ∧ Forall (λ r, Forall (apart r) l2) l1.
Proof.
  induction l1 as [|r l1 IH]; simpl.
  - split; [intros H; repeat split; [done|constructor]|tauto].
  - rewrite IH, Forall_app, list.Forall_cons. tauto.
Qed.

Lemma pairwise_apart_Permutation l l' :
  l ≡ₚ l' → pairwise_apart l → pairwise_apart l'.
Proof.
  induction 1 as [|r l l' HP IH|r t l|l l' l'' _ IH1 _ IH2]; simpl.
  - done.
  - intros [H1 H2]. split; [by rewrite <- HP|by apply IH].
  - intros [H1 [H2 H3]]. apply list.Forall_cons in H1 as [H0 H1].
    repeat split; try done. constructor; [by apply apart_sym|done].
  - intros H. by apply IH2, IH1.
Qed.

Lemma in_mem_app m m' r : in_mem m r → in_mem (m ++ m') r.
Proof. unfold in_mem. rewrite length_app. lia. Qed.

(** A fresh block is apart from all that is in memory. *)
Lemma apart_fresh m r c : in_mem m r → apart r (length m, c).
Proof. unfold in_mem, apart. simpl. lia. Qed.

Lemma chunk_ok_wf bc s : chunk_ok bc s → slice_wf s.
Proof.
  intros (_ & Hn & Hl). split; [done|].
  unfold is_nil in Hn. by destruct (sdata s).
Qed.

Lemma bytes_of_empty m s : slen s = 0%nat → bytes_of m s = [].
Proof. intros H. unfold bytes_of. by rewrite H. Qed.

Lemma bytes_of_app_l m m' s :
  in_mem m (range s) → (slen s <= scap s)%nat →
  bytes_of (m ++ m') s = bytes_of m s.
Proof.
  unfold in_mem, bytes_of. simpl. intros H1 H2. apply load_app_l. lia.
Qed.

(** What [Get] does to the slices owned and to the memory: the slice handed
    out was owned by the pool, or is fresh. *)
Lemma Get_cases w s w1 :
  Get w = Ok (s, w1) →
  (∃ l, slices (pool w) = l ++ [s] ∧ w1 = set_pool w (set_slices (pool w) l)) ∨
  (slices (pool w) = [] ∧ 0 <= bytesCap (pool w) ∧
   s = Slice (Some (length (mem w))) 0 (Z.to_nat (bytesCap (pool w))) ∧
   w1 = set_mem w (mem w ++ replicate (Z.to_nat (bytesCap (pool w))) Byte.x00)).
Proof.
  intros HG. destruct (snoc_cases (slices (pool w))) as [E|(l & s0 & E)].
  - right. unfold Get, make in HG. rewrite E in HG. simpl in HG.
    destruct (bytesCap (pool w) <? 0) eqn:E1; [done|].
    injection HG as <- <-. repeat split; try done. lia.
  - left. rewrite (Get_pop _ _ _ E) in HG. injection HG as <- <-. by exists l.
Qed.

(** ** [findWritableChunk] *)

Lemma findWritableChunk_room w init lst :
  chunks (buf w) = init ++ [lst] → (slen lst < scap lst)%nat →
  findWritableChunk w = Ok (Z.of_nat (length init), w).
Proof.
  intros E H. unfold findWritableChunk, bind, lift. rewrite E, index_last.
  unfold cap, len. destruct (_ - _ =? 0) eqn:E1; [lia|].
  unfold ret. rewrite length_app. simpl. do 2 f_equal. lia.
Qed.

Lemma findWritableChunk_grow w init lst s w1 :
  chunks (buf w) = init ++ [lst] → slen lst = scap lst →
  Get w = Ok (s, w1) → buf w1 = buf w →
  findWritableChunk w =
    Ok (Z.of_nat (length init + 1),
        set_buf w1 (set_chunks (buf w1) (init ++ [lst; s]))).
Proof.
  intros E H HG Hb. unfold findWritableChunk, bind, lift. rewrite E, index_last.
  unfold cap, len. destruct (_ - _ =? 0) eqn:E1; [|lia].
  rewrite HG. unfold get_world, put_world, ret. rewrite Hb, E.
  rewrite !length_app. simpl. rewrite <- app_assoc. simpl.
  do 2 f_equal. lia.
Qed.

Lemma String_extend w w1 new z :
  MemInv w → chunks (buf w1) = chunks (buf w) ++ new →
  Forall (λ s, slen s = 0%nat) new →
  Forall (λ s, (slen s <= scap s)%nat) (chunks (buf w)) →
  mem w1 = mem w ++ z →
  String w1 = String w.
Proof.
  intros [HV _] E Hn Hw Hm. unfold String. rewrite E, Hm, map_app, concat_app.
  unfold owned in HV. rewrite map_app, Forall_app in HV. destruct HV as [HV _].
  rewrite Forall_map in HV.
  assert (concat (map (bytes_of (mem w ++ z)) new) = []) as ->.
  { clear E. induction Hn as [|s l Hs _ IH]; simpl; [done|].
    by rewrite IH, bytes_of_empty. }
  rewrite app_nil_r. f_equal. apply map_ext_Forall.
  eapply List.Forall_impl; [|exact (List.Forall_and HV Hw)].
  intros s [H1 H2]. by apply bytes_of_app_l.
Qed.

Lemma find_step w :
  BufInv w → 0 < bytesCap (pool w) →
  ∃ w1 init dst,
    findWritableChunk w = Ok (Z.of_nat (length init), w1) ∧
    chunks (buf w1) = init ++ [dst] ∧ (slen dst < scap dst)%nat ∧
    BufInv w1 ∧
    bytesCap (pool w1) = bytesCap (pool w) ∧
    poolCap (pool w1) = poolCap (pool w) ∧
    offset (buf w1) = offset (buf w) ∧
    (∃ new, chunks (buf w1) = chunks (buf w) ++ new ∧
            Forall (λ s, slen s = 0%nat) new) ∧
    (∃ z, mem w1 = mem w ++ z) ∧
    (MemInv w → MemInv w1 ∧ ∀ q, foreign w q → foreign w1 q).
Proof.
  intros (HP & Hne & HC & Hcc) Hbc.
  destruct (snoc_cases (chunks (buf w))) as [E|(init & lst & E)]; [done|].
  assert (chunk_ok (bytesCap (pool w)) lst) as (Hcap & Hnil & Hlen).
  { rewrite E, Forall_app, Forall_singleton in HC. tauto. }
  destruct (decide (slen lst < scap lst)%nat) as [Hroom|Hfull].
  { exists w, init, lst. rewrite (findWritableChunk_room _ _ _ E Hroom).
    do 7 (split; [done|]).
    split; [exists []; split; [by rewrite app_nil_r|constructor]|].
    split; [exists []; by rewrite app_nil_r|]. done. }
  assert (slen lst = scap lst) as Hfull' by lia.
  destruct (Get_total w HP) as (s & w1 & HG); [lia|].
  destruct (Get_inv _ _ _ HP HG) as (HP1 & Hbc1 & Hpc1 & Hb1 & Hs0 & Hscap & Hsnil).
  exists (set_buf w1 (set_chunks (buf w1) (init ++ [lst; s]))), (init ++ [lst]), s.
  rewrite (findWritableChunk_grow _ _ _ _ _ E Hfull' HG Hb1).
  rewrite length_app. simpl.
  assert (chunk_ok (bytesCap (pool w)) s) as Hsok.
  { repeat split; try done. lia. }
  split; [done|]. split; [by rewrite <- app_assoc|].
  split; [unfold cap in Hscap; lia|].
  split.
  { unfold BufInv. simpl. split; [done|].
    split; [intros Habs; by destruct init|]. split.
    - rewrite Hbc1. replace (init ++ [lst; s]) with (chunks (buf w) ++ [s])
        by (rewrite E, <- app_assoc; done).
      apply Forall_app. split; [done|]. by apply Forall_singleton.
    - by rewrite Hb1, Hcc. }
  split; [done|]. split; [done|]. split; [by rewrite Hb1|].
  split.
  { exists [s]. split; [|by apply Forall_singleton].
    by rewrite E, <- app_assoc. }
  destruct (Get_cases _ _ _ HG) as [(l & El & ->)|(El & _ & Es & ->)]; simpl.
  - split; [by exists []; rewrite app_nil_r|].
    assert (owned w ≡ₚ (init ++ [lst; s]) ++ l) as Hperm.
    { unfold owned. rewrite E, El.
      replace (init ++ [lst; s]) with ((init ++ [lst]) ++ [s])
        by (rewrite <- app_assoc; done).
      rewrite <- !app_assoc. do 2 apply Permutation_app_head.
      apply Permutation_app_comm. }
    assert (∀ P : nat * nat → Prop,
              Forall P (map range (owned w)) →
              Forall P (map range ((init ++ [lst; s]) ++ l))) as HF.
    { intros P H. by rewrite <- Hperm. }
    intros [HV HS]. split.
    + split; unfold owned; simpl; [by apply HF|].
      eapply pairwise_apart_Permutation; [|exact HS].
      by apply Permutation_map.
    + intros q [Hq1 Hq2]. split; unfold owned; simpl; [done|by apply HF].
  - split; [by eexists|].
    assert (owned w = chunks (buf w)) as Ho
      by (unfold owned; rewrite El; apply app_nil_r).
    assert (range s = (length (mem w), Z.to_nat (bytesCap (pool w)))) as Hr
      by (rewrite Es; done).
    intros [HV HS]. rewrite Ho in HV, HS. split.
    + unfold MemInv, owned. simpl. rewrite El, app_nil_r.
      replace (init ++ [lst; s]) with (chunks (buf w) ++ [s])
        by (rewrite E, <- app_assoc; done).
      rewrite map_app. simpl. split.
      * apply Forall_app. split.
        -- eapply List.Forall_impl; [|exact HV]. intros r. apply in_mem_app.
        -- apply Forall_singleton. rewrite Hr. unfold in_mem. simpl.
           rewrite length_app, length_replicate. lia.
      * apply pairwise_apart_app. repeat split; simpl; try done.
        eapply List.Forall_impl; [|exact HV]. intros r Hrm.
        apply Forall_singleton. rewrite Hr. by apply apart_fresh.
    + intros q [Hq1 Hq2]. rewrite Ho in Hq2. split; simpl.
      * by apply in_mem_app.
      * unfold owned. simpl. rewrite El, app_nil_r.
        replace (init ++ [lst; s]) with (chunks (buf w) ++ [s])
          by (rewrite E, <- app_assoc; done).
        rewrite map_app. apply Forall_app. split; [done|].
        apply Forall_singleton. rewrite Hr. by apply apart_fresh.
Qed.

(** ** One turn of the loop of [Write] *)

Lemma index_middle {A} (l1 l2 : list A) (x : A) :
  index (l1 ++ x :: l2) (Z.of_nat (length l1)) = Ok x.
Proof.
  apply index_Ok. split; [lia|]. rewrite Nat2Z.id. apply list_lookup_middle. done.
Qed.

Lemma writeLoop_turn w w1 init dst p fuel n :
  findWritableChunk w = Ok (Z.of_nat (length init), w1) →
  chunks (buf w1) = init ++ [dst] → (slen dst < scap dst)%nat →
  slice_wf dst → slice_wf p → (0 < slen p)%nat →
  let r := Nat.min (slen p) (scap dst - slen dst) in
  writeLoop (S fuel) p n w =
  writeLoop fuel (advance p r) (n + Z.of_nat r) (moved w1 init dst p r).
Proof.
  intros HF E Hroom Hwd Hwp Hp r. simpl.
  assert ((0 <? len p) = true) as -> by (unfold len; lia).
  unfold bind at 1. rewrite HF.
  unfold bind at 1. unfold get_world at 1.
  unfold bind at 1. unfold lift at 1. rewrite E, index_middle.
  unfold bind at 1. rewrite moveBytes_Ok by done. fold r.
  unfold bind at 1. unfold set_chunk at 1. simpl.
  rewrite E, Nat2Z.id.
  replace (length init) with (length init + 0)%nat at 1 by lia.
  rewrite insert_app_r. simpl. done.
Qed.

Lemma range_relen s k : range (Slice (sdata s) k (scap s)) = range s.
Proof. done. Qed.

Lemma apart_sub r t (k : nat) :
  apart r t → (k <= r.2)%nat → apart ((r.1 + k)%nat, (r.2 - k)%nat) t.
Proof. unfold apart. simpl. lia. Qed.

Lemma bytes_of_store_apart m a bs s :
  (slen s <= scap s)%nat →
  (addr s + scap s <= a ∨ a + length bs <= addr s)%nat →
  bytes_of (store m a bs) s = bytes_of m s.
Proof.
  intros H1 H2. unfold bytes_of. apply load_store_outside. lia.
Qed.

(** What the turn does to the contents, given the discipline of
    ownership. *)
Lemma moved_contents w1 init dst p :
  chunks (buf w1) = init ++ [dst] → (slen dst < scap dst)%nat →
  Forall slice_wf (chunks (buf w1)) → slice_wf p → (0 < slen p)%nat →
  MemInv w1 → foreign w1 p →
  let r := Nat.min (slen p) (scap dst - slen dst) in
  let w2 := moved w1 init dst p r in
  String w2 = String w1 ++ take r (bytes_of (mem w1) p) ∧
  bytes_of (mem w2) (advance p r) = drop r (bytes_of (mem w1) p) ∧
  MemInv w2 ∧ foreign w2 (advance p r).
Proof.
  intros E Hroom Hwf Hwp Hp [HV HS] [Hp1 Hp2] r w2.
  assert (slice_wf dst) as Hwd.
  { rewrite E, Forall_app, Forall_singleton in Hwf. tauto. }
  assert (Forall slice_wf init) as Hwi.
  { rewrite E, Forall_app in Hwf. tauto. }
  destruct Hwp as [Hp3 Hp4].
  assert (r <= slen p)%nat as Hr1 by lia.
  assert (slen dst + r <= scap dst)%nat as Hr2 by lia.
  unfold in_mem in Hp1. simpl in Hp1.
  assert (length (load (mem w1) (addr p) r) = r) as Hlen
    by (apply length_load; lia).
  unfold owned in HV, HS, Hp2. rewrite E in HV, HS, Hp2.
  rewrite <- !app_assoc, !map_app in HV, HS, Hp2. simpl in HV, HS, Hp2.
  apply Forall_app in HV as [HVi HV]. apply list.Forall_cons in HV as [HVd HVs].
  apply pairwise_apart_app in HS as (HSi & HSd & HSid).
  simpl in HSd. destruct HSd as [HSds HSs].
  apply Forall_app in Hp2 as [Hpi Hp2]. apply list.Forall_cons in Hp2 as [Hpd Hps].
  unfold in_mem in HVd. simpl in HVd.
  unfold apart in Hpd. simpl in Hpd.
  split; [|split; [|split]].
  - unfold String, w2, moved. simpl. rewrite E, !map_app, !concat_app. simpl.
    rewrite !app_nil_r, <- app_assoc. f_equal.
    + f_equal. apply map_ext_Forall.
      rewrite Forall_map in HSid.
      eapply List.Forall_impl; [|exact (List.Forall_and HSid Hwi)].
      intros c [Hc1 [Hc2 _]]. apply list.Forall_cons in Hc1 as [Hc1 _].
      apply bytes_of_store_apart; [done|]. rewrite Hlen.
      unfold apart in Hc1. simpl in Hc1. lia.
    + unfold bytes_of at 1. simpl.
      change (addr (Slice (sdata dst) (slen dst + r) (scap dst))) with (addr dst).
      rewrite load_add. f_equal.
      * apply load_store_outside. lia.
      * rewrite <- Hlen at 2. rewrite load_store_same by lia.
        unfold bytes_of. by rewrite take_load.
  - rewrite bytes_of_advance by done.
    unfold bytes_of, w2, moved. simpl. f_equal.
    apply load_store_outside. rewrite Hlen. lia.
  - unfold MemInv, owned, w2, moved. simpl.
    rewrite <- !app_assoc, !map_app. simpl. rewrite range_relen. split.
    + unfold in_mem. setoid_rewrite length_store.
      apply Forall_app. split; [done|]. by apply list.Forall_cons.
    + apply pairwise_apart_app. simpl. done.
  - unfold foreign, owned, w2, moved. simpl.
    assert (range (advance p r) = ((range p).1 + r, (range p).2 - r)%nat) as ->.
    { unfold range. rewrite addr_advance by (done || lia). done. }
    split.
    + unfold in_mem. rewrite length_store. simpl. lia.
    + rewrite <- !app_assoc, !map_app. simpl. rewrite range_relen.
      assert (∀ l, Forall (apart (range p)) l →
                   Forall (apart ((range p).1 + r, (range p).2 - r)%nat) l) as Hsub.
      { intros l Hl. eapply List.Forall_impl; [|exact Hl].
        intros t Ht. apply apart_sub; [done|simpl; lia]. }
      apply Forall_app. split; [by apply Hsub|].
      apply list.Forall_cons. split; [|by apply Hsub].
      unfold apart. simpl. lia.
Qed.

Lemma moved_BufInv w1 init dst p (r : nat) :
  chunks (buf w1) = init ++ [dst] → (slen dst + r <= scap dst)%nat →
  BufInv w1 → BufInv (moved w1 init dst p r).
Proof.
  intros E Hr (HP & Hne & HC & Hcc). unfold BufInv, moved. simpl.
  split; [done|]. split; [intros Habs; by destruct init|]. split; [|done].
  rewrite E, Forall_app, Forall_singleton in HC. destruct HC as [HC (H1 & H2 & H3)].
  apply Forall_app. split; [done|]. apply Forall_singleton.
  repeat split; try done.
Qed.

(** The turn leaves the slices of callers alone. *)
Lemma moved_frame w1 init dst p (r : nat) q :
  chunks (buf w1) = init ++ [dst] → (slen dst + r <= scap dst)%nat →
  foreign w1 q → (slen q <= scap q)%nat →
  foreign (moved w1 init dst p r) q ∧
  bytes_of (mem (moved w1 init dst p r)) q = bytes_of (mem w1) q.
Proof.
  intros E Hr [Hq1 Hq2] Hq. unfold foreign, owned, moved in *. simpl.
  rewrite E in Hq2. rewrite !map_app in *. simpl in *. rewrite range_relen.
  split; [split; [|done]|].
  - unfold in_mem. by rewrite length_store.
  - apply Forall_app in Hq2 as [Hq2 _]. apply Forall_app in Hq2 as [_ Hq2].
    rewrite Forall_singleton in Hq2. unfold apart in Hq2. simpl in Hq2.
    apply bytes_of_store_apart; [done|].
    pose proof (length_take (drop (addr p) (mem w1)) r) as Hl.
    unfold load. lia.
Qed.

Lemma moved_ranges w1 init dst p (r : nat) :
  chunks (buf w1) = init ++ [dst] →
  map range (chunks (buf (moved w1 init dst p r))) = map range (chunks (buf w1)).
Proof. intros E. unfold moved. simpl. by rewrite E, !map_app. Qed.

(** ** [Write] *)

Lemma writeLoop_spec fuel : ∀ w p n,
  BufInv w → 0 < bytesCap (pool w) → slice_wf p → (slen p <= fuel)%nat →
  ∃ w', writeLoop fuel p n w = Ok ((n + len p, None), w') ∧
    BufInv w' ∧
    bytesCap (pool w') = bytesCap (pool w) ∧
    poolCap (pool w') = poolCap (pool w) ∧
    offset (buf w') = offset (buf w) ∧
    (∃ new, map range (chunks (buf w')) = map range (chunks (buf w)) ++ new) ∧
    (MemInv w → foreign w p →
       String w' = String w ++ bytes_of (mem w) p ∧ MemInv w' ∧
       ∀ q, foreign w q → (slen q <= scap q)%nat →
            foreign w' q ∧ bytes_of (mem w') q = bytes_of (mem w) q).
Proof.
  induction fuel as [|fuel IH]; intros w p n HB Hbc Hwp Hfuel.
  - exists w. split.
    { simpl. unfold len. replace (slen p) with 0%nat by lia. simpl.
      by rewrite Z.add_0_r. }
    do 4 (split; [done|]).
    split; [exists []; by rewrite app_nil_r|].
    intros HM _. rewrite bytes_of_empty, app_nil_r by lia. done.
  - destruct (decide (slen p = 0)%nat) as [Hp0|Hp0].
    { exists w. split.
      { simpl. unfold len. rewrite Hp0. simpl. by rewrite Z.add_0_r. }
      do 4 (split; [done|]).
      split; [exists []; by rewrite app_nil_r|].
      intros HM _. rewrite bytes_of_empty, app_nil_r by lia. done. }
    destruct (find_step w HB Hbc)
      as (w1 & init & dst & HF & E & Hroom & HB1 & Hbc1 & Hpc1 & Hoff1 &
          (new & Enew & Hnew) & (z & Hz) & Hmem1).
    assert (Forall slice_wf (chunks (buf w1))) as Hwf1.
    { destruct HB1 as (_ & _ & HC & _).
      eapply List.Forall_impl; [|exact HC]. intros s. apply chunk_ok_wf. }
    assert (slice_wf dst) as Hwd.
    { rewrite E, Forall_app, Forall_singleton in Hwf1. tauto. }
    set (r := Nat.min (slen p) (scap dst - slen dst)).
    assert (0 < r <= slen p)%nat as Hr by lia.
    assert (slen dst + r <= scap dst)%nat as Hr' by lia.
    rewrite (writeLoop_turn w w1 init dst p fuel n HF E Hroom Hwd Hwp) by lia.
    fold r.
    destruct (IH (moved w1 init dst p r) (advance p r) (n + Z.of_nat r))
      as (w' & HW & HB' & Hbc' & Hpc' & Hoff' & (new' & Enew') & Hmem').
    { by apply moved_BufInv. }
    { simpl. lia. }
    { by apply advance_wf. }
    { simpl. lia. }
    exists w'. split.
    { rewrite HW. do 3 f_equal. unfold len. simpl. lia. }
    split; [done|]. simpl in Hbc', Hpc', Hoff'.
    split; [congruence|]. split; [congruence|]. split; [congruence|].
    split.
    { exists (map range new ++ new').
      rewrite Enew', (moved_ranges _ _ _ _ _ E), Enew, map_app.
      by rewrite <- app_assoc. }
    intros HM Hfp.
    destruct (Hmem1 HM) as [HM1 Hfr1].
    pose proof (Hfr1 p Hfp) as Hfp1.
    destruct (moved_contents w1 init dst p E Hroom Hwf1 Hwp ltac:(lia) HM1 Hfp1)
      as (HS2 & Hp2 & HM2 & Hfp2).
    fold r in HS2, Hp2, HM2, Hfp2.
    destruct (Hmem' HM2 Hfp2) as (HS' & HM' & Hfr').
    assert (Forall (λ s, (slen s <= scap s)%nat) (chunks (buf w))) as Hlw.
    { destruct HB as (_ & _ & HC & _).
      eapply List.Forall_impl; [|exact HC]. by intros s (_ & _ & ?). }
    assert (bytes_of (mem w1) p = bytes_of (mem w) p) as Hpw.
    { rewrite Hz. destruct Hfp as [? _], Hwp as [? _]. by apply bytes_of_app_l. }
    split; [|split; [done|]].
    + rewrite HS', HS2, Hp2, <- app_assoc, take_drop.
      by rewrite (String_extend w w1 new z HM Enew Hnew Hlw Hz), Hpw.
    + intros q Hq Hql.
      pose proof (Hfr1 q Hq) as Hq1.
      destruct (moved_frame w1 init dst p r q E Hr' Hq1 Hql) as [Hq2 Eq2].
      destruct (Hfr' q Hq2 Hql) as [Hq' Eq'].
      split; [done|]. rewrite Eq', Eq2, Hz.
      destruct Hq as [? _]. by apply bytes_of_app_l.
Qed.

(** ** [Write] keeps all chunks but the last full *)

Lemma FullInv_snoc b init lst :
  chunks b = init ++ [lst] → (FullInv b ↔ Forall full init).
Proof.
  intros E. unfold FullInv. rewrite E, length_app. simpl.
  replace (length init + 1 - 1)%nat with (length init) by lia.
  by rewrite take_app_length.
Qed.

Lemma written_snoc b init lst :
  chunks b = init ++ [lst] →
  written b = Z.of_nat (sum_list_with slen init) + len lst.
Proof.
  intros E. unfold written, len. rewrite E, sum_list_with_app. simpl. lia.
Qed.

Lemma findWritableChunk_full w wi w1 :
  BufInv w → findWritableChunk w = Ok (wi, w1) →
  written (buf w1) = written (buf w) ∧ (FullInv (buf w) → FullInv (buf w1)).
Proof.
  intros (HP & Hne & HC & Hcc) HF.
  destruct (snoc_cases (chunks (buf w))) as [E|(init & lst & E)]; [done|].
  assert (chunk_ok (bytesCap (pool w)) lst) as (Hcap & Hnil & Hlen).
  { rewrite E, Forall_app, Forall_singleton in HC. tauto. }
  destruct (decide (slen lst < scap lst)%nat) as [Hroom|Hfull].
  { rewrite (findWritableChunk_room _ _ _ E Hroom) in HF. by injection HF as <- <-. }
  assert (slen lst = scap lst) as Hfull' by lia.
  unfold findWritableChunk, bind, lift in HF. rewrite E, index_last in HF.
  unfold cap, len in HF. destruct (_ - _ =? 0) eqn:E1; [|lia].
  destruct (Get w) as [[s w0]| |] eqn:HG; [|done..].
  destruct (Get_inv _ _ _ HP HG) as (_ & _ & _ & Hb0 & Hs0 & _).
  unfold get_world, put_world, ret in HF. injection HF as <- <-. simpl.
  rewrite Hb0, E, <- app_assoc. simpl.
  split.
  - unfold written. simpl. rewrite E, !sum_list_with_app. simpl. lia.
  - intros HFi. apply (FullInv_snoc _ _ _ E) in HFi.
    apply (FullInv_snoc _ (init ++ [lst]) s); [simpl; by rewrite <- app_assoc|].
    apply Forall_app. split; [done|]. by apply Forall_singleton.
Qed.

Lemma moved_full w1 init dst p (r : nat) :
  chunks (buf w1) = init ++ [dst] →
  written (buf (moved w1 init dst p r)) = written (buf w1) + Z.of_nat r ∧
  (FullInv (buf w1) → FullInv (buf (moved w1 init dst p r))).
Proof.
  intros E. split.
  - unfold written, moved. simpl. rewrite E, !sum_list_with_app. simpl. lia.
  - intros HFi. apply (FullInv_snoc _ _ _ E) in HFi.
    by apply (FullInv_snoc _ init (Slice (sdata dst) (slen dst + r) (scap dst))).
Qed.

Lemma writeLoop_full fuel : ∀ w p n r w',
  BufInv w → 0 < bytesCap (pool w) → slice_wf p → (slen p <= fuel)%nat →
  writeLoop fuel p n w = Ok (r, w') →
  written (buf w') = written (buf w) + len p ∧
  (FullInv (buf w) → FullInv (buf w')).
Proof.
  induction fuel as [|fuel IH]; intros w p n r w' HB Hbc Hwp Hfuel.
  - simpl. unfold len. replace (slen p) with 0%nat by lia. simpl.
    unfold ret. intros [= <- <-]. split; [lia|done].
  - destruct (decide (slen p = 0)%nat) as [Hp0|Hp0].
    { simpl. unfold len. rewrite Hp0. simpl.
      unfold ret. intros [= <- <-]. split; [lia|done]. }
    destruct (find_step w HB Hbc)
      as (w1 & init & dst & HF & E & Hroom & HB1 & Hbc1 & _).
    destruct (findWritableChunk_full w _ w1 HB HF) as [Hwr1 Hfull1].
    assert (slice_wf dst) as Hwd.
    { destruct HB1 as (_ & _ & HC & _).
      rewrite E, Forall_app, Forall_singleton in HC.
      apply (chunk_ok_wf (bytesCap (pool w1))). tauto. }
    set (k := Nat.min (slen p) (scap dst - slen dst)).
    rewrite (writeLoop_turn w w1 init dst p fuel n HF E Hroom Hwd Hwp) by lia.
    fold k. intros HW.
    destruct (moved_full w1 init dst p k E) as [Hwr2 Hfull2].
    apply IH in HW as [Hwr' Hfull'].
    + split; [|tauto]. rewrite Hwr', Hwr2, Hwr1. unfold len. simpl. lia.
    + apply moved_BufInv; [done|lia|done].
    + simpl. lia.
    + by apply advance_wf.
    + simpl. lia.
Qed.

Lemma Write_full w p r w' :
  BufInv w → 0 < bytesCap (pool w) → slice_wf p →
  Write p w = Ok (r, w') →
  written (buf w') = written (buf w) + len p ∧
  (FullInv (buf w) → FullInv (buf w')).
Proof.
  intros HB Hbc Hwp. pose proof HB as (_ & Hne & _). unfold Write.
  destruct (chunks (buf w)) as [|c l] eqn:E; [done|]. simpl.
  intros HW. eapply writeLoop_full; [done..| |exact HW]. lia.
Qed.

(** ** [NewBuffer] *)

(** [NewBuffer] over a pool establishes the invariant of the buffer. *)
Lemma NewBuffer_spec w :
  PoolInv (pool w) → 0 <= bytesCap (pool w) →
  ∃ w1, NewBuffer (Some ThePool) w = Ok ((Some TheBuffer, None), w1) ∧
    BufInv w1 ∧
    bytesCap (pool w1) = bytesCap (pool w) ∧
    poolCap (pool w1) = poolCap (pool w) ∧
    offset (buf w1) = 0 ∧
    length (chunks (buf w1)) = 1%nat ∧
    String w1 = [] ∧
    written (buf w1) = 0 ∧ FullInv (buf w1) ∧
    (Forall (in_mem (mem w)) (map range (slices (pool w))) →
     pairwise_apart (map range (slices (pool w))) →
     MemInv w1 ∧
     ∀ q, in_mem (mem w) (range q) →
          Forall (apart (range q)) (map range (slices (pool w))) →
          (slen q <= scap q)%nat →
          foreign w1 q ∧ bytes_of (mem w1) q = bytes_of (mem w) q).
Proof.
  intros HP Hbc. destruct (Get_total w HP Hbc) as (c & w0 & HG).
  destruct (Get_inv _ _ _ HP HG) as (HP0 & Hbc0 & Hpc0 & Hb0 & Hc0 & Hccap & Hcnil).
  exists (set_buf w0 (mkBuffer 0 [c] (cap c))). simpl.
  split.
  { unfold bind, get_world, put_world, ret. by rewrite HG. }
  split.
  { unfold BufInv. simpl. split; [done|]. split; [done|]. split; [|congruence].
    apply Forall_singleton. rewrite Hbc0. repeat split; try done. lia. }
  do 4 (split; [done|]).
  split.
  { unfold String. simpl. by rewrite bytes_of_empty. }
  split; [unfold written; simpl; lia|]. split; [constructor|].
  intros HV HS.
  destruct (Get_cases _ _ _ HG) as [(l & El & ->)|(El & _ & Ec & ->)]; simpl.
  - rewrite El, map_app in HV, HS. simpl in HV, HS.
    assert (range c :: map range l ≡ₚ map range l ++ [range c]) as Hperm.
    { by rewrite Permutation_app_comm. }
    split.
    + unfold MemInv, owned. simpl. split; [by rewrite Hperm|].
      change (pairwise_apart (range c :: map range l)).
      eapply pairwise_apart_Permutation; [symmetry; exact Hperm|done].
    + intros q Hq1 Hq2 Hql. split; [|done].
      unfold foreign, owned. simpl. split; [done|].
      rewrite El, map_app in Hq2. simpl in Hq2. by rewrite Hperm.
  - assert (range c = (length (mem w), Z.to_nat (bytesCap (pool w)))) as Hr
      by (rewrite Ec; done).
    split.
    + unfold MemInv, owned. simpl. rewrite El. simpl. rewrite Hr.
      split; [|done]. apply Forall_singleton. unfold in_mem. simpl.
      rewrite length_app, length_replicate. lia.
    + intros q Hq1 Hq2 Hql. split.
      * unfold foreign, owned. simpl. rewrite El. simpl. rewrite Hr.
        split; [by apply in_mem_app|].
        apply Forall_singleton. by apply apart_fresh.
      * by apply bytes_of_app_l.
Qed.

(** ** [Write] on a pool of capacity zero *)

Lemma BufInv_bytesCap w : BufInv w → 0 <= bytesCap (pool w).
Proof.
  intros (_ & Hne & HC & _).
  destruct (chunks (buf w)) as [|c l]; [done|].
  apply list.Forall_cons in HC as [(Hc & _) _]. unfold cap in Hc. lia.
Qed.

Lemma Write_zero_capacity w p :
  BufInv w → bytesCap (pool w) = 0 → 0 < len p →
  Write p w = Panic ErrTooLarge.
Proof.
  intros HB Hbc Hp. pose proof HB as (HP & Hne & HC & Hcc).
  destruct (snoc_cases (chunks (buf w))) as [E|(init & lst & E)]; [done|].
  assert (chunk_ok (bytesCap (pool w)) lst) as (Hcap & Hnil & Hlen).
  { rewrite E, Forall_app, Forall_singleton in HC. tauto. }
  unfold cap in Hcap.
  destruct (Get_total w HP) as (s & w1 & HG); [lia|].
  destruct (Get_inv _ _ _ HP HG) as (_ & _ & _ & Hb1 & Hs0 & Hscap & _).
  unfold cap in Hscap.
  unfold Write. rewrite E, length_app. simpl.
  destruct (_ =? 0) eqn:E0; [lia|]. clear E0.
  unfold len in Hp. destruct (slen p) as [|fuel] eqn:Ep; [lia|]. simpl.
  assert ((0 <? len p) = true) as -> by (unfold len; lia).
  unfold bind at 1.
  rewrite (findWritableChunk_grow w init lst s w1 E ltac:(lia) HG Hb1).
  unfold bind at 1. unfold get_world at 1.
  unfold bind at 1. unfold lift at 1. simpl.
  replace (init ++ [lst; s]) with ((init ++ [lst]) ++ [s])
    by (rewrite <- app_assoc; done).
  replace (Z.of_nat (length init + 1)) with (Z.of_nat (length (init ++ [lst])))
    by (rewrite length_app; simpl; lia).
  rewrite index_middle.
  unfold bind at 1. rewrite moveBytes_full; [done|lia|lia].
Qed.

Lemma Write_positive_capacity w p :
  BufInv w → 0 < bytesCap (pool w) → slice_wf p →
  ∃ w', Write p w = Ok ((len p, None), w') ∧
    BufInv w' ∧
    bytesCap (pool w') = bytesCap (pool w) ∧
    poolCap (pool w') = poolCap (pool w) ∧
    offset (buf w') = offset (buf w) ∧
    (∃ new, map range (chunks (buf w')) = map range (chunks (buf w)) ++ new) ∧
    (MemInv w → foreign w p →
       String w' = String w ++ bytes_of (mem w) p ∧ MemInv w' ∧
       ∀ q, foreign w q → (slen q <= scap q)%nat →
            foreign w' q ∧ bytes_of (mem w') q = bytes_of (mem w) q).
Proof.
  intros HB Hbc Hwp. pose proof HB as (_ & Hne & _).
  destruct (writeLoop_spec (slen p) w p 0 HB Hbc Hwp ltac:(lia)) as (w' & HW & H).
  exists w'. split; [|done]. unfold Write.
  destruct (chunks (buf w)) as [|c l]; [done|]. simpl. by rewrite HW.
Qed.

Lemma WriteString_spec w (s : list byte) :
  BufInv w → 0 < bytesCap (pool w) → MemInv w →
  ∃ w', WriteString s w = Ok ((Z.of_nat (length s), None), w') ∧
    BufInv w' ∧ MemInv w' ∧ String w' = String w ++ s.
Proof.
  intros HB Hbc HM.
  set (p := Slice (Some (length (mem w))) (length s) (length s)).
  set (w0 := set_mem w (mem w ++ s)).
  assert (BufInv w0) as HB0 by done.
  assert (slice_wf p) as Hwp by (split; simpl; [lia|done]).
  assert (MemInv w0) as HM0.
  { destruct HM as [HV HS]. split; [|done]. unfold w0, owned. simpl.
    eapply List.Forall_impl; [|exact HV]. intros r. apply in_mem_app. }
  assert (foreign w0 p) as Hfp.
  { destruct HM as [HV _]. split.
    - unfold in_mem, w0, p, range, addr. simpl. rewrite length_app. lia.
    - unfold w0, owned. simpl.
      eapply List.Forall_impl; [|exact HV]. intros r Hr.
      apply apart_sym. by apply apart_fresh. }
  destruct (Write_positive_capacity w0 p HB0 Hbc Hwp)
    as (w' & HW & HB' & _ & _ & _ & _ & Hmem).
  destruct (Hmem HM0 Hfp) as (HS' & HM' & _).
  exists w'. split; [|split; [done|split; [done|]]].
  - unfold WriteString, bind, bytes_of_string. fold p. fold w0. by rewrite HW.
  - rewrite HS'. f_equal.
    + apply (String_extend w w0 [] s HM); simpl;
        [by rewrite app_nil_r|constructor| |done].
      destruct HB as (_ & _ & HC & _).
      eapply List.Forall_impl; [|exact HC]. by intros c (_ & _ & ?).
    + unfold bytes_of, w0, p. simpl. rewrite load_app_r by lia.
      by rewrite take_ge.
Qed.

(** C3. On a buffer with chunks over a pool of positive capacity, [Write]
    of any slice [p] returns [len(p)] and no error: the buffer holds
    [len(p)] bytes more, keeps the chunks it had (same memory, same
    capacity) and has new chunks appended after them, all but the last
    chunk full if they were so before.  Under the discipline of ownership
    (the slices of the buffer and of the pool do not overlap, and [p] is
    the caller's own), [String()] after the call is [String()] before it
    followed by the bytes of [p], the discipline still holds, and the
    slices of callers are untouched.  From [NewPool(5, 100)], [WriteString]
    of the 11 bytes of "hello world" into a new buffer returns 11 and
    leaves 3 chunks. *)
Theorem write_appends :
  (∀ w p, BufInv w → 0 < bytesCap (pool w) → slice_wf p →
     ∃ w', Write p w = Ok ((len p, None), w') ∧
       BufInv w' ∧
       written (buf w') = written (buf w) + len p ∧
       (FullInv (buf w) → FullInv (buf w')) ∧
       offset (buf w') = offset (buf w) ∧
       (∃ new, map range (chunks (buf w')) = map range (chunks (buf w)) ++ new) ∧
       (MemInv w → foreign w p →
          String w' = String w ++ bytes_of (mem w) p ∧ MemInv w' ∧
          ∀ q, foreign w q → (slen q <= scap q)%nat →
               foreign w' q ∧ bytes_of (mem w') q = bytes_of (mem w) q)) ∧
  (∃ pl w1 w2,
     NewPool 5 100 = Ok pl ∧
     NewBuffer (Some ThePool) (mkWorld [] pl (mkBuffer 0 [] 0))
       = Ok ((Some TheBuffer, None), w1) ∧
     Chunks w1 = Ok (1, w1) ∧
     WriteString (list_byte_of_string "hello world") w1 = Ok ((11, None), w2) ∧
     Chunks w2 = Ok (3, w2) ∧
     String w2 = list_byte_of_string "hello world").
Proof.
  split.
  - intros w p HB Hbc Hwp.
    destruct (Write_positive_capacity w p HB Hbc Hwp)
      as (w' & HW & HB' & _ & _ & Hoff & Hnew & Hmem).
    destruct (Write_full w p _ w' HB Hbc Hwp HW) as [Hwr Hfull].
    exists w'. do 6 (split; [done|]). done.
  - eexists _, _, _. split; [reflexivity|].
    split; [vm_compute; reflexivity|].
    split; [reflexivity|].
    split; [vm_compute; reflexivity|].
    split; reflexivity.
Qed.

Lemma write_appends_witness :
  ∃ w', Write (Slice (Some 5%nat) 2 2)
          (mkWorld (replicate 5 Byte.x00 ++ list_byte_of_string "hi")
             (mkPool [] 5 100) (mkBuffer 0 [Slice (Some 0%nat) 0 5] 5))
        = Ok ((2, None), w') ∧
        String w' = list_byte_of_string "hi".
Proof.
  destruct (proj1 write_appends
              (mkWorld (replicate 5 Byte.x00 ++ list_byte_of_string "hi")
                 (mkPool [] 5 100) (mkBuffer 0 [Slice (Some 0%nat) 0 5] 5))
              (Slice (Some 5%nat) 2 2))
    as (w' & HW & _ & _ & _ & _ & _ & Hmem).
  - unfold BufInv, PoolInv, chunk_ok. simpl.
    repeat split; try lia; try done; repeat constructor; simpl; lia.
  - simpl. lia.
  - split; simpl; [lia|done].
  - exists w'. split; [exact HW|].
    destruct Hmem as [HS _].
    + unfold MemInv, owned, in_mem. simpl.
      split; [constructor; [vm_compute; lia|constructor]|split; [constructor|exact I]].
    + unfold foreign, owned, in_mem, apart. simpl.
      split; [vm_compute; lia|constructor; [vm_compute; lia|constructor]].
    + exact HS.
Defined.

(** C3, the counterexample to the claim as it was made.  From
    [NewPool(5, 100)] a caller gets a slice and puts it twice, against the
    duty that [Put] lays on it.  [NewBuffer] then makes a buffer in use,
    over a pool of capacity 5, which satisfies the invariant of the
    buffer; its only chunk is memory that the pool holds as well.
    [Write] of the 10 bytes of "helloworld", which lie in memory of their
    own, returns 10 and no error and leaves 2 chunks, as claimed; but both
    chunks are the same memory, and [String()] afterwards is "worldworld",
    not the empty contents before the call followed by the data. *)
Lemma write_appends_overlap_counterexample :
  ∃ pl x w0 w1 p w1' w2,
    NewPool 5 100 = Ok pl ∧
    (x <- Get ;; Put x ;;; Put x ;;; ret x) (mkWorld [] pl (mkBuffer 0 [] 0))
      = Ok (x, w0) ∧
    NewBuffer (Some ThePool) w0 = Ok ((Some TheBuffer, None), w1) ∧
    bytes_of_string (list_byte_of_string "helloworld") w1 = Ok (p, w1') ∧
    BufInv w1' ∧ 0 < bytesCap (pool w1') ∧ slice_wf p ∧ foreign w1' p ∧
    ¬ MemInv w1' ∧
    String w1' = [] ∧
    bytes_of (mem w1') p = list_byte_of_string "helloworld" ∧
    Write p w1' = Ok ((len p, None), w2) ∧
    Chunks w2 = Ok (2, w2) ∧
    String w2 = list_byte_of_string "worldworld" ∧
    String w2 ≠ String w1' ++ bytes_of (mem w1') p.
Proof.
  eexists _, _, _, _, _, _, _.
  split; [reflexivity|]. split; [vm_compute; reflexivity|].
  split; [vm_compute; reflexivity|]. split; [vm_compute; reflexivity|].
  split.
  { split; [split; simpl; [|lia]|].
    - apply Forall_singleton. split; [done|]. split; [done|]. done.
    - simpl. split; [done|]. split; [|done].
      apply Forall_singleton. split; [done|]. split; [done|]. simpl. lia. }
  split; [simpl; lia|]. split; [split; simpl; [lia|done]|].
  split.
  { split; [unfold in_mem; simpl; lia|].
    simpl. repeat constructor; unfold apart; simpl; lia. }
  split.
  { intros [_ HS]. simpl in HS. destruct HS as [HS _].
    rewrite Forall_singleton in HS. unfold apart, range, addr in HS.
    simpl in HS. lia. }
  split; [reflexivity|]. split; [vm_compute; reflexivity|].
  split; [vm_compute; reflexivity|]. split; [reflexivity|].
  split; [vm_compute; reflexivity|].
  vm_compute. congruence.
Qed.

(** C9. On a pool of capacity zero [NewBuffer] returns a buffer, and
    [Write] of a slice that is not empty into it panics with
    [ErrTooLarge].  In general, on a buffer with chunks, [Write] of a slice
    that is not empty panics with [ErrTooLarge] exactly when the chunk
    capacity of the buffer is zero; otherwise it returns. *)
Theorem zero_capacity_write_panics :
  (∀ w, PoolInv (pool w) → bytesCap (pool w) = 0 →
     ∃ w1, NewBuffer (Some ThePool) w = Ok ((Some TheBuffer, None), w1) ∧
       chunkCap (buf w1) = 0 ∧
       ∀ p, 0 < len p → Write p w1 = Panic ErrTooLarge) ∧
  (∀ w p, BufInv w → slice_wf p → 0 < len p →
     (Write p w = Panic ErrTooLarge ↔ chunkCap (buf w) = 0) ∧
     (chunkCap (buf w) ≠ 0 → ∃ w', Write p w = Ok ((len p, None), w'))).
Proof.
  split.
  - intros w HP Hbc.
    destruct (NewBuffer_spec w HP ltac:(lia)) as (w1 & HN & HB1 & Hbc1 & _).
    exists w1. split; [done|]. pose proof HB1 as (_ & _ & _ & Hcc).
    split; [congruence|]. intros p Hp.
    apply Write_zero_capacity; [done|congruence|done].
  - intros w p HB Hwp Hp. pose proof HB as (_ & _ & _ & Hcc).
    pose proof (BufInv_bytesCap w HB) as Hge.
    assert (chunkCap (buf w) ≠ 0 → ∃ w', Write p w = Ok ((len p, None), w')) as Hpos.
    { intros Hne.
      destruct (Write_positive_capacity w p HB ltac:(lia) Hwp) as (w' & HW & _).
      by exists w'. }
    split; [|done]. split.
    + intros HW. destruct (decide (chunkCap (buf w) = 0)) as [|Hne]; [done|].
      destruct (Hpos Hne) as (w' & HW'). congruence.
    + intros H0. apply Write_zero_capacity; [done|congruence|done].
Qed.

Lemma zero_capacity_write_panics_witness :
  ∃ w1, NewBuffer (Some ThePool) (mkWorld [] (mkPool [] 0 2) (mkBuffer 0 [] 0))
        = Ok ((Some TheBuffer, None), w1) ∧
        Write (Slice (Some 0%nat) 1 1) w1 = Panic ErrTooLarge.
Proof.
  destruct (proj1 zero_capacity_write_panics
              (mkWorld [] (mkPool [] 0 2) (mkBuffer 0 [] 0)))
    as (w1 & HN & _ & HW).
  - split; simpl; [constructor|lia].
  - reflexivity.
  - exists w1. split; [exact HN|]. apply HW. reflexivity.
Defined.

(** ** The reads leave the buffer alone *)

Lemma lift_Ok {A} (r : result A) w a w' : lift r w = Ok (a, w') → r = Ok a ∧ w' = w.
Proof. unfold lift. destruct r; [|done..]. by intros [= -> ->]. Qed.

Lemma reslice_Ok s lo hi s' :
  reslice s lo hi = Ok s' →
  0 <= lo ∧ lo <= hi ∧ hi <= cap s ∧
  s' = Slice ((λ a, a + Z.to_nat lo)%nat <$> sdata s)
             (Z.to_nat (hi - lo)) (Z.to_nat (cap s - lo)).
Proof.
  unfold reslice. destruct (_ && _) eqn:E; [|done].
  intros [= <-]. repeat split; lia.
Qed.

Lemma slice_from_inv s lo s' :
  slice_from s lo = Ok s' →
  0 <= lo <= len s ∧ len s <= cap s ∧ s' = advance s (Z.to_nat lo).
Proof.
  intros H. apply reslice_Ok in H as (H1 & H2 & H3 & ->).
  repeat split; try done. unfold advance, len, cap in *. f_equal; lia.
Qed.

Lemma len_advance s (k : nat) : len (advance s k) = Z.of_nat (slen s - k).
Proof. done. Qed.

Lemma addr_advance_cases s k :
  (sdata s = None ∧ addr (advance s k) = 0%nat ∧ addr s = 0%nat) ∨
  addr (advance s k) = (addr s + k)%nat.
Proof. unfold addr, advance. simpl. destruct (sdata s); simpl; auto. Qed.

Lemma findReadLocation_Ok off w s i w' :
  findReadLocation off w = Ok ((s, i), w') →
  w' = w ∧ chunkCap (buf w) ≠ 0 ∧
  index (chunks (buf w)) (Z.quot off (chunkCap (buf w))) = Ok s ∧
  i = Z.rem off (chunkCap (buf w)).
Proof.
  unfold findReadLocation, bind, lift, div, rem, ret.
  destruct (chunkCap (buf w) =? 0) eqn:E; [done|].
  destruct (index _ _) as [s0| |]; [|done..].
  intros [= <- <- <-]. repeat split; try done. lia.
Qed.

Lemma readLoop_frame fuel : ∀ p off n w r w',
  readLoop fuel p off n w = Ok (r, w') → 0 <= n →
  pool w' = pool w ∧ buf w' = buf w ∧
  length (mem w') = length (mem w) ∧
  n <= r.1 ∧ (n <= len p → r.1 <= len p) ∧
  ∀ j, (j < addr p ∨ addr p + slen p <= j)%nat → mem w' !! j = mem w !! j.
Proof.
  induction fuel as [|fuel IH]; intros p off n w r w'; simpl.
  - destruct (n <? len p) eqn:En; [done|]. unfold ret. intros [= <- <-] Hn.
    simpl. repeat split; try done; lia.
  - destruct (n <? len p) eqn:En.
    2:{ unfold ret. intros [= <- <-] Hn. simpl. repeat split; try done; lia. }
    unfold bind at 1.
    destruct (findReadLocation off w) as [[[s i] w1]| |] eqn:HF; [|done..].
    apply findReadLocation_Ok in HF as (-> & _ & _ & _). simpl.
    destruct (i =? len s) eqn:Ei.
    { unfold ret. intros [= <- <-] Hn. simpl. repeat split; try done; lia. }
    unfold bind at 1.
    destruct (lift (slice_from p n) w) as [[d w2]| |] eqn:Hd; [|done..].
    apply lift_Ok in Hd as [Hd ->]. apply slice_from_inv in Hd as (Hd1 & Hd2 & ->).
    unfold bind at 1.
    destruct (lift (slice_from s i) w) as [[s' w3]| |] eqn:Hs; [|done..].
    apply lift_Ok in Hs as [Hs ->]. apply slice_from_inv in Hs as (Hs1 & Hs2 & ->).
    unfold bind at 1. unfold copy at 1. rewrite !len_advance.
    set (x := Z.min _ _). intros HR Hn.
    assert (0 < x <= len p - n) as Hx by (unfold x, len in *; lia).
    apply IH in HR as (HR1 & HR2 & HR3 & HR4 & HR5 & HR6); [|lia]. simpl in *.
    rewrite length_store in HR3.
    repeat split; try done; try lia.
    intros j Hj. rewrite HR6 by done. apply store_lookup_outside.
    pose proof (length_take (drop (addr (advance s (Z.to_nat i))) (mem w))
                  (Z.to_nat x)) as Hl.
    unfold load. unfold len in *.
    destruct (addr_advance_cases p (Z.to_nat n)) as [(_ & -> & E0)| ->]; lia.
Qed.

(** ** Reads depend on the chunks only *)

Lemma findReadLocation_locate off w :
  findReadLocation off w = lift (locate (buf w) off) w.
Proof.
  unfold findReadLocation, locate, bind, lift, ret.
  destruct (div off _); [|done..].
  destruct (index _ _); [|done..].
  by destruct (rem off _).
Qed.

(** The loop of [readFromOffset], unrolled once. *)
Lemma readLoop_S fuel p off n w :
  readLoop (S fuel) p off n w =
  if n <? len p then
    match locate (buf w) off with
    | Ok (s, i) =>
        if i =? len s then Ok ((n, Some EOF), w)
        else
          match slice_from p n with
          | Ok d =>
              match slice_from s i with
              | Ok s' =>
                  let x := Z.min (len d) (len s') in
                  readLoop fuel p (off + x) (n + x)
                    (set_mem w (store (mem w) (addr d)
                                  (load (mem w) (addr s') (Z.to_nat x))))
              | Panic e => Panic e
              | OutOfFuel => OutOfFuel
              end
          | Panic e => Panic e
          | OutOfFuel => OutOfFuel
          end
    | Panic e => Panic e
    | OutOfFuel => OutOfFuel
    end
  else Ok ((n, None), w).
Proof.
  simpl. destruct (n <? len p); [|done].
  unfold bind at 1. rewrite findReadLocation_locate. unfold lift at 1.
  destruct (locate (buf w) off) as [[s i]| |]; [|done..]. simpl.
  destruct (i =? len s); [done|].
  unfold bind at 1. unfold lift at 1.
  destruct (slice_from p n) as [d| |]; [|done..].
  unfold bind at 1. unfold lift at 1.
  destruct (slice_from s i) as [s'| |]; [|done..].
  done.
Qed.







Lemma readFromOffset_frame p off w r w' :
  readFromOffset p off w = Ok (r, w') →
  pool w' = pool w ∧ buf w' = buf w ∧
  length (mem w') = length (mem w) ∧
  0 <= r.1 <= len p ∧
  ∀ j, (j < addr p ∨ addr p + slen p <= j)%nat → mem w' !! j = mem w !! j.
Proof.
  unfold readFromOffset. destruct (_ =? 0).
  - unfold ret. intros [= <- <-]. simpl. unfold len. repeat split; try done; lia.
  - intros H. apply readLoop_frame in H as (H1 & H2 & H3 & H4 & H5 & H6); [|done].
    repeat split; try done. apply H5. unfold len. lia.
Qed.

Lemma Read_unfold p w :
  Read p w =
  match readFromOffset p (offset (buf w)) w with
  | Ok (r, w') => Ok (r, set_buf w' (set_offset (buf w') (offset (buf w') + r.1)))
  | Panic e => Panic e
  | OutOfFuel => OutOfFuel
  end.
Proof.
  unfold Read, bind, get_world, put_world, ret.
  by destruct (readFromOffset p (offset (buf w)) w) as [[[n e] w']| |].
Qed.







(** ** Reads at and past the end of the data *)

(** [findReadLocation] indexes [b.chunks] with [offset/b.chunkCap] and does
    not compare the offset with the length of the data.  An offset at or
    past the end of the chunk list panics in the first turn of the loop. *)
Lemma readFromOffset_beyond_chunks w p off :
  chunks (buf w) ≠ [] → 0 < len p → 0 < chunkCap (buf w) →
  Z.of_nat (length (chunks (buf w))) * chunkCap (buf w) <= off →
  readFromOffset p off w = Panic IndexOutOfRange.
Proof.
  intros Hne Hp Hcc Hoff. unfold readFromOffset.
  destruct (chunks (buf w)) as [|c0 l0] eqn:E; [done|].
  assert ((Z.of_nat (length (c0 :: l0)) =? 0) = false) as -> by (simpl; lia).
  unfold len in Hp. destruct (slen p) as [|fuel] eqn:Ep; [lia|].
  rewrite readLoop_S.
  assert ((0 <? len p) = true) as -> by (unfold len; lia).
  unfold locate, div. assert ((chunkCap (buf w) =? 0) = false) as -> by lia.
  rewrite E. unfold index.
  assert (Z.of_nat (length (c0 :: l0)) <= off ÷ chunkCap (buf w)) as Hq.
  { apply Z.quot_le_lower_bound; lia. }
  destruct (_ || _) eqn:Eb; [done|]. exfalso. lia.
Qed.

Lemma locate_nonzero b off :
  chunkCap b ≠ 0 →
  locate b off =
  match index (chunks b) (off ÷ chunkCap b) with
  | Ok s => Ok (s, Z.rem off (chunkCap b))
  | Panic e => Panic e
  | OutOfFuel => OutOfFuel
  end.
Proof.
  intros H. unfold locate, div, rem.
  by assert ((chunkCap b =? 0) = false) as -> by lia.
Qed.

Lemma index_cases {A} (l : list A) i :
  (∃ x, index l i = Ok x) ∨ index l i = Panic IndexOutOfRange.
Proof.
  unfold index. destruct (_ || _); [by right|].
  destruct (l !! _); [left; by eexists|by right].
Qed.

(** A negative offset panics as well. *)
Lemma readFromOffset_negative w p off :
  chunks (buf w) ≠ [] → 0 < len p → 0 < chunkCap (buf w) → off < 0 →
  ∃ e, readFromOffset p off w = Panic e.
Proof.
  intros Hne Hp Hcc Hoff. unfold readFromOffset.
  destruct (chunks (buf w)) as [|c0 l0] eqn:E; [done|].
  assert ((Z.of_nat (length (c0 :: l0)) =? 0) = false) as -> by (simpl; lia).
  unfold len in Hp. destruct (slen p) as [|fuel] eqn:Ep; [lia|].
  rewrite readLoop_S.
  assert ((0 <? len p) = true) as -> by (unfold len; lia).
  rewrite locate_nonzero by lia.
  destruct (index_cases (chunks (buf w)) (off ÷ chunkCap (buf w)))
    as [[s HI]|HI]; rewrite HI; [|by eexists].
  apply index_Ok in HI as [Hq _].
  assert (off ÷ chunkCap (buf w) <= 0) by (apply Z.quot_le_upper_bound; lia).
  pose proof (Z.quot_rem' off (chunkCap (buf w))) as Hqr.
  assert (Z.rem off (chunkCap (buf w)) < 0) as Hi by nia.
  destruct (_ =? len s) eqn:Ei; [exfalso; unfold len in *; lia|].
  unfold slice_from at 1. unfold reslice at 1.
  destruct (_ && _); [|by eexists].
  rewrite slice_from_panic by lia. by eexists.
Qed.

(** C2, the failing run.  From [NewPool(5, 100)], a new buffer and
    [WriteString] of the 5 bytes of "hello": the only chunk is full.
    [Read] into a destination of length 10 copies the 5 bytes and then
    indexes [b.chunks[1]]: it panics, where the claim has it return 5 with
    [io.EOF].  With the 4 bytes of "hell" the same call returns 4 with
    [io.EOF]. *)
Theorem read_to_end_of_full_chunk_panics :
  ∃ pl w1 w2 p w3,
    NewPool 5 100 = Ok pl ∧
    NewBuffer (Some ThePool) (mkWorld [] pl (mkBuffer 0 [] 0))
      = Ok ((Some TheBuffer, None), w1) ∧
    WriteString (list_byte_of_string "hello") w1 = Ok ((5, None), w2) ∧
    make 10 10 w2 = Ok (p, w3) ∧
    Read p w3 = Panic IndexOutOfRange ∧
    ∃ w2' p' w3' w4',
      WriteString (list_byte_of_string "hell") w1 = Ok ((4, None), w2') ∧
      make 10 10 w2' = Ok (p', w3') ∧
      Read p' w3' = Ok ((4, Some EOF), w4').
Proof.
  eexists _, _, _, _, _. split; [reflexivity|].
  split; [vm_compute; reflexivity|].
  split; [vm_compute; reflexivity|].
  split; [vm_compute; reflexivity|].
  split; [vm_compute; reflexivity|].
  eexists _, _, _, _.
  split; [vm_compute; reflexivity|].
  split; vm_compute; reflexivity.
Qed.

(** C1, the failing runs.  From [NewPool(5, 100)], a new buffer and
    [WriteString] of the 11 bytes of "hello world" (chunks of 5, 5 and 1
    bytes), [ReadAt] with a destination of length 3: at offset 11, the end
    of the data, it returns 0 with [io.EOF]; at offset 12 it slices the
    last chunk past its length and panics; at offset 15 it indexes
    [b.chunks[3]] and panics.  After [WriteString] of "hello" alone, the
    offset 5 at the end of the data panics too. *)
Theorem readAt_past_end_panics :
  ∃ pl w1 w2 p w3,
    NewPool 5 100 = Ok pl ∧
    NewBuffer (Some ThePool) (mkWorld [] pl (mkBuffer 0 [] 0))
      = Ok ((Some TheBuffer, None), w1) ∧
    WriteString (list_byte_of_string "hello world") w1 = Ok ((11, None), w2) ∧
    make 3 3 w2 = Ok (p, w3) ∧
    ReadAt p 11 w3 = Ok ((0, Some EOF), w3) ∧
    ReadAt p 12 w3 = Panic SliceBoundsOutOfRange ∧
    ReadAt p 15 w3 = Panic IndexOutOfRange ∧
    ∃ w2' p' w3',
      WriteString (list_byte_of_string "hello") w1 = Ok ((5, None), w2') ∧
      make 3 3 w2' = Ok (p', w3') ∧
      ReadAt p' 5 w3' = Panic IndexOutOfRange.
Proof.
  eexists _, _, _, _, _. split; [reflexivity|].
  split; [vm_compute; reflexivity|].
  split; [vm_compute; reflexivity|].
  split; [vm_compute; reflexivity|].
  split; [vm_compute; reflexivity|].
  split; [vm_compute; reflexivity|].
  split; [vm_compute; reflexivity|].
  eexists _, _, _.
  split; [vm_compute; reflexivity|].
  split; vm_compute; reflexivity.
Qed.

(** ** The bounds on the loops suffice *)

Lemma readLoop_fuel fuel : ∀ p off n w,
  0 <= n → len p - n <= Z.of_nat fuel → readLoop fuel p off n w ≠ OutOfFuel.
Proof.
  induction fuel as [|fuel IH]; intros p off n w Hn Hf.
  - simpl. by assert ((n <? len p) = false) as -> by lia.
  - rewrite readLoop_S. destruct (n <? len p) eqn:En; [|done].
    destruct (locate (buf w) off) as [[s i]| |] eqn:HL; [|done|].
    2:{ exfalso. unfold locate, div, rem in HL.
        destruct (chunkCap (buf w) =? 0); [done|].
        destruct (index_cases (chunks (buf w)) (off ÷ chunkCap (buf w)))
          as [[s HI]|HI]; by rewrite HI in HL. }
    destruct (i =? len s) eqn:Ei; [done|].
    destruct (slice_from p n) as [d| |] eqn:Hd; [|done|].
    2:{ exfalso. unfold slice_from, reslice in Hd. by destruct (_ && _). }
    apply slice_from_inv in Hd as (Hd1 & Hd2 & ->).
    destruct (slice_from s i) as [s'| |] eqn:Hs; [|done|].
    2:{ exfalso. unfold slice_from, reslice in Hs. by destruct (_ && _). }
    apply slice_from_inv in Hs as (Hs1 & Hs2 & ->).
    rewrite !len_advance. simpl. apply IH; unfold len in *; lia.
Qed.

(** [readFromOffset] returns or panics. *)
Lemma readFromOffset_fuel p off w : readFromOffset p off w ≠ OutOfFuel.
Proof.
  unfold readFromOffset. destruct (_ =? 0); [done|].
  apply readLoop_fuel; unfold len; lia.
Qed.

Lemma Read_fuel p w : Read p w ≠ OutOfFuel.
Proof.
  rewrite Read_unfold. pose proof (readFromOffset_fuel p (offset (buf w)) w).
  by destruct (readFromOffset p (offset (buf w)) w) as [[r w']| |].
Qed.

Lemma Get_fuel w : Get w ≠ OutOfFuel.
Proof.
  unfold Get, make, bind, lift, put_world, ret.
  destruct (0 <? _).
  - by destruct (index_cases (slices (pool w)) (Z.of_nat (length (slices (pool w))) - 1))
      as [[s ->]| ->].
  - by destruct (_ || _).
Qed.

Lemma findWritableChunk_fuel w : findWritableChunk w ≠ OutOfFuel.
Proof.
  unfold findWritableChunk, bind, lift, get_world, put_world, ret.
  destruct (index_cases (chunks (buf w)) (Z.of_nat (length (chunks (buf w))) - 1))
    as [[s ->]| ->]; [|done].
  destruct (_ =? 0); [|done].
  pose proof (Get_fuel w). by destruct (Get w) as [[? ?]| |].
Qed.

(** When [moveBytes] returns with a source that was not empty, the source
    is shorter than it was. *)
Lemma moveBytes_progress dst src w r dst' src' w' :
  moveBytes dst src w = Ok ((r, dst', src'), w') → 0 < len src →
  (slen src' < slen src)%nat.
Proof.
  unfold moveBytes. intros H Hs.
  assert ((len src =? 0) = false) as E by lia. rewrite E in H.
  destruct (cap dst - len dst =? 0) eqn:E0; [done|].
  unfold bind, lift, copy, ret in H.
  destruct (slice_to dst _) as [d1| |] eqn:H1; [|done..].
  destruct (slice_from d1 _) as [d2| |] eqn:H2; [|done..].
  destruct (slice_to src _) as [s1| |] eqn:H3; [|done..].
  destruct (slice_from src _) as [s2| |] eqn:H4; [|done..].
  injection H as <- <- <- <-.
  apply reslice_Ok in H1 as (_ & H1 & _ & ->).
  apply slice_from_inv in H2 as (H2 & _ & _).
  apply slice_from_inv in H4 as (H4 & _ & ->).
  unfold len in H2. simpl in H2. unfold min, len, cap in *. simpl.
  destruct (_ <? _); lia.
Qed.

Lemma moveBytes_fuel dst src w : moveBytes dst src w ≠ OutOfFuel.
Proof.
  unfold moveBytes. destruct (len src =? 0); [done|].
  destruct (_ - _ =? 0); [done|].
  unfold bind, lift, copy, ret, slice_to, slice_from, reslice.
  repeat (destruct (_ && _); [|done]). done.
Qed.

Lemma writeLoop_fuel fuel : ∀ p n w,
  (slen p <= fuel)%nat → writeLoop fuel p n w ≠ OutOfFuel.
Proof.
  induction fuel as [|fuel IH]; intros p n w Hf; simpl.
  - by assert ((0 <? len p) = false) as -> by (unfold len; lia).
  - destruct (0 <? len p) eqn:Ep; [|done].
    unfold bind at 1. pose proof (findWritableChunk_fuel w) as HF.
    destruct (findWritableChunk w) as [[wi w1]| |]; [|done..].
    unfold bind at 1. unfold get_world at 1.
    unfold bind at 1. unfold lift at 1.
    destruct (index_cases (chunks (buf w1)) wi) as [[dst ->]| ->]; [|done].
    unfold bind at 1. pose proof (moveBytes_fuel dst p w1) as HM.
    destruct (moveBytes dst p w1) as [[[[r dst'] p'] w2]| |] eqn:HMB; [|done..].
    unfold bind at 1. unfold set_chunk at 1. simpl.
    apply IH. apply moveBytes_progress in HMB; lia.
Qed.

(** [Write] returns or panics. *)
Lemma Write_fuel p w : Write p w ≠ OutOfFuel.
Proof.
  unfold Write. destruct (_ =? 0); [done|]. by apply writeLoop_fuel.
Qed.

(** ** The addressing of [findReadLocation] *)

Lemma length_bytes_of m s :
  in_mem m (range s) → (slen s <= scap s)%nat → length (bytes_of m s) = slen s.
Proof. unfold in_mem, bytes_of. simpl. intros. apply length_load. lia. Qed.

Lemma length_concat_full m (cc : nat) cs :
  Forall (λ c, in_mem m (range c) ∧ (slen c <= scap c)%nat) cs →
  Forall (λ c, slen c = cc) cs →
  length (concat (map (bytes_of m) cs)) = (length cs * cc)%nat.
Proof.
  induction cs as [|c cs IH]; intros H1 H2; simpl; [done|].
  apply list.Forall_cons in H1 as [[Hm Hl] H1].
  apply list.Forall_cons in H2 as [Hc H2].
  rewrite length_app, IH, length_bytes_of by done. lia.
Qed.

(** The bytes of the chunk number [q] from [i] on are the bytes of the
    buffer from [q * cc + i] on, when the [q] chunks before it hold [cc]
    bytes each. *)
Lemma load_chunk m cs (cc q : nat) c (i x : nat) :
  Forall (λ c, in_mem m (range c) ∧ (slen c <= scap c)%nat) cs →
  Forall (λ c, slen c = cc) (take q cs) →
  cs !! q = Some c → (i + x <= slen c)%nat →
  load m (addr c + i) x =
  take x (drop (q * cc + i) (concat (map (bytes_of m) cs))).
Proof.
  intros HV HF Hq Hx.
  pose proof (lookup_lt_Some _ _ _ Hq) as Hlt.
  assert (in_mem m (range c) ∧ (slen c <= scap c)%nat) as [Hm Hl].
  { rewrite list.Forall_forall in HV. apply HV. by eapply list_elem_of_lookup_2. }
  rewrite <- (take_drop_middle cs q c Hq) at 1.
  rewrite map_app, concat_app. simpl.
  assert (length (concat (map (bytes_of m) (take q cs))) = (q * cc)%nat) as Hlen.
  { rewrite (length_concat_full m cc); [|by apply Forall_take|done].
    rewrite length_take. f_equal. lia. }
  rewrite drop_app_ge by lia. rewrite Hlen.
  replace (q * cc + i - q * cc)%nat with i by lia.
  rewrite drop_app_le by (rewrite length_bytes_of by done; lia).
  rewrite take_app_le.
  2:{ rewrite length_drop, length_bytes_of by done. lia. }
  unfold bytes_of. rewrite drop_load by lia. rewrite take_load by lia. done.
Qed.

Lemma written_full b init lst (cc : nat) :
  chunks b = init ++ [lst] → Forall (λ c, slen c = cc) init →
  written b = Z.of_nat (length init * cc) + len lst.
Proof.
  intros E HF. rewrite (written_snoc _ _ _ E). f_equal. clear E.
  induction HF as [|c l Hc _ IH]; simpl; [done|]. lia.
Qed.

(** Where [findReadLocation] lands, for an offset within the data or at its
    end. *)
Lemma locate_spec b init lst (cc : nat) (off : Z) :
  chunks b = init ++ [lst] → chunkCap b = Z.of_nat cc → (0 < cc)%nat →
  Forall (λ c, slen c = cc) init → (slen lst <= cc)%nat →
  0 <= off <= written b →
  (off < written b →
     ∃ (q i : nat) c,
       locate b off = Ok (c, Z.of_nat i) ∧ chunks b !! q = Some c ∧
       (q <= length init)%nat ∧ (i < slen c)%nat ∧
       Z.to_nat off = (q * cc + i)%nat) ∧
  (off = written b → (slen lst < cc)%nat → locate b off = Ok (lst, len lst)) ∧
  (off = written b → slen lst = cc → locate b off = Panic IndexOutOfRange).
Proof.
  intros E Hcc Hpos HF Hl Hoff.
  rewrite (written_full b init lst cc E HF) in *. unfold len in *.
  rewrite locate_nonzero by lia. rewrite Hcc.
  rewrite Z.quot_div_nonneg, Z.rem_mod_nonneg by lia.
  pose proof (Z.div_mod off (Z.of_nat cc) ltac:(lia)) as Hdm.
  pose proof (Z.mod_pos_bound off (Z.of_nat cc) ltac:(lia)) as Hmb.
  set (q := off / Z.of_nat cc) in *. set (i := off mod Z.of_nat cc) in *.
  assert (0 <= q) as Hq0 by (apply Z.div_pos; lia).
  split; [|split].
  - intros Hlt.
    assert (q <= Z.of_nat (length init)) as Hq by nia.
    assert (∃ c, chunks b !! Z.to_nat q = Some c ∧ (Z.to_nat i < slen c)%nat)
      as (c & Hc & Hi).
    { destruct (decide (q = Z.of_nat (length init))) as [Heq|Hne].
      - exists lst. split.
        + rewrite E, Heq, Nat2Z.id. by apply list_lookup_middle.
        + nia.
      - destruct (lookup_lt_is_Some_2 init (Z.to_nat q)) as [c Hc]; [lia|].
        exists c. split.
        + rewrite E. by apply lookup_app_l_Some.
        + rewrite list.Forall_forall in HF.
          rewrite (HF c) by (by eapply list_elem_of_lookup_2). lia. }
    exists (Z.to_nat q), (Z.to_nat i), c.
    assert (index (chunks b) q = Ok c) as -> by (apply index_Ok; done).
    rewrite Z2Nat.id by lia. repeat split; try done; lia.
  - intros -> Hlst.
    assert (q = Z.of_nat (length init)) as Hq by nia.
    assert (index (chunks b) q = Ok lst) as ->.
    { apply index_Ok. split; [done|].
      rewrite E, Hq, Nat2Z.id. by apply list_lookup_middle. }
    do 2 f_equal. nia.
  - intros -> Hlst.
    assert (q = Z.of_nat (length init) + 1) as Hq by nia.
    unfold index. rewrite E, length_app. simpl.
    destruct (_ || _) eqn:Eb; [done|]. exfalso. lia.
Qed.

(** ** [readFromOffset] within the data *)

Lemma ReadInv_facts w p :
  ReadInv w p →
  ∃ init lst (cc : nat),
    chunks (buf w) = init ++ [lst] ∧ chunkCap (buf w) = Z.of_nat cc ∧
    (0 < cc)%nat ∧ Forall (λ c, slen c = cc) init ∧
    (slen lst <= cc)%nat ∧ scap lst = cc ∧
    Forall (λ c, in_mem (mem w) (range c) ∧ (slen c <= scap c)%nat)
      (chunks (buf w)) ∧
    Forall (apart (range p)) (map range (chunks (buf w))) ∧
    in_mem (mem w) (range p).
Proof.
  intros ((HP & Hne & HC & Hcc) & HFi & Hpos & [HV HS] & [Hp1 Hp2] & Hwp).
  destruct (snoc_cases (chunks (buf w))) as [E|(init & lst & E)]; [done|].
  exists init, lst, (Z.to_nat (chunkCap (buf w))).
  apply (FullInv_snoc _ _ _ E) in HFi.
  unfold owned in HV, Hp2. rewrite map_app, Forall_app in HV, Hp2.
  destruct HV as [HV _], Hp2 as [Hp2 _]. rewrite Forall_map in HV.
  assert (Forall (λ c, scap c = Z.to_nat (chunkCap (buf w)) ∧ (slen c <= scap c)%nat)
            (chunks (buf w))) as HC'.
  { eapply List.Forall_impl; [|exact HC]. intros c (H1 & _ & H3).
    unfold cap in H1. split; [lia|done]. }
  split; [done|]. split; [lia|]. split; [lia|].
  rewrite E, Forall_app, Forall_singleton in HC'. destruct HC' as [HCi [HCl1 HCl2]].
  split.
  { eapply List.Forall_impl; [|exact (List.Forall_and HFi HCi)].
    intros c [H1 [H2 _]]. unfold full in H1. lia. }
  split; [lia|]. split; [done|]. split; [|done].
  eapply List.Forall_impl; [|exact (List.Forall_and HV HC)].
  by intros c [H1 (_ & _ & H3)].
Qed.

(** A store into the cells of [p] keeps what the read relies on and the
    contents of the chunks. *)
Lemma ReadInv_store w p a bs :
  ReadInv w p → (addr p <= a)%nat → (a + length bs <= addr p + scap p)%nat →
  ReadInv (set_mem w (store (mem w) a bs)) p ∧
  String (set_mem w (store (mem w) a bs)) = String w.
Proof.
  intros HI Ha1 Ha2. pose proof HI as (HB & HFi & Hpos & [HV HS] & [Hp1 Hp2] & Hwp).
  split.
  - unfold ReadInv, MemInv, foreign, in_mem, owned in *. simpl.
    setoid_rewrite length_store. done.
  - destruct (ReadInv_facts w p HI) as (init & lst & cc & _ & _ & _ & _ & _ & _ & HVc & Hap & _).
    unfold String. simpl. f_equal. apply map_ext_Forall.
    rewrite Forall_map in Hap.
    eapply List.Forall_impl; [|exact (List.Forall_and HVc Hap)].
    intros c [[_ Hl] Hc]. apply bytes_of_store_apart; [done|].
    unfold apart in Hc. simpl in Hc. lia.
Qed.

Lemma readLoop_spec fuel : ∀ w p off n,
  ReadInv w p → 0 <= n <= len p → 0 <= off <= written (buf w) →
  len p - n <= Z.of_nat fuel →
  let avail := written (buf w) - off in
  let m := Z.min avail (len p - n) in
  (avail < len p - n → Forall full (chunks (buf w)) →
     readLoop fuel p off n w = Panic IndexOutOfRange) ∧
  (len p - n <= avail ∨ ¬ Forall full (chunks (buf w)) →
     ∃ w', readLoop fuel p off n w
           = Ok ((n + m, if avail <? len p - n then Some EOF else None), w') ∧
       buf w' = buf w ∧ pool w' = pool w ∧
       length (mem w') = length (mem w) ∧
       load (mem w') (addr p + Z.to_nat n) (Z.to_nat m)
         = take (Z.to_nat m) (drop (Z.to_nat off) (String w)) ∧
       ∀ j, (j < addr p + Z.to_nat n ∨ addr p + Z.to_nat (n + m) <= j)%nat →
            mem w' !! j = mem w !! j).
Proof.
  induction fuel as [|fuel IH]; intros w p off n HI Hn Hoff Hfuel avail m.
  - assert (n = len p) as En by lia.
    assert ((n <? len p) = false) as Eb by lia.
    assert (m = 0) as -> by (unfold m, avail; lia).
    split; [intros; lia|]. intros _. exists w. simpl. rewrite Eb.
    assert ((avail <? len p - n) = false) as -> by (unfold avail; lia).
    rewrite Z.add_0_r. repeat split; done.
  - destruct (decide (n = len p)) as [En|Hne].
    { assert ((n <? len p) = false) as Eb by lia.
      assert (m = 0) as -> by (unfold m, avail; lia).
      split; [intros; lia|]. intros _. exists w. rewrite readLoop_S, Eb.
      assert ((avail <? len p - n) = false) as -> by (unfold avail; lia).
      rewrite Z.add_0_r. repeat split; done. }
    assert ((n <? len p) = true) as Eb by lia.
    destruct (ReadInv_facts w p HI)
      as (init & lst & cc & E & Hcc & Hpos & HF & Hl & Hscap & HVc & Hap & Hpm).
    pose proof HI as (HB & HFi & _ & _ & _ & Hwp).
    pose proof (locate_spec (buf w) init lst cc off E Hcc Hpos HF Hl Hoff)
      as (Hin & Heof & Hpanic).
    pose proof (written_full (buf w) init lst cc E HF) as HT.
    assert (Forall full (chunks (buf w)) ↔ slen lst = cc) as Hfull.
    { rewrite E, Forall_app, Forall_singleton. unfold full. split; [intros [_ ?]; lia|].
      intros Hs. split; [|lia]. by apply (FullInv_snoc _ _ _ E). }
    rewrite readLoop_S, Eb.
    destruct (decide (off = written (buf w))) as [Hend|Hnend].
    { (* at the end of the data *)
      assert (m = 0) as -> by (unfold m, avail; lia).
      assert ((avail <? len p - n) = true) as -> by (unfold avail; lia).
      split.
      - intros _ Hf. apply Hfull in Hf. by rewrite (Hpanic Hend Hf).
      - intros [Hge|Hnf]; [unfold avail in Hge; lia|].
        assert (slen lst < cc)%nat as Hlt by (rewrite Hfull in Hnf; lia).
        rewrite (Heof Hend Hlt), Z.eqb_refl, Z.add_0_r.
        exists w. repeat split; done. }
    (* within the data *)
    destruct (Hin ltac:(lia)) as (q & i & c & HL & Hq & Hqi & Hi & Hqoff).
    rewrite HL.
    assert ((Z.of_nat i =? len c) = false) as -> by (unfold len; lia).
    assert (chunk_ok (bytesCap (pool w)) c) as Hcok.
    { destruct HB as (_ & _ & HC & _). rewrite list.Forall_forall in HC.
      apply HC. by eapply list_elem_of_lookup_2. }
    pose proof (chunk_ok_wf _ _ Hcok) as Hwc.
    assert (in_mem (mem w) (range c) ∧ (slen c <= scap c)%nat) as [Hcm Hcl].
    { rewrite list.Forall_forall in HVc. apply HVc. by eapply list_elem_of_lookup_2. }
    assert (q * cc + slen c <= length init * cc + slen lst)%nat as Hqc.
    { destruct (decide (q = length init)) as [->|Hqn].
      - rewrite E, list_lookup_middle in Hq by done. injection Hq as ->. lia.
      - rewrite E, lookup_app_l in Hq by lia.
        rewrite list.Forall_forall in HF.
        rewrite (HF c) by (by eapply list_elem_of_lookup_2). nia. }
    set (kn := Z.to_nat n).
    assert (slice_from p n = Ok (advance p kn)) as ->.
    { rewrite <- (Z2Nat.id n) at 1 by lia. destruct Hwp.
      apply slice_from_Ok; unfold len in *; lia. }
    rewrite slice_from_Ok by lia.
    rewrite !len_advance. cbv zeta.
    set (xn := Nat.min (slen p - kn) (slen c - i)).
    replace (Z.min (Z.of_nat (slen p - kn)) (Z.of_nat (slen c - i)))
      with (Z.of_nat xn) by lia.
    rewrite Nat2Z.id.
    assert (0 < xn)%nat as Hx0 by (unfold xn, kn, len in *; lia).
    assert (xn <= slen p - kn)%nat as Hx1 by lia.
    assert (xn <= slen c - i)%nat as Hx2 by lia.
    destruct Hwp as [Hpl Hpn].
    rewrite (addr_advance p kn) by (done || (unfold kn, len in *; lia)).
    rewrite (addr_advance c i) by (done || lia).
    unfold in_mem in Hcm, Hpm. simpl in Hcm, Hpm.
    set (bs := load (mem w) (addr c + i) xn).
    assert (length bs = xn) as Hbs by (apply length_load; lia).
    assert (bs = take xn (drop (Z.to_nat off) (String w))) as Ebs.
    { rewrite Hqoff. unfold String. apply (load_chunk _ _ cc q c); try done; [|lia].
      rewrite E, take_app_le by lia. by apply Forall_take. }
    set (w2 := set_mem w (store (mem w) (addr p + kn) bs)).
    destruct (ReadInv_store w p (addr p + kn)%nat bs HI) as [HI2 HS2];
      [lia|unfold kn, len in *; lia|]. fold w2 in HI2, HS2.
    destruct (IH w2 p (off + Z.of_nat xn) (n + Z.of_nat xn) HI2) as [IH1 IH2].
    { unfold kn, len in *. lia. }
    { simpl. rewrite HT. unfold len. lia. }
    { unfold kn, len in *. lia. }
    simpl in IH1, IH2.
    assert (Z.min (written (buf w) - (off + Z.of_nat xn))
              (len p - (n + Z.of_nat xn)) = m - Z.of_nat xn) as Em.
    { unfold m, avail. lia. }
    assert (0 <= m - Z.of_nat xn) as Hm0.
    { rewrite <- Em. rewrite HT. unfold kn, len in *. lia. }
    rewrite Em in IH2.
    assert ((written (buf w) - (off + Z.of_nat xn) <? len p - (n + Z.of_nat xn))
            = (avail <? len p - n)) as Elt by (unfold avail; lia).
    rewrite Elt in IH2.
    split.
    + intros Hlt Hf. apply IH1; [unfold avail in Hlt; lia|done].
    + intros Hc. destruct IH2 as (w' & HR & Hb' & Hp' & Hl' & Hd' & Hfr').
      { destruct Hc as [Hc|Hc]; [left; unfold avail in Hc; lia|by right]. }
      exists w'. split.
      { rewrite HR. do 3 f_equal. lia. }
      split; [done|]. split; [done|].
      split; [by rewrite Hl', length_store|].
      split.
      * replace (Z.to_nat m) with (xn + Z.to_nat (m - Z.of_nat xn))%nat by lia.
        rewrite load_add. rewrite <- take_take_drop, drop_drop. f_equal.
        -- rewrite <- Ebs. transitivity (load (mem w2) (addr p + kn) xn).
           ++ apply load_ext. intros j Hj. apply Hfr'. left. unfold kn. lia.
           ++ unfold w2. simpl. rewrite <- Hbs. apply load_store_same.
              rewrite Hbs. unfold kn, len in *. lia.
        -- replace (addr p + kn + xn)%nat
             with (addr p + Z.to_nat (n + Z.of_nat xn))%nat by (unfold kn; lia).
           rewrite Hd', HS2. do 2 f_equal. lia.
      * intros j Hj. rewrite Hfr' by (unfold kn in *; lia).
        apply store_lookup_outside. unfold kn in *. lia.
Qed.

(** [readFromOffset] at an offset within the data or at its end: it
    delivers the bytes from the offset on, as many as there are and as fit,
    with [io.EOF] when they do not fill [p]; unless the data ends with a
    full chunk and does not fill [p], where it panics. *)
Lemma readFromOffset_spec w p off :
  ReadInv w p → 0 <= off <= written (buf w) →
  let avail := written (buf w) - off in
  let m := Z.min avail (len p) in
  (avail < len p → Forall full (chunks (buf w)) →
     readFromOffset p off w = Panic IndexOutOfRange) ∧
  (len p <= avail ∨ ¬ Forall full (chunks (buf w)) →
     ∃ w', readFromOffset p off w
           = Ok ((m, if avail <? len p then Some EOF else None), w') ∧
       buf w' = buf w ∧ pool w' = pool w ∧
       load (mem w') (addr p) (Z.to_nat m)
         = take (Z.to_nat m) (drop (Z.to_nat off) (String w)) ∧
       String w' = String w ∧
       ∀ j, (j < addr p ∨ addr p + Z.to_nat m <= j)%nat →
            mem w' !! j = mem w !! j).
Proof.
  intros HI Hoff avail m.
  pose proof HI as ((_ & Hne & _) & _).
  destruct (readLoop_spec (slen p) w p off 0 HI) as [H1 H2];
    [unfold len; lia|done|unfold len; lia|].
  cbv zeta in H1, H2. rewrite !Z.sub_0_r in H1, H2. fold avail in H1, H2.
  fold m in H2.
  assert (readFromOffset p off w = readLoop (slen p) p off 0 w) as ->.
  { unfold readFromOffset. destruct (chunks (buf w)); [done|]. done. }
  split; [done|]. intros Hc.
  destruct (H2 Hc) as (w' & HR & Hb & Hp & Hl & Hd & Hfr).
  exists w'. rewrite Z.add_0_l in HR, Hfr. simpl in Hd. rewrite Nat.add_0_r in Hd, Hfr.
  do 4 (split; [done|]). split; [|done].
  destruct (ReadInv_facts w p HI)
    as (init & lst & cc & _ & _ & _ & _ & _ & _ & HVc & Hap & _).
  unfold String. rewrite Hb. f_equal. apply map_ext_Forall.
  rewrite Forall_map in Hap.
  eapply List.Forall_impl; [|exact (List.Forall_and HVc Hap)].
  intros c [[_ Hlc] Hc']. unfold bytes_of. apply load_ext. intros j Hj.
  apply Hfr. unfold apart in Hc'. simpl in Hc'.
  destruct HI as (_ & _ & _ & _ & _ & [Hpl _]).
  assert (Z.to_nat m <= slen p)%nat by (unfold m, len; lia). lia.
Qed.

(** [Read] with the read offset within the data: the same, from the read
    offset, which advances by the count returned. *)
Lemma Read_spec w p :
  ReadInv w p → 0 <= offset (buf w) <= written (buf w) →
  let avail := written (buf w) - offset (buf w) in
  let m := Z.min avail (len p) in
  (avail < len p → Forall full (chunks (buf w)) →
     Read p w = Panic IndexOutOfRange) ∧
  (len p <= avail ∨ ¬ Forall full (chunks (buf w)) →
     ∃ w', Read p w = Ok ((m, if avail <? len p then Some EOF else None), w') ∧
       chunks (buf w') = chunks (buf w) ∧
       chunkCap (buf w') = chunkCap (buf w) ∧
       offset (buf w') = offset (buf w) + m ∧
       0 <= offset (buf w') <= written (buf w') ∧
       pool w' = pool w ∧
       load (mem w') (addr p) (Z.to_nat m)
         = take (Z.to_nat m) (drop (Z.to_nat (offset (buf w))) (String w)) ∧
       String w' = String w ∧
       ∀ j, (j < addr p ∨ addr p + Z.to_nat m <= j)%nat →
            mem w' !! j = mem w !! j).
Proof.
  intros HI Hoff avail m.
  destruct (readFromOffset_spec w p (offset (buf w)) HI Hoff) as [H1 H2].
  cbv zeta in H1, H2. fold avail in H1, H2. fold m in H2.
  rewrite Read_unfold. split.
  - intros Hlt Hf. by rewrite (H1 Hlt Hf).
  - intros Hc. destruct (H2 Hc) as (w' & -> & Hb & Hp & Hd & HS & Hfr).
    eexists. split; [reflexivity|]. simpl. rewrite Hb.
    do 3 (split; [done|]).
    split; [unfold written; simpl; fold (written (buf w)); unfold m, avail, len; lia|].
    do 2 (split; [done|]). split; [|done].
    unfold String in *. simpl. by rewrite Hb in HS.
Qed.

(** The reads keep the invariants of the state. *)
Lemma Read_keeps_invariants w p r w' :
  Read p w = Ok (r, w') →
  (BufInv w → BufInv w') ∧
  (FullInv (buf w) → FullInv (buf w')) ∧
  written (buf w') = written (buf w) ∧
  (MemInv w → MemInv w') ∧
  (∀ q, foreign w q → foreign w' q).
Proof.
  rewrite Read_unfold.
  destruct (readFromOffset p (offset (buf w)) w) as [[r0 w0]| |] eqn:HR; [|done..].
  intros [= <- <-].
  apply readFromOffset_frame in HR as (H1 & H2 & H3 & _ & _).
  unfold BufInv, FullInv, written, MemInv, foreign, owned, in_mem. simpl.
  rewrite H1, H2, H3. done.
Qed.

Lemma ReadAt_keeps_invariants w p off r w' :
  ReadAt p off w = Ok (r, w') →
  (BufInv w → BufInv w') ∧
  (FullInv (buf w) → FullInv (buf w')) ∧
  written (buf w') = written (buf w) ∧
  offset (buf w') = offset (buf w) ∧
  (MemInv w → MemInv w') ∧
  (∀ q, foreign w q → foreign w' q).
Proof.
  intros HR.
  apply readFromOffset_frame in HR as (H1 & H2 & H3 & _ & _).
  unfold BufInv, FullInv, written, MemInv, foreign, owned, in_mem.
  rewrite H1, H2, H3. done.
Qed.

(** ** The states that the package reaches *)

(** A buffer just made over a new pool of positive capacity satisfies all
    the invariants, holds no data and reads from offset 0. *)
Lemma new_buffer_invariants bc pc pl m b :
  NewPool bc pc = Ok pl → 0 < bc →
  ∃ w1, NewBuffer (Some ThePool) (mkWorld m pl b) = Ok ((Some TheBuffer, None), w1) ∧
    BufInv w1 ∧ FullInv (buf w1) ∧ MemInv w1 ∧
    chunkCap (buf w1) = bc ∧ written (buf w1) = 0 ∧ offset (buf w1) = 0 ∧
    ∀ q, in_mem m (range q) → (slen q <= scap q)%nat →
         foreign w1 q ∧ bytes_of (mem w1) q = bytes_of m q.
Proof.
  intros HN Hbc. pose proof (NewPool_inv _ _ _ HN) as HP.
  destruct (NewPool_fields _ _ _ HN) as (Hs & Hb & _).
  destruct (NewBuffer_spec (mkWorld m pl b)) as
    (w1 & HNB & HB1 & Hbc1 & _ & Hoff & _ & _ & Hw & HF & Hmem); [done|simpl; lia|].
  simpl in Hmem, Hbc1. rewrite Hs in Hmem.
  destruct Hmem as [HM Hfr]; [constructor|exact I|].
  exists w1. do 4 (split; [done|]).
  pose proof HB1 as (_ & _ & _ & Hcc).
  split; [congruence|]. do 2 (split; [done|]).
  intros q Hq Hl. apply Hfr; [done|constructor|done].
Qed.

(** ** The tests of the package, run on the model *)

Example TestPoolPut_passes :
  run 256 10 TestPoolPut =
  Ok (Slice (Some 0%nat) 0 256, 1, Slice (Some 0%nat) 0 256, 0).
Proof. vm_compute. reflexivity. Qed.

Example TestBufferWrite_passes :
  run 5 100 TestBufferWrite =
  Ok ((3, None), "hel"%string, 1, (8, None), "hello world"%string, 3).
Proof. vm_compute. reflexivity. Qed.

Example TestBufferRead_passes :
  run 5 100 TestBufferRead =
  Ok ((0, None), (3, None), "hel"%string, (3, None), "lo "%string,
      (5, Some EOF), "world"%string, 3).
Proof. vm_compute. reflexivity. Qed.

Example TestBufferFree_passes :
  run 5 100 TestBufferFree =
  Ok (0, Some ErrReadAfterFree, Some ErrWriteAfterFree).
Proof. vm_compute. reflexivity. Qed.

Example TestBufferReadAt_passes :
  run 5 100 TestBufferReadAt =
  Ok ((3, None), "hel"%string, (5, Some EOF), "world"%string).
Proof. vm_compute. reflexivity. Qed.

Example TestBufferError_passes :
  run 5 100 (NewBuffer None) = Ok (None, Some ErrNilPool).
Proof. reflexivity. Qed.

(** Without the discipline of ownership the contents are not kept: the two
    chunks of the buffer are the same memory, and a read into memory that
    the buffer holds changes what the buffer holds. *)
Example discipline_is_needed :
  run 5 100 put_twice_then_write = Ok (2, "worldworld"%string) ∧
  run 5 100 read_into_chunk = Ok ("hello"%string, "llolo"%string).
Proof. split; vm_compute; reflexivity. Qed.

Example TestBufferRead_recycling_passes :
  run 5 100 TestBufferRead_recycling =
  Ok (3, (0, None), (3, None), "hel"%string, 3, (3, None), "lo "%string, 2,
      (5, Some EOF), "world"%string, 1).
Proof. vm_compute. reflexivity. Qed.

(** ** [Get] and [Put] together *)

Lemma PoolInv_negative p : PoolInv p → bytesCap p < 0 → slices p = [].
Proof.
  intros [HF _] Hn. destruct (slices p) as [|s l]; [done|].
  apply list.Forall_cons in HF as [(_ & Hc & _) _]. unfold cap in Hc. lia.
Qed.

(** X1.  [Get] on a sound pool never fails for a capacity that is not
    negative.  The slice it returns is not nil, has length 0 and the
    capacity of the pool.  When the pool holds slices, it is the one put
    last, and memory is untouched; when the pool is empty, it is new
    memory: zeroed cells after all cells that exist, and the pool stays as
    it was.  The pool stays sound and [Size] goes down by one, but not
    below zero.  With a negative capacity the pool is empty and [Get]
    panics. *)
Theorem Get_returns_empty_slice (w : World) :
  PoolInv (pool w) →
  (0 <= bytesCap (pool w) →
   ∃ b w', Get w = Ok (b, w') ∧
     len b = 0 ∧ cap b = bytesCap (pool w) ∧ is_nil b = false ∧
     PoolInv (pool w') ∧ buf w' = buf w ∧
     bytesCap (pool w') = bytesCap (pool w) ∧
     poolCap (pool w') = poolCap (pool w) ∧
     Size w' = Ok (Z.max 0 (Z.of_nat (length (slices (pool w))) - 1), w') ∧
     (∀ l x, slices (pool w) = l ++ [x] →
        b = x ∧ slices (pool w') = l ∧ mem w' = mem w) ∧
     (slices (pool w) = [] →
        pool w' = pool w ∧ sdata b = Some (length (mem w)) ∧
        mem w' = mem w ++ replicate (Z.to_nat (bytesCap (pool w))) Byte.x00)) ∧
  (bytesCap (pool w) < 0 → Get w = Panic MakesliceOutOfRange).
Proof.
  intros HP. split.
  - intros Hbc. destruct (Get_total w HP Hbc) as (b & w' & HG).
    exists b, w'. split; [done|].
    destruct (Get_inv _ _ _ HP HG) as (HP' & Hb1 & Hb2 & Hbuf & Hl & Hc & Hn).
    split; [unfold len; lia|]. do 6 (split; [done|]).
    destruct (Get_cases _ _ _ HG) as [(l & El & ->)|(El & _ & -> & ->)].
    + split; [|split].
      * unfold Size. simpl. rewrite El, length_app. simpl. do 2 f_equal. lia.
      * intros l' x E. rewrite El in E. apply app_inj_tail in E as [-> ->]. done.
      * intros E. rewrite El in E. by destruct l.
    + split; [|split].
      * unfold Size. simpl. rewrite El. done.
      * intros l' x E. rewrite El in E. by destruct l'.
      * intros _. simpl. done.
  - intros Hn. unfold Get. rewrite (PoolInv_negative _ HP Hn). simpl.
    unfold make. assert ((bytesCap (pool w) <? 0) = true) as -> by lia. done.
Qed.

Lemma Get_returns_empty_slice_witness :
  ∃ b w', Get (mkWorld (replicate 4 Byte.x00)
                 (mkPool [Slice (Some 0%nat) 0 4] 4 2) (mkBuffer 0 [] 0))
          = Ok (b, w') ∧ len b = 0 ∧ cap b = 4.
Proof.
  destruct (Get_returns_empty_slice
              (mkWorld (replicate 4 Byte.x00)
                 (mkPool [Slice (Some 0%nat) 0 4] 4 2) (mkBuffer 0 [] 0)))
    as [H _].
  - split; simpl; [|lia]. repeat constructor.
  - destruct H as (b & w' & H1 & H2 & H3 & _); [simpl; lia|].
    exists b, w'. done.
Defined.

(** X2.  [Get] followed by [Put] of the slice got, on a sound pool: the
    pool takes its own slice back without an error.  When the pool held a
    slice, the state after the two calls is the state before them.  When
    it was empty and may hold a slice, it now holds the new slice alone;
    when it may hold none, it stays empty.  In each case [Size] after
    [Put] is [Size] after [Get] plus one, unless the pool may hold no
    slice. *)
Theorem Get_then_Put (w : World) :
  PoolInv (pool w) → 0 <= bytesCap (pool w) →
  ∃ b w1 w2, Get w = Ok (b, w1) ∧ Put b w1 = Ok (None, w2) ∧
    buf w2 = buf w ∧ PoolInv (pool w2) ∧
    (slices (pool w) ≠ [] → w2 = w) ∧
    (slices (pool w) = [] → 0 < poolCap (pool w) → slices (pool w2) = [b]) ∧
    (slices (pool w) = [] → poolCap (pool w) = 0 → pool w2 = pool w) ∧
    (0 < poolCap (pool w) →
       Z.of_nat (length (slices (pool w2)))
       = Z.of_nat (length (slices (pool w1))) + 1).
Proof.
  intros HP Hbc. destruct (Get_total w HP Hbc) as (b & w1 & HG).
  destruct (Get_inv _ _ _ HP HG) as (HP1 & Hb1 & Hb2 & Hbuf & Hl & Hc & Hn).
  exists b, w1.
  assert (Slice (sdata b) 0 (scap b) = b) as Eb by (destruct b; simpl in *; by subst).
  pose proof HP as [HF Hle].
  destruct (Get_cases _ _ _ HG) as [(l & El & ->)|(El & _ & Eb' & ->)].
  - rewrite El, length_app in Hle. simpl in Hle.
    eexists. split; [done|]. split.
    { rewrite Put_push; [reflexivity|done|done|simpl; lia]. }
    simpl. rewrite Eb, <- El.
    split; [done|]. split; [by rewrite pool_eta|].
    split; [intros _; by rewrite pool_eta, world_eta|].
    split; [intros E; rewrite El in E; by destruct l|].
    split; [intros E; rewrite El in E; by destruct l|].
    intros _. rewrite El, length_app. simpl. lia.
  - destruct (decide (poolCap (pool w) = 0)) as [H0|H0].
    + eexists. split; [done|]. split.
      { rewrite Put_full; [reflexivity|done|done|simpl; rewrite El; simpl; lia]. }
      simpl. split; [done|]. split; [done|].
      split; [by rewrite El|]. split; [lia|]. split; [done|]. lia.
    + eexists. split; [done|]. split.
      { rewrite Put_push; [reflexivity|done|done|simpl; rewrite El; simpl; lia]. }
      simpl. rewrite Eb, El. simpl.
      split; [done|]. split.
      { split; simpl; [|rewrite El in Hle; simpl in *; lia].
        apply Forall_singleton. done. }
      split; [done|]. split; [done|]. split; [lia|]. done.
Qed.

Lemma Get_then_Put_witness :
  ∃ b w1 w2, Get (mkWorld [] (mkPool [] 4 2) (mkBuffer 0 [] 0)) = Ok (b, w1) ∧
    Put b w1 = Ok (None, w2) ∧ slices (pool w2) = [b].
Proof.
  destruct (Get_then_Put (mkWorld [] (mkPool [] 4 2) (mkBuffer 0 [] 0)))
    as (b & w1 & w2 & H1 & H2 & _ & _ & _ & H3 & _).
  - split; simpl; [constructor|lia].
  - simpl. lia.
  - exists b, w1, w2. split; [done|]. split; [done|].
    apply H3; [reflexivity|simpl; lia].
Defined.

(** ** The number of chunks after writes *)

Lemma writeLoop_tight fuel : ∀ w p n r w',
  BufInv w → 0 < bytesCap (pool w) → slice_wf p → (slen p <= fuel)%nat →
  writeLoop fuel p n w = Ok (r, w') →
  TightInv (buf w) → TightInv (buf w').
Proof.
  induction fuel as [|fuel IH]; intros w p n r w' HB Hbc Hwp Hfuel.
  - simpl. unfold len. replace (slen p) with 0%nat by lia. simpl.
    unfold ret. by intros [= <- <-].
  - destruct (decide (slen p = 0)%nat) as [Hp0|Hp0].
    { simpl. unfold len. rewrite Hp0. simpl.
      unfold ret. by intros [= <- <-]. }
    destruct (find_step w HB Hbc)
      as (w1 & init & dst & HF & E & Hroom & HB1 & Hbc1 & _).
    assert (slice_wf dst) as Hwd.
    { destruct HB1 as (_ & _ & HC & _).
      rewrite E, Forall_app, Forall_singleton in HC.
      apply (chunk_ok_wf (bytesCap (pool w1))). tauto. }
    set (k := Nat.min (slen p) (scap dst - slen dst)).
    rewrite (writeLoop_turn w w1 init dst p fuel n HF E Hroom Hwd Hwp) by lia.
    fold k. intros HW _.
    apply IH in HW; [done| | | | |].
    + apply moved_BufInv; [done|lia|done].
    + simpl. lia.
    + by apply advance_wf.
    + simpl. lia.
    + right. eexists init, _. split; [reflexivity|]. simpl. lia.
Qed.

Lemma Write_tight w p r w' :
  BufInv w → 0 < bytesCap (pool w) → slice_wf p →
  Write p w = Ok (r, w') → TightInv (buf w) → TightInv (buf w').
Proof.
  intros HB Hbc Hwp. pose proof HB as (_ & Hne & _). unfold Write.
  destruct (chunks (buf w)) as [|c l] eqn:E; [done|]. simpl.
  intros HW. eapply writeLoop_tight; [done..| |exact HW]. lia.
Qed.

(** The chunks of a buffer whose last chunk holds data are as many as its
    bytes need. *)
Lemma length_chunks w :
  BufInv w → 0 < chunkCap (buf w) → FullInv (buf w) → TightInv (buf w) →
  Z.of_nat (length (chunks (buf w)))
  = Z.max 1 (chunks_for (written (buf w)) (chunkCap (buf w))).
Proof.
  intros (HP & Hne & HC & Hcc) Hpos HFi HT.
  destruct (snoc_cases (chunks (buf w))) as [E|(init & lst & E)]; [done|].
  apply (FullInv_snoc _ _ _ E) in HFi.
  set (cc := Z.to_nat (chunkCap (buf w))).
  assert (Forall (λ c, scap c = cc ∧ (slen c <= scap c)%nat) (chunks (buf w))) as HC'.
  { eapply List.Forall_impl; [|exact HC]. intros c (H1 & _ & H3).
    unfold cap in H1. unfold cc. split; [lia|done]. }
  rewrite E, Forall_app, Forall_singleton in HC'. destruct HC' as [HCi [HCl1 HCl2]].
  assert (Forall (λ c, slen c = cc) init) as HF.
  { eapply List.Forall_impl; [|exact (List.Forall_and HFi HCi)].
    intros c [H1 [H2 _]]. unfold full in H1. lia. }
  rewrite (written_full _ _ _ cc E HF). rewrite E, length_app. simpl.
  unfold chunks_for, len.
  replace (chunkCap (buf w)) with (Z.of_nat cc) by (unfold cc; lia).
  assert (0 < cc)%nat as Hcc0 by (unfold cc; lia).
  destruct (decide (slen lst = 0)%nat) as [H0|H0].
  - assert (init = []) as ->.
    { destruct HT as [H1|(i' & l' & E' & Hl')].
      - rewrite E, length_app in H1. simpl in H1. destruct init; [done|simpl in H1; lia].
      - rewrite E in E'. apply app_inj_tail in E' as [_ <-]. lia. }
    simpl. rewrite H0. simpl.
    rewrite Z.div_small by lia. lia.
  - assert ((Z.of_nat (length init * cc) + Z.of_nat (slen lst) + Z.of_nat cc - 1)
              / Z.of_nat cc = Z.of_nat (length init) + 1) as ->; [|lia].
    symmetry. apply (Z.div_unique_pos _ _ _ (Z.of_nat (slen lst) - 1)); lia.
Qed.

(** X3.  The number of chunks is the number of bytes written over the
    chunk capacity, rounded up, and at least one.  The buffer satisfies
    its invariants, every chunk but the last is full and the last chunk
    holds data unless it is the only one: a new buffer is so, and [Write]
    keeps it so.  Then [Chunks] returns [max(1, ceil(written / chunkCap))],
    before the write and, with [len(p)] more bytes, after it. *)
Theorem Chunks_counts_bytes (w : World) (p : slice) :
  BufInv w → 0 < chunkCap (buf w) → FullInv (buf w) → TightInv (buf w) →
  slice_wf p →
  Chunks w = Ok (Z.max 1 (chunks_for (written (buf w)) (chunkCap (buf w))), w) ∧
  ∃ w', Write p w = Ok ((len p, None), w') ∧
    BufInv w' ∧ FullInv (buf w') ∧ TightInv (buf w') ∧
    chunkCap (buf w') = chunkCap (buf w) ∧
    written (buf w') = written (buf w) + len p ∧
    Chunks w' = Ok (Z.max 1 (chunks_for (written (buf w) + len p)
                               (chunkCap (buf w))), w').
Proof.
  intros HB Hpos HFi HT Hwp. split.
  { unfold Chunks. by rewrite (length_chunks w). }
  pose proof HB as (_ & _ & _ & Hcc).
  assert (0 < bytesCap (pool w)) as Hbc by lia.
  destruct (Write_positive_capacity w p HB Hbc Hwp)
    as (w' & HW & HB' & Hbc' & _ & _ & _ & _).
  destruct (Write_full _ _ _ _ HB Hbc Hwp HW) as [Hwr HFi'].
  pose proof (Write_tight _ _ _ _ HB Hbc Hwp HW HT) as HT'.
  pose proof HB' as (_ & _ & _ & Hcc').
  exists w'. split; [done|]. split; [done|]. split; [tauto|]. split; [done|].
  split; [congruence|]. split; [done|].
  unfold Chunks. rewrite (length_chunks w'); [|done|lia|tauto|done].
  rewrite Hwr. do 3 f_equal. congruence.
Qed.

Lemma Chunks_counts_bytes_witness :
  ∃ w', Write (Slice (Some 5%nat) 7 7)
          (mkWorld (replicate 5 Byte.x00 ++ list_byte_of_string "abcdefg")
             (mkPool [] 5 100) (mkBuffer 0 [Slice (Some 0%nat) 0 5] 5))
        = Ok ((7, None), w') ∧
        Chunks w' = Ok (2, w').
Proof.
  destruct (Chunks_counts_bytes
              (mkWorld (replicate 5 Byte.x00 ++ list_byte_of_string "abcdefg")
                 (mkPool [] 5 100) (mkBuffer 0 [Slice (Some 0%nat) 0 5] 5))
              (Slice (Some 5%nat) 7 7))
    as (_ & w' & H1 & _ & _ & _ & _ & _ & H2).
  - split; [split; simpl; [constructor|lia]|].
    split; [done|]. split; [|done].
    apply Forall_singleton. split; [done|]. split; [done|]. simpl. lia.
  - simpl. lia.
  - constructor.
  - by left.
  - split; simpl; [lia|done].
  - exists w'. split; [exact H1|exact H2].
Defined.

(** ** A new buffer *)

Lemma NewBuffer_unfold w :
  NewBuffer (Some ThePool) w =
  match Get w with
  | Ok (c, w0) => Ok ((Some TheBuffer, None), set_buf w0 (mkBuffer 0 [c] (cap c)))
  | Panic e => Panic e
  | OutOfFuel => OutOfFuel
  end.
Proof. unfold NewBuffer, bind. by destruct (Get w) as [[c w0]| |]. Qed.

(** X4.  [NewBuffer] over a sound pool with a capacity that is not
    negative returns a buffer and no error.  The buffer holds one chunk,
    the slice that [Get] returned, and no data; it reads from offset 0, its
    chunk capacity is the capacity of the pool, and the invariants of the
    buffer hold.  When the slices of the pool lie in memory and do not
    overlap, the discipline of ownership holds after the call, and memory
    that was apart from the pool is apart from the buffer and keeps its
    contents.  With a negative capacity [NewBuffer] panics. *)
Theorem NewBuffer_makes_empty_buffer (w : World) :
  PoolInv (pool w) →
  (0 <= bytesCap (pool w) →
   ∃ c w0 w1, Get w = Ok (c, w0) ∧
     NewBuffer (Some ThePool) w = Ok ((Some TheBuffer, None), w1) ∧
     chunks (buf w1) = [c] ∧ pool w1 = pool w0 ∧
     Chunks w1 = Ok (1, w1) ∧ String w1 = [] ∧ written (buf w1) = 0 ∧
     offset (buf w1) = 0 ∧ chunkCap (buf w1) = bytesCap (pool w) ∧
     BufInv w1 ∧ FullInv (buf w1) ∧ TightInv (buf w1) ∧
     (Forall (in_mem (mem w)) (map range (slices (pool w))) →
      pairwise_apart (map range (slices (pool w))) →
      MemInv w1 ∧
      ∀ q, in_mem (mem w) (range q) →
           Forall (apart (range q)) (map range (slices (pool w))) →
           (slen q <= scap q)%nat →
           foreign w1 q ∧ bytes_of (mem w1) q = bytes_of (mem w) q)) ∧
  (bytesCap (pool w) < 0 → NewBuffer (Some ThePool) w = Panic MakesliceOutOfRange).
Proof.
  intros HP. split.
  - intros Hbc.
    destruct (NewBuffer_spec w HP Hbc)
      as (w1 & HN & HB & Hbc1 & _ & Hoff & Hlen & HS & Hwr & HFi & Hmem).
    pose proof HN as HN'. rewrite NewBuffer_unfold in HN'.
    destruct (Get w) as [[c w0]| |] eqn:HG; [|done..].
    injection HN' as <-.
    exists c, w0, (set_buf w0 (mkBuffer 0 [c] (cap c))).
    do 2 (split; [done|]). simpl.
    do 2 (split; [done|]). split; [done|]. do 3 (split; [done|]).
    split.
    { destruct (Get_inv _ _ _ HP HG) as (_ & _ & _ & _ & _ & Hc & _). done. }
    do 2 (split; [done|]). split; [by left|]. done.
  - intros Hn. rewrite NewBuffer_unfold. unfold Get.
    rewrite (PoolInv_negative _ HP Hn). simpl.
    unfold make. assert ((bytesCap (pool w) <? 0) = true) as -> by lia. done.
Qed.

Lemma NewBuffer_makes_empty_buffer_witness :
  ∃ c w0 w1, Get (mkWorld [] (mkPool [] 5 100) (mkBuffer 0 [] 0)) = Ok (c, w0) ∧
    NewBuffer (Some ThePool) (mkWorld [] (mkPool [] 5 100) (mkBuffer 0 [] 0))
    = Ok ((Some TheBuffer, None), w1) ∧
    chunks (buf w1) = [c].
Proof.
  destruct (NewBuffer_makes_empty_buffer
              (mkWorld [] (mkPool [] 5 100) (mkBuffer 0 [] 0))) as [H _].
  - split; simpl; [constructor|lia].
  - destruct H as (c & w0 & w1 & H1 & H2 & H3 & _); [simpl; lia|].
    exists c, w0, w1. done.
Defined.

(** ** [WriteString] *)

Lemma WriteString_keeps (w : World) (s : list byte) :
  BufInv w → 0 < bytesCap (pool w) → MemInv w →
  ∃ w', WriteString s w = Ok ((Z.of_nat (length s), None), w') ∧
    String w' = String w ++ s ∧
    written (buf w') = written (buf w) + Z.of_nat (length s) ∧
    offset (buf w') = offset (buf w) ∧
    BufInv w' ∧ MemInv w' ∧
    (FullInv (buf w) → FullInv (buf w')) ∧
    (TightInv (buf w) → TightInv (buf w')).
Proof.
  intros HB Hbc HM.
  destruct (WriteString_spec w s HB Hbc HM) as (w' & HW & HB' & HM' & HS).
  exists w'. split; [done|]. split; [done|].
  set (p := Slice (Some (length (mem w))) (length s) (length s)).
  set (w0 := set_mem w (mem w ++ s)).
  assert (Write p w0 = Ok ((Z.of_nat (length s), None), w')) as HW0.
  { by unfold WriteString, bind, bytes_of_string in HW. }
  assert (BufInv w0) as HB0 by done.
  assert (slice_wf p) as Hwp by (split; simpl; [lia|done]).
  destruct (Write_full _ _ _ _ HB0 Hbc Hwp HW0) as [Hwr HFi].
  destruct (Write_positive_capacity w0 p HB0 Hbc Hwp)
    as (w'' & HW'' & _ & _ & _ & Hoff & _).
  rewrite HW0 in HW''. injection HW'' as <-.
  split; [done|]. split; [done|]. do 2 (split; [done|]). split; [done|].
  by apply (Write_tight _ _ _ _ HB0 Hbc Hwp HW0).
Qed.

(** X5.  [WriteString(s)] on a buffer in use over a pool of positive
    capacity, under the discipline of ownership: it returns the length of
    [s] and no error, and [String()] after the call is [String()] before it
    followed by [s].  The buffer holds [len(s)] bytes more, the read offset
    stays, and the invariants and the discipline still hold.  The bytes of
    [s] are copied to memory of their own first, so the caller's string is
    not referred to afterwards. *)
Theorem WriteString_appends (w : World) (s : list byte) :
  BufInv w → 0 < bytesCap (pool w) → MemInv w →
  ∃ w', WriteString s w = Ok ((Z.of_nat (length s), None), w') ∧
    String w' = String w ++ s ∧
    written (buf w') = written (buf w) + Z.of_nat (length s) ∧
    offset (buf w') = offset (buf w) ∧
    BufInv w' ∧ MemInv w' ∧
    (FullInv (buf w) → FullInv (buf w')) ∧
    (TightInv (buf w) → TightInv (buf w')).
Proof. apply WriteString_keeps. Qed.

Lemma WriteString_appends_witness :
  ∃ w', WriteString (list_byte_of_string "hello world")
          (mkWorld (replicate 5 Byte.x00) (mkPool [] 5 100)
             (mkBuffer 0 [Slice (Some 0%nat) 0 5] 5))
        = Ok ((11, None), w') ∧
        String w' = list_byte_of_string "hello world".
Proof.
  destruct (WriteString_appends
              (mkWorld (replicate 5 Byte.x00) (mkPool [] 5 100)
                 (mkBuffer 0 [Slice (Some 0%nat) 0 5] 5))
              (list_byte_of_string "hello world"))
    as (w' & H1 & H2 & _).
  - split; [split; simpl; [constructor|lia]|].
    split; [done|]. split; [|done].
    apply Forall_singleton. split; [done|]. split; [done|]. simpl. lia.
  - simpl. lia.
  - split; simpl.
    + apply Forall_singleton. unfold in_mem. simpl. lia.
    + split; [constructor|exact I].
  - exists w'. split; [exact H1|exact H2].
Defined.

(** ** Reading what the buffer holds *)

(** X6.  [ReadAt(p, off)] at an offset within the data or at its end, on
    a buffer that satisfies its invariants, into a slice of the caller's
    own.  Let [avail] be the number of bytes from [off] to the end.  When
    [avail] bytes fill [p], or the last chunk is not full, the call
    returns [min(avail, len(p))], with [io.EOF] exactly when
    [avail < len(p)]; the first cells of [p] hold the bytes of [String()]
    from [off] on; the buffer, the pool, the contents of the buffer and
    all other memory are as before.  When fewer bytes are left than [p]
    takes and the last chunk is full, the call panics. *)
Theorem ReadAt_within_data (w : World) (p : slice) (off : Z) :
  ReadInv w p → 0 <= off <= written (buf w) →
  let avail := written (buf w) - off in
  let m := Z.min avail (len p) in
  (len p <= avail ∨ ¬ Forall full (chunks (buf w)) →
     ∃ w', ReadAt p off w
           = Ok ((m, if avail <? len p then Some EOF else None), w') ∧
       buf w' = buf w ∧ pool w' = pool w ∧
       load (mem w') (addr p) (Z.to_nat m)
         = take (Z.to_nat m) (drop (Z.to_nat off) (String w)) ∧
       String w' = String w ∧
       ∀ j, (j < addr p ∨ addr p + Z.to_nat m <= j)%nat →
            mem w' !! j = mem w !! j) ∧
  (avail < len p → Forall full (chunks (buf w)) →
     ReadAt p off w = Panic IndexOutOfRange).
Proof.
  intros HI Hoff avail m.
  destruct (readFromOffset_spec w p off HI Hoff) as [H1 H2].
  split; [exact H2|exact H1].
Qed.

Lemma ReadAt_within_data_witness :
  ∃ w', ReadAt (Slice (Some 10%nat) 3 3) 3
          (mkWorld (list_byte_of_string "helloworldabc") (mkPool [] 5 10)
             (mkBuffer 0 [Slice (Some 0%nat) 5 5; Slice (Some 5%nat) 5 5] 5))
        = Ok ((3, None), w') ∧
        load (mem w') 10 3 = list_byte_of_string "low".
Proof.
  destruct (ReadAt_within_data
              (mkWorld (list_byte_of_string "helloworldabc") (mkPool [] 5 10)
                 (mkBuffer 0 [Slice (Some 0%nat) 5 5; Slice (Some 5%nat) 5 5] 5))
              (Slice (Some 10%nat) 3 3) 3) as [H _].
  - split.
    { split; [split; simpl; [constructor|lia]|].
      split; [done|]. split; [|done].
      repeat constructor; simpl; lia. }
    split; [repeat constructor|]. split; [simpl; lia|].
    split.
    { split; simpl.
      - repeat constructor; unfold in_mem; simpl; lia.
      - split; [repeat constructor; unfold apart; simpl; lia|].
        split; [constructor|exact I]. }
    split.
    { split; [unfold in_mem; simpl; lia|].
      simpl. repeat constructor; unfold apart; simpl; lia. }
    split; simpl; [lia|done].
  - vm_compute. split; congruence.
  - destruct H as (w' & H1 & _ & _ & H2 & _).
    + left. vm_compute. congruence.
    + exists w'. split; [exact H1|exact H2].
Defined.

(** X7.  [Read(p)] with the read offset within the data or at its end,
    on a buffer that satisfies its invariants, into a slice of the caller's
    own.  When the bytes left fill [p], or the last chunk is not full, the
    call returns [min(avail, len(p))], with [io.EOF] exactly when fewer
    bytes are left than [p] takes; [p] holds the bytes of [String()] from
    the read offset on; the read offset has moved on by the count and
    stays within the data; the chunks and their contents stay, and all
    that a read relies on holds again, so that the next [Read] goes on
    where this one ended. *)
Theorem Read_delivers_and_advances (w : World) (p : slice) :
  ReadInv w p → 0 <= offset (buf w) <= written (buf w) →
  let avail := written (buf w) - offset (buf w) in
  let m := Z.min avail (len p) in
  len p <= avail ∨ ¬ Forall full (chunks (buf w)) →
  ∃ w', Read p w = Ok ((m, if avail <? len p then Some EOF else None), w') ∧
    load (mem w') (addr p) (Z.to_nat m)
      = take (Z.to_nat m) (drop (Z.to_nat (offset (buf w))) (String w)) ∧
    offset (buf w') = offset (buf w) + m ∧
    0 <= offset (buf w') <= written (buf w') ∧
    chunks (buf w') = chunks (buf w) ∧ pool w' = pool w ∧
    String w' = String w ∧
    ReadInv w' p ∧ (∀ q, foreign w q → foreign w' q) ∧
    ∀ j, (j < addr p ∨ addr p + Z.to_nat m <= j)%nat →
         mem w' !! j = mem w !! j.
Proof.
  intros HI Hoff avail m Hc.
  destruct (Read_spec w p HI Hoff) as [_ H2].
  destruct (H2 Hc) as (w' & HR & Hch & Hcc & Ho & Ho' & Hp & Hd & HS & Hfr).
  exists w'. split; [exact HR|]. do 6 (split; [done|]).
  destruct (Read_keeps_invariants _ _ _ _ HR) as (K1 & K2 & _ & K4 & K5).
  destruct HI as (HB & HFi & Hpos & HM & Hf & Hwp).
  split; [|split; [done|done]].
  split; [tauto|]. split; [tauto|]. split; [congruence|]. split; [tauto|].
  split; [by apply K5|done].
Qed.

Lemma Read_delivers_and_advances_witness :
  ∃ w', Read (Slice (Some 10%nat) 3 3)
          (mkWorld (list_byte_of_string "helloworldabc") (mkPool [] 5 10)
             (mkBuffer 3 [Slice (Some 0%nat) 5 5; Slice (Some 5%nat) 5 5] 5))
        = Ok ((3, None), w') ∧
        load (mem w') 10 3 = list_byte_of_string "low" ∧
        offset (buf w') = 6.
Proof.
  destruct (Read_delivers_and_advances
              (mkWorld (list_byte_of_string "helloworldabc") (mkPool [] 5 10)
                 (mkBuffer 3 [Slice (Some 0%nat) 5 5; Slice (Some 5%nat) 5 5] 5))
              (Slice (Some 10%nat) 3 3)) as (w' & H1 & H2 & H3 & _).
  - split.
    { split; [split; simpl; [constructor|lia]|].
      split; [done|]. split; [|done].
      repeat constructor; simpl; lia. }
    split; [repeat constructor|]. split; [simpl; lia|].
    split.
    { split; simpl.
      - repeat constructor; unfold in_mem; simpl; lia.
      - split; [repeat constructor; unfold apart; simpl; lia|].
        split; [constructor|exact I]. }
    split.
    { split; [unfold in_mem; simpl; lia|].
      simpl. repeat constructor; unfold apart; simpl; lia. }
    split; simpl; [lia|done].
  - vm_compute. split; congruence.
  - left. vm_compute. congruence.
  - exists w'. split; [exact H1|]. split; [exact H2|exact H3].
Defined.

(** ** Offsets outside the chunks *)

Lemma readFromOffset_zero_chunkCap w p off :
  chunks (buf w) ≠ [] → 0 < len p → chunkCap (buf w) = 0 →
  readFromOffset p off w = Panic IntegerDivideByZero.
Proof.
  intros Hne Hp Hcc. unfold readFromOffset.
  destruct (chunks (buf w)) as [|c0 l0] eqn:E; [done|].
  assert ((Z.of_nat (length (c0 :: l0)) =? 0) = false) as -> by (simpl; lia).
  unfold len in Hp. destruct (slen p) as [|fuel] eqn:Ep; [lia|].
  rewrite readLoop_S.
  assert ((0 <? len p) = true) as -> by (unfold len; lia).
  unfold locate, div. by rewrite Hcc.
Qed.

(** X8.  [findReadLocation] checks no bound.  On a buffer in use and for
    a destination that is not empty, [ReadAt] panics with a division by
    zero when the chunk capacity is zero, with an index out of range when
    the offset is at or past [len(chunks) * chunkCap], and with some
    run-time panic when the offset is negative; [Read] does so for the
    read offset.  No error value is returned in these cases. *)
Theorem reads_outside_chunks_panic (w : World) (p : slice) (off : Z) :
  chunks (buf w) ≠ [] → 0 < len p →
  (chunkCap (buf w) = 0 →
     ReadAt p off w = Panic IntegerDivideByZero ∧
     Read p w = Panic IntegerDivideByZero) ∧
  (0 < chunkCap (buf w) →
     (Z.of_nat (length (chunks (buf w))) * chunkCap (buf w) <= off →
        ReadAt p off w = Panic IndexOutOfRange) ∧
     (Z.of_nat (length (chunks (buf w))) * chunkCap (buf w) <= offset (buf w) →
        Read p w = Panic IndexOutOfRange) ∧
     (off < 0 → ∃ e, ReadAt p off w = Panic e) ∧
     (offset (buf w) < 0 → ∃ e, Read p w = Panic e)).
Proof.
  intros Hne Hp. split.
  - intros Hcc. split; [by apply readFromOffset_zero_chunkCap|].
    rewrite Read_unfold. by rewrite readFromOffset_zero_chunkCap.
  - intros Hcc. split; [by apply readFromOffset_beyond_chunks|].
    split.
    { intros H. rewrite Read_unfold. by rewrite readFromOffset_beyond_chunks. }
    split; [by apply readFromOffset_negative|].
    intros H. rewrite Read_unfold.
    destruct (readFromOffset_negative w p (offset (buf w))) as [e ->]; [done..|].
    by exists e.
Qed.

Lemma reads_outside_chunks_panic_witness :
  ReadAt (Slice (Some 10%nat) 3 3) 10
    (mkWorld (list_byte_of_string "helloworldabc") (mkPool [] 5 10)
       (mkBuffer 0 [Slice (Some 0%nat) 5 5; Slice (Some 5%nat) 5 5] 5))
  = Panic IndexOutOfRange.
Proof.
  destruct (reads_outside_chunks_panic
              (mkWorld (list_byte_of_string "helloworldabc") (mkPool [] 5 10)
                 (mkBuffer 0 [Slice (Some 0%nat) 5 5; Slice (Some 5%nat) 5 5] 5))
              (Slice (Some 10%nat) 3 3) 10) as [_ H].
  - done.
  - vm_compute. reflexivity.
  - destruct H as [H _]; [simpl; lia|]. apply H. simpl. lia.
Defined.

(** ** Writing, then reading *)

Lemma make_Ok w (n : nat) :
  make (Z.of_nat n) (Z.of_nat n) w =
  Ok (Slice (Some (length (mem w))) n n,
      set_mem w (mem w ++ replicate n Byte.x00)).
Proof.
  unfold make.
  assert ((Z.of_nat n <? 0) || (Z.of_nat n <? Z.of_nat n) = false) as -> by lia.
  by rewrite Nat2Z.id.
Qed.

(** New memory is the caller's own, and allocating it keeps the buffer. *)
Lemma fresh_ReadInv w z (n : nat) :
  BufInv w → FullInv (buf w) → 0 < chunkCap (buf w) → MemInv w →
  length z = n →
  ReadInv (set_mem w (mem w ++ z)) (Slice (Some (length (mem w))) n n) ∧
  String (set_mem w (mem w ++ z)) = String w.
Proof.
  intros HB HFi Hpos HM Hz.
  set (p := Slice (Some (length (mem w))) n n).
  set (w0 := set_mem w (mem w ++ z)).
  assert (BufInv w0) as HB0 by done.
  assert (slice_wf p) as Hwp by (split; simpl; [lia|done]).
  assert (MemInv w0) as HM0.
  { destruct HM as [HV HS]. split; [|done]. unfold w0, owned. simpl.
    eapply List.Forall_impl; [|exact HV]. intros r. apply in_mem_app. }
  assert (foreign w0 p) as Hfp.
  { destruct HM as [HV _]. split.
    - unfold in_mem, w0, p, range, addr. simpl. rewrite length_app. lia.
    - unfold w0, owned. simpl.
      eapply List.Forall_impl; [|exact HV]. intros r Hr.
      apply apart_sym. by apply apart_fresh. }
  split; [done|].
  apply (String_extend w w0 [] z HM); simpl;
    [by rewrite app_nil_r|constructor| |done].
  destruct HB as (_ & _ & HC & _).
  eapply List.Forall_impl; [|exact HC]. by intros c (_ & _ & ?).
Qed.

(** X9.  What is written is what is read.  On a buffer that satisfies
    its invariants, with the read offset within the data, [WriteString(s)]
    followed by [Read] into a new slice of [n] bytes, where [n] is at most
    the number of bytes then unread: the read returns [n] and no error,
    the slice holds the first [n] unread bytes of the old contents
    followed by [s], and the read offset has moved on by [n].  On a new
    buffer these are the first [n] bytes of [s]. *)
Theorem write_then_read (w : World) (s : list byte) (n : nat) :
  BufInv w → 0 < bytesCap (pool w) → MemInv w → FullInv (buf w) →
  0 <= offset (buf w) <= written (buf w) →
  Z.of_nat n <= written (buf w) + Z.of_nat (length s) - offset (buf w) →
  ∃ w1 p w2 w3,
    WriteString s w = Ok ((Z.of_nat (length s), None), w1) ∧
    make (Z.of_nat n) (Z.of_nat n) w1 = Ok (p, w2) ∧
    Read p w2 = Ok ((Z.of_nat n, None), w3) ∧
    bytes_of (mem w3) p
      = take n (drop (Z.to_nat (offset (buf w))) (String w ++ s)) ∧
    String w3 = String w ++ s ∧
    offset (buf w3) = offset (buf w) + Z.of_nat n.
Proof.
  intros HB Hbc HM HFi Hoff Hn.
  destruct (WriteString_keeps w s HB Hbc HM)
    as (w1 & HW & HS1 & Hwr1 & Hoff1 & HB1 & HM1 & HFi1 & _).
  pose proof HB1 as (_ & _ & _ & Hcc1).
  assert (bytesCap (pool w1) = bytesCap (pool w)) as Hbc1.
  { destruct (Write_positive_capacity (set_mem w (mem w ++ s))
                (Slice (Some (length (mem w))) (length s) (length s)))
      as (w'' & HW'' & _ & Hb'' & _); [done|done|split; simpl; [lia|done]|].
    unfold WriteString, bind, bytes_of_string in HW. rewrite HW in HW''.
    injection HW'' as <-. done. }
  destruct (fresh_ReadInv w1 (replicate n Byte.x00) n HB1 (HFi1 HFi))
    as [HI2 HS2]; [lia|done|by rewrite length_replicate|].
  set (p := Slice (Some (length (mem w1))) n n) in *.
  set (w2 := set_mem w1 (mem w1 ++ replicate n Byte.x00)) in *.
  destruct (Read_spec w2 p HI2) as [_ HR].
  { simpl. lia. }
  destruct HR as (w3 & HR & _ & _ & Ho3 & _ & _ & Hd & HS3 & _).
  { left. simpl. unfold len. simpl. lia. }
  simpl in HR, Hd, Ho3.
  replace (Z.min (written (buf w1) - offset (buf w1)) (len p))
    with (Z.of_nat n) in * by (unfold len; simpl; lia).
  assert ((written (buf w1) - offset (buf w1) <? len p) = false) as Elt
    by (unfold len; simpl; lia).
  rewrite Elt in HR.
  exists w1, p, w2, w3. split; [done|]. split; [apply make_Ok|].
  split; [done|]. split.
  { unfold bytes_of. simpl. rewrite Nat2Z.id in Hd. simpl in Hd.
    rewrite Hd, HS2, HS1, Hoff1. done. }
  split; [by rewrite HS3, HS2|]. lia.
Qed.

Lemma write_then_read_witness :
  ∃ w1 p w2 w3,
    WriteString (list_byte_of_string "hello world")
      (mkWorld (replicate 5 Byte.x00) (mkPool [] 5 100)
         (mkBuffer 0 [Slice (Some 0%nat) 0 5] 5))
    = Ok ((11, None), w1) ∧
    make 11 11 w1 = Ok (p, w2) ∧
    Read p w2 = Ok ((11, None), w3) ∧
    bytes_of (mem w3) p = list_byte_of_string "hello world".
Proof.
  destruct (write_then_read
              (mkWorld (replicate 5 Byte.x00) (mkPool [] 5 100)
                 (mkBuffer 0 [Slice (Some 0%nat) 0 5] 5))
              (list_byte_of_string "hello world") 11)
    as (w1 & p & w2 & w3 & H1 & H2 & H3 & H4 & _).
  - split; [split; simpl; [constructor|lia]|].
    split; [done|]. split; [|done].
    apply Forall_singleton. split; [done|]. split; [done|]. simpl. lia.
  - simpl. lia.
  - split; simpl.
    + apply Forall_singleton. unfold in_mem. simpl. lia.
    + split; [constructor|exact I].
  - constructor.
  - vm_compute. split; congruence.
  - vm_compute. congruence.
  - exists w1, p, w2, w3. split; [exact H1|]. split; [exact H2|].
    split; [exact H3|exact H4].
Defined.

(** ** Giving slices up *)

Lemma pairwise_apart_submseteq (l1 l2 : list (nat * nat)) :
  l1 ⊆+ l2 → pairwise_apart l2 → pairwise_apart l1.
Proof.
  intros Hs H2. apply submseteq_Permutation in Hs as [k Hk].
  apply (pairwise_apart_Permutation _ _ Hk) in H2.
  apply pairwise_apart_app in H2. tauto.
Qed.

Lemma Forall_submseteq {A} (P : A → Prop) (l1 l2 : list A) :
  l1 ⊆+ l2 → Forall P l2 → Forall P l1.
Proof.
  intros Hs H2. rewrite list.Forall_forall in *.
  intros x Hx. apply H2. by eapply elem_of_submseteq.
Qed.

(** A state that owns a part of what another state owned, in a memory of
    the same size, keeps the discipline of ownership. *)
Lemma MemInv_submseteq w w' :
  map range (owned w') ⊆+ map range (owned w) →
  length (mem w') = length (mem w) →
  (MemInv w → MemInv w') ∧ (∀ q, foreign w q → foreign w' q).
Proof.
  intros Hs Hl. split.
  - intros [HV HS]. split.
    + apply (Forall_submseteq _ _ _ Hs). unfold in_mem in *. by rewrite Hl.
    + by apply (pairwise_apart_submseteq _ _ Hs).
  - intros q [Hq1 Hq2]. split.
    + unfold in_mem in *. by rewrite Hl.
    + by apply (Forall_submseteq _ _ _ Hs).
Qed.

(** X10.  [Free] on a buffer that satisfies its invariants gives the
    chunks back to the pool in order, as many as the pool has room for,
    and drops the others: [Size] afterwards is
    [min(poolCap, Size + Chunks)].  The slices the pool then holds are
    those it held followed by the chunks taken, cut to length zero.
    Memory is untouched, the pool stays sound and, when the discipline of
    ownership held before, it holds afterwards: the pool can hand the
    chunks out again. *)
Theorem Free_fills_pool (w : World) :
  BufInv w →
  let k := Z.to_nat (poolCap (pool w) - Z.of_nat (length (slices (pool w)))) in
  ∃ w1, Free w = Ok (tt, w1) ∧
    chunks (buf w1) = [] ∧ mem w1 = mem w ∧
    slices (pool w1) = slices (pool w) ++
      map (λ s, Slice (sdata s) 0 (scap s)) (take k (chunks (buf w))) ∧
    bytesCap (pool w1) = bytesCap (pool w) ∧
    poolCap (pool w1) = poolCap (pool w) ∧
    PoolInv (pool w1) ∧
    Size w1 = Ok (Z.min (poolCap (pool w))
                    (Z.of_nat (length (slices (pool w)))
                     + Z.of_nat (length (chunks (buf w)))), w1) ∧
    (MemInv w → MemInv w1) ∧
    (∀ q, foreign w q → foreign w1 q).
Proof.
  intros (HP & Hne & HC & Hcc) k. pose proof HP as [HF Hle].
  pose proof (putAll_room (chunks (buf w)) w k HC ltac:(lia)) as HA.
  pose proof (Free_unfold _ _ HA) as HFr. simpl in HFr.
  eexists. split; [exact HFr|]. simpl.
  do 5 (split; [done|]).
  assert (PoolInv (mkPool (slices (pool w) ++
            map (λ s, Slice (sdata s) 0 (scap s)) (take k (chunks (buf w))))
            (bytesCap (pool w)) (poolCap (pool w)))) as HP1.
  { split; simpl.
    - apply Forall_app. split; [done|]. apply Forall_map.
      apply Forall_take. eapply List.Forall_impl; [|exact HC].
      intros c (H1 & H2 & _). done.
    - rewrite length_app, length_map, length_take. lia. }
  split; [done|]. split.
  { unfold Size. simpl. rewrite length_app, length_map, length_take.
    do 2 f_equal. lia. }
  apply MemInv_submseteq; [|done].
  unfold owned. simpl. rewrite !map_app, <- list_fmap_compose.
  replace (map (range ∘ (λ s, Slice (sdata s) 0 (scap s))) (take k (chunks (buf w))))
    with (map range (take k (chunks (buf w)))) by (by apply map_ext).
  rewrite (comm (++) (map range (slices (pool w)))).
  apply submseteq_skips_r. apply fmap_submseteq.
  apply sublist_submseteq, sublist_take.
Qed.

Lemma Free_fills_pool_witness :
  ∃ w1, Free (mkWorld (replicate 12 Byte.x00) (mkPool [Slice (Some 8%nat) 0 4] 4 2)
                (mkBuffer 2 [Slice (Some 0%nat) 4 4; Slice (Some 4%nat) 1 4] 4))
        = Ok (tt, w1) ∧
        slices (pool w1) = [Slice (Some 8%nat) 0 4; Slice (Some 0%nat) 0 4] ∧
        Size w1 = Ok (2, w1).
Proof.
  destruct (Free_fills_pool
              (mkWorld (replicate 12 Byte.x00) (mkPool [Slice (Some 8%nat) 0 4] 4 2)
                 (mkBuffer 2 [Slice (Some 0%nat) 4 4; Slice (Some 4%nat) 1 4] 4)))
    as (w1 & H1 & _ & _ & H2 & _ & _ & _ & H3 & _).
  - split; [split; simpl; [repeat constructor|lia]|].
    split; [done|]. split; [|done].
    repeat constructor; simpl; lia.
  - exists w1. split; [exact H1|]. split; [exact H2|exact H3].
Defined.

(** ** The helpers of [Write] *)

(** X11.  [moveBytes(dst, src)], for slices that lie in memory and do
    not overlap.  When [src] is empty nothing happens.  When [src] holds
    bytes and [dst] is full, it panics with [ErrTooLarge].  Otherwise it
    moves [r = min(len(src), cap(dst) - len(dst))] bytes and returns [r]:
    [dst] keeps its memory and capacity and is [r] longer, holding its old
    elements followed by the first [r] elements of [src]; [src] holds the
    elements that are left; only the [r] cells after the old end of [dst]
    are written. *)
Theorem moveBytes_moves_what_fits (w : World) (dst src : slice) :
  slice_wf dst → slice_wf src →
  in_mem (mem w) (range dst) → in_mem (mem w) (range src) →
  apart (range dst) (range src) →
  (slen src = 0%nat → moveBytes dst src w = Ok ((0, dst, src), w)) ∧
  ((0 < slen src)%nat → slen dst = scap dst →
     moveBytes dst src w = Panic ErrTooLarge) ∧
  ((0 < slen src)%nat → (slen dst < scap dst)%nat →
     let r := Nat.min (slen src) (scap dst - slen dst) in
     ∃ dst' src' w',
       moveBytes dst src w = Ok ((Z.of_nat r, dst', src'), w') ∧
       (0 < r)%nat ∧
       sdata dst' = sdata dst ∧ scap dst' = scap dst ∧
       slen dst' = (slen dst + r)%nat ∧ slen src' = (slen src - r)%nat ∧
       bytes_of (mem w') dst'
         = bytes_of (mem w) dst ++ take r (bytes_of (mem w) src) ∧
       bytes_of (mem w') src' = drop r (bytes_of (mem w) src) ∧
       pool w' = pool w ∧ buf w' = buf w ∧
       length (mem w') = length (mem w) ∧
       ∀ j, (j < addr dst + slen dst ∨ addr dst + slen dst + r <= j)%nat →
            mem w' !! j = mem w !! j).
Proof.
  intros Hwd Hws Hmd Hms Hap. split; [|split].
  - intros H0. unfold moveBytes, len. by rewrite H0.
  - intros Hs Hf. by apply moveBytes_full.
  - intros Hs Hroom r.
    pose proof (moveBytes_Ok dst src w Hs Hws Hwd Hroom) as HM.
    cbv zeta in HM. fold r in HM.
    eexists _, _, _. split; [exact HM|]. simpl.
    assert (0 < r)%nat as Hr0 by (unfold r; lia).
    assert (r <= slen src)%nat as Hr1 by (unfold r; lia).
    assert (slen dst + r <= scap dst)%nat as Hr2 by (unfold r; lia).
    destruct Hws as [Hsl Hsn].
    unfold in_mem in Hmd, Hms. unfold apart in Hap. simpl in Hmd, Hms, Hap.
    set (bs := load (mem w) (addr src) r).
    assert (length bs = r) as Hbs by (apply length_load; lia).
    do 5 (split; [done|]). split; [|split; [|split; [done|split; [done|split]]]].
    + unfold bytes_of. simpl.
      replace (addr (Slice (sdata dst) (slen dst + r) (scap dst))) with (addr dst) by done.
      rewrite load_add. f_equal.
      * apply load_store_outside. lia.
      * rewrite take_load by done. fold bs.
        pose proof (load_store_same (mem w) (addr dst + slen dst)%nat bs
                      ltac:(lia)) as HL.
        rewrite Hbs in HL. exact HL.
    + unfold bytes_of. rewrite addr_advance by (done || lia). simpl.
      rewrite load_store_outside by lia.
      by rewrite drop_load.
    + apply length_store.
    + intros j Hj. apply store_lookup_outside. lia.
Qed.

Lemma moveBytes_moves_what_fits_witness :
  ∃ dst' src' w',
    moveBytes (Slice (Some 0%nat) 3 5) (Slice (Some 5%nat) 4 4)
      (mkWorld (list_byte_of_string "hel  lo w") (mkPool [] 5 10) (mkBuffer 0 [] 5))
    = Ok ((2, dst', src'), w') ∧
    bytes_of (mem w') dst' = list_byte_of_string "hello" ∧
    bytes_of (mem w') src' = list_byte_of_string " w".
Proof.
  destruct (moveBytes_moves_what_fits
              (mkWorld (list_byte_of_string "hel  lo w") (mkPool [] 5 10) (mkBuffer 0 [] 5))
              (Slice (Some 0%nat) 3 5) (Slice (Some 5%nat) 4 4))
    as (_ & _ & H).
  - split; simpl; [lia|done].
  - split; simpl; [lia|done].
  - unfold in_mem. vm_compute. lia.
  - unfold in_mem. vm_compute. lia.
  - left. vm_compute. lia.
  - destruct H as (dst' & src' & w' & H1 & _ & _ & _ & _ & _ & H2 & H3 & _).
    + simpl. lia.
    + simpl. lia.
    + exists dst', src', w'. split; [exact H1|]. split; [exact H2|exact H3].
Defined.

(** X12.  [findWritableChunk] on a buffer that satisfies its invariants,
    over a pool of positive capacity, returns the last chunk, and that
    chunk has room.  When the last chunk had room nothing changes.  When
    it was full, one chunk, the slice that [Get] returns, is appended
    after the chunks there were.  The data are untouched: the buffer holds
    as many bytes as before and, under the discipline of ownership,
    [String()] is as before and the discipline still holds. *)
Theorem findWritableChunk_finds_room (w : World) :
  BufInv w → 0 < bytesCap (pool w) →
  ∃ w1 init dst,
    findWritableChunk w = Ok (Z.of_nat (length init), w1) ∧
    chunks (buf w1) = init ++ [dst] ∧ (slen dst < scap dst)%nat ∧
    BufInv w1 ∧
    written (buf w1) = written (buf w) ∧
    offset (buf w1) = offset (buf w) ∧
    (FullInv (buf w) → FullInv (buf w1)) ∧
    (∀ i l, chunks (buf w) = i ++ [l] → (slen l < scap l)%nat → w1 = w) ∧
    (∀ i l, chunks (buf w) = i ++ [l] → slen l = scap l →
       ∃ c w0, Get w = Ok (c, w0) ∧ dst = c ∧ init = chunks (buf w) ∧
               pool w1 = pool w0 ∧ mem w1 = mem w0) ∧
    (MemInv w →
       MemInv w1 ∧ String w1 = String w ∧ ∀ q, foreign w q → foreign w1 q).
Proof.
  intros HB Hbc.
  destruct (find_step w HB Hbc)
    as (w1 & init & dst & HF & E & Hroom & HB1 & Hbc1 & Hpc1 & Hoff
        & (new & Hnew & Hnew0) & (z & Hz) & Hmem).
  destruct (findWritableChunk_full w _ w1 HB HF) as [Hwr HFi].
  exists w1, init, dst. do 7 (split; [done|]).
  split; [|split].
  - intros i l El Hl. rewrite (findWritableChunk_room w i l El Hl) in HF.
    by injection HF as _ <-.
  - intros i l El Hl.
    pose proof HB as (HP & _).
    destruct (Get_total w HP ltac:(lia)) as (c & w0 & HG).
    destruct (Get_inv _ _ _ HP HG) as (_ & _ & _ & Hbuf & _).
    rewrite (findWritableChunk_grow w i l c w0 El Hl HG Hbuf) in HF.
    injection HF as Hlen <-. simpl in E.
    exists c, w0. split; [done|].
    replace (i ++ [l; c]) with ((i ++ [l]) ++ [c]) in E by (by rewrite <- app_assoc).
    apply app_inj_tail in E as [<- <-]. by rewrite El.
  - intros HM. destruct (Hmem HM) as [HM1 Hfr]. split; [done|]. split; [|done].
    apply (String_extend w w1 new z HM); [done..| |done].
    destruct HB as (_ & _ & HC & _).
    eapply List.Forall_impl; [|exact HC]. by intros c (_ & _ & ?).
Qed.

Lemma findWritableChunk_finds_room_witness :
  ∃ w1 dst,
    findWritableChunk
      (mkWorld (replicate 5 Byte.x00) (mkPool [] 5 10)
         (mkBuffer 0 [Slice (Some 0%nat) 5 5] 5))
    = Ok (1, w1) ∧
    chunks (buf w1) = [Slice (Some 0%nat) 5 5; dst] ∧ (slen dst < scap dst)%nat.
Proof.
  destruct (findWritableChunk_finds_room
              (mkWorld (replicate 5 Byte.x00) (mkPool [] 5 10)
                 (mkBuffer 0 [Slice (Some 0%nat) 5 5] 5)))
    as (w1 & init & dst & H1 & H2 & H3 & _ & _ & _ & _ & _ & H4 & _).
  - split; [split; simpl; [constructor|lia]|].
    split; [done|]. split; [|done].
    apply Forall_singleton. split; [done|]. split; [done|]. simpl. lia.
  - simpl. lia.
  - destruct (H4 [] (Slice (Some 0%nat) 5 5)) as (c & w0 & _ & _ & Hi & _);
      [reflexivity|reflexivity|].
    simpl in Hi. subst init. exists w1, dst.
    split; [exact H1|]. split; [exact H2|exact H3].
Defined.

(** ** The buffer that recycles chunks while it reads *)

Lemma Put_total w b :
  ∃ e w', Put b w = Ok (e, w') ∧ buf w' = buf w ∧ mem w' = mem w.
Proof.
  destruct (Put_cases w b) as [(_ & ->)|[(_ & _ & ->)|[(_ & _ & _ & ->)|(_ & _ & _ & ->)]]];
    by eexists _, _.
Qed.

Lemma index_head {A} (x : A) (l : list A) : index (x :: l) 0 = Ok x.
Proof. by apply index_Ok. Qed.

(** [findReadableChunk] when the first chunk is not exhausted or is the
    only one: nothing changes. *)
Lemma findReadableChunk_stay w c0 rest :
  chunks (buf w) = c0 :: rest → offset (buf w) ≠ cap c0 ∨ rest = [] →
  Recycling.findReadableChunk w = Ok (c0, w).
Proof.
  intros E Hc. unfold Recycling.findReadableChunk, bind, lift.
  rewrite E, index_head.
  assert ((offset (buf w) =? cap c0) && (1 <? Z.of_nat (length (c0 :: rest))) = false)
    as ->; [|done].
  destruct Hc as [Hc| ->]; [|simpl]; lia.
Qed.

(** [findReadableChunk] when the first chunk is exhausted and another one
    follows: the first chunk goes to [Put] and the next one is the first. *)
Lemma findReadableChunk_recycle w c0 c1 rest e w1 :
  chunks (buf w) = c0 :: c1 :: rest → offset (buf w) = cap c0 →
  Put c0 w = Ok (e, w1) →
  Recycling.findReadableChunk w
  = Ok (c1, mkWorld (mem w) (pool w1) (mkBuffer 0 (c1 :: rest) (chunkCap (buf w)))).
Proof.
  intros E Hc HP.
  destruct (Put_total w c0) as (e' & w1' & HP' & Hb & Hm).
  rewrite HP in HP'. injection HP' as <- <-.
  unfold Recycling.findReadableChunk, bind, lift.
  rewrite E, index_head.
  assert ((offset (buf w) =? cap c0) && (1 <? Z.of_nat (length (c0 :: c1 :: rest))) = true)
    as -> by (simpl; lia).
  rewrite HP. unfold get_world, put_world. simpl.
  rewrite Hb, E. unfold Recycling.chunks_from.
  assert ((0 <=? 1) && (1 <=? Z.of_nat (length (c0 :: c1 :: rest))) = true)
    as -> by (simpl; lia).
  simpl. by rewrite Hm.
Qed.

Lemma RecInv_facts w :
  RecInv w →
  ∃ c0 rest, chunks (buf w) = c0 :: rest ∧
    chunk_ok (bytesCap (pool w)) c0 ∧
    (rest ≠ [] → slen c0 = scap c0) ∧
    0 <= offset (buf w) <= len c0 ∧
    Forall (λ c, in_mem (mem w) (range c) ∧ (slen c <= scap c)%nat)
      (chunks (buf w)).
Proof.
  intros (HP & Hne & HC & Hbc & HFi & [HV HS] & Hoff).
  destruct (chunks (buf w)) as [|c0 rest] eqn:E; [done|].
  exists c0, rest. split; [done|].
  pose proof HC as HC'. apply list.Forall_cons in HC' as [HC0 _].
  split; [done|]. split.
  { intros Hr. unfold FullInv in HFi. rewrite E in HFi.
    destruct rest as [|c1 rest]; [done|]. simpl in HFi.
    apply list.Forall_cons in HFi as [H _]. exact H. }
  split; [done|].
  unfold owned in HV. rewrite E, map_app, Forall_app in HV.
  destruct HV as [HV _]. rewrite Forall_map in HV.
  eapply List.Forall_impl; [|exact (List.Forall_and HV HC)].
  by intros c [H1 (_ & _ & H3)].
Qed.

Lemma unread_cons w c0 rest :
  chunks (buf w) = c0 :: rest →
  unread w = drop (Z.to_nat (offset (buf w)))
               (bytes_of (mem w) c0 ++ concat (map (bytes_of (mem w)) rest)).
Proof. intros E. unfold unread, String. by rewrite E. Qed.

Lemma findReadableChunk_spec w :
  RecInv w →
  let k := Z.to_nat (poolCap (pool w) - Z.of_nat (length (slices (pool w)))) in
  ∃ s w1 (j : nat),
    Recycling.findReadableChunk w = Ok (s, w1) ∧
    RecInv w1 ∧ head (chunks (buf w1)) = Some s ∧
    mem w1 = mem w ∧ unread w1 = unread w ∧
    bytesCap (pool w1) = bytesCap (pool w) ∧
    poolCap (pool w1) = poolCap (pool w) ∧
    chunkCap (buf w1) = chunkCap (buf w) ∧
    chunks (buf w1) = drop j (chunks (buf w)) ∧
    slices (pool w1) = slices (pool w) ++
      map (λ s, Slice (sdata s) 0 (scap s)) (take k (take j (chunks (buf w)))) ∧
    offset (buf w1) + Z.of_nat j * bytesCap (pool w) = offset (buf w) ∧
    map range (owned w1) ⊆+ map range (owned w) ∧
    (offset (buf w1) = len s →
       unread w1 = [] ∧ length (chunks (buf w1)) = 1%nat).
Proof.
  intros HI k. pose proof HI as (HP & Hne & HC & Hbc & HFi & HM & Hoff).
  destruct (RecInv_facts w HI) as (c0 & rest & E & Hc0 & Hfull & Hoff0 & HVc).
  destruct Hc0 as (Hcap0 & Hnil0 & Hle0).
  pose proof HVc as HVc'. rewrite E in HVc'.
  apply list.Forall_cons in HVc' as [[Hm0 _] HVr].
  destruct (decide (offset (buf w) = cap c0 ∧ rest ≠ [])) as [[Ho Hr]|Hstay].
  - (* the first chunk is recycled *)
    destruct rest as [|c1 rest]; [done|]. clear Hr.
    specialize (Hfull ltac:(done)).
    destruct (Put_total w c0) as (e & wp & HPut & Hbp & Hmp).
    destruct (Put_inv _ _ _ _ HP HPut) as (HPp & Hbcp & Hpcp & _ & _).
    rewrite (findReadableChunk_recycle w c0 c1 rest e wp E Ho HPut).
    set (w1 := mkWorld (mem w) (pool wp) (mkBuffer 0 (c1 :: rest) (chunkCap (buf w)))).
    assert (slices (pool wp) = slices (pool w) ++
              map (λ s, Slice (sdata s) 0 (scap s)) (take k [c0])) as Hsl.
    { destruct (decide (Z.of_nat (length (slices (pool w))) = poolCap (pool w))) as [Hf|Hf].
      - rewrite (Put_full w c0 Hnil0 Hcap0 Hf) in HPut. injection HPut as _ <-.
        replace k with 0%nat by (unfold k; lia). simpl. by rewrite app_nil_r.
      - rewrite (Put_push w c0 Hnil0 Hcap0 Hf) in HPut. injection HPut as _ <-.
        destruct HP as [_ Hle]. destruct k as [|k'] eqn:Ek; [unfold k in Ek; lia|].
        simpl. by rewrite take_nil. }
    assert (map range (owned w1) ⊆+ map range (owned w)) as Hsub.
    { unfold owned, w1. simpl. rewrite E, Hsl. simpl.
      rewrite !map_app. destruct k as [|k']; simpl.
      - rewrite app_nil_r. apply submseteq_cons. done.
      - rewrite take_nil. simpl. rewrite range_relen.
        apply Permutation_submseteq.
        rewrite (app_comm_cons _ _ (range c1)), app_assoc.
        symmetry. apply Permutation_cons_append. }
    destruct (MemInv_submseteq w w1 Hsub eq_refl) as [HM1 _].
    assert (unread w1 = unread w) as Hun.
    { rewrite (unread_cons w c0 (c1 :: rest) E).
      unfold unread, String, w1. simpl.
      rewrite Ho. unfold cap. rewrite Nat2Z.id, <- Hfull.
      rewrite <- (length_bytes_of (mem w) c0 Hm0 Hle0) at 1.
      by rewrite drop_app_length. }
    assert (FullInv (buf w1)) as HFi1.
    { unfold FullInv in *. rewrite E in HFi. simpl in *.
      rewrite Nat.sub_0_r in *. destruct rest as [|c2 rest]; [constructor|].
      simpl in HFi. apply list.Forall_cons in HFi as [_ HFi]. exact HFi. }
    exists c1, w1, 1%nat. split; [done|]. split.
    { split; [done|]. split; [done|]. split.
      { simpl. rewrite Hbcp. rewrite E in HC.
        apply list.Forall_cons in HC as [_ HC]. exact HC. }
      split; [simpl; lia|]. split; [done|]. split; [by apply HM1|].
      simpl. unfold len. lia. }
    split; [done|]. split; [done|]. split; [done|].
    do 3 (split; [done|]). split; [by rewrite E|].
    split; [by rewrite E|]. split; [simpl; lia|]. split; [done|].
    simpl. intros H0. unfold len in H0.
    assert (rest = []) as ->.
    { destruct rest as [|c2 rest]; [done|]. exfalso.
      unfold FullInv in HFi1. simpl in HFi1.
      apply list.Forall_cons in HFi1 as [Hf1 _]. unfold full in Hf1.
      rewrite E in HC. apply list.Forall_cons in HC as [_ HC].
      apply list.Forall_cons in HC as [(Hc1 & _) _]. unfold cap in Hc1. lia. }
    split; [|done]. unfold unread, String, w1. simpl.
    rewrite bytes_of_empty by lia. done.
  - (* the first chunk stays *)
    rewrite (findReadableChunk_stay w c0 rest E).
    2:{ destruct (decide (rest = [])); [by right|left]. intros H. apply Hstay. done. }
    exists c0, w, 0%nat. split; [done|]. split; [done|].
    split; [by rewrite E|]. do 5 (split; [done|]).
    split; [by rewrite drop_0|]. split; [by rewrite take_0, take_nil, app_nil_r|].
    split; [lia|]. split; [done|].
    intros H0. assert (rest = []) as ->.
    { destruct (decide (rest = [])) as [|Hr]; [done|]. exfalso.
      specialize (Hfull Hr). apply Hstay. unfold len, cap in *. split; [lia|done]. }
    split; [|by rewrite E].
    rewrite (unread_cons w c0 [] E). simpl. rewrite app_nil_r.
    apply drop_ge. rewrite (length_bytes_of _ _ Hm0 Hle0). unfold len in H0. lia.
Qed.

Lemma Recycling_readLoop_S fuel p n w :
  Recycling.readLoop (S fuel) p n w =
  if n <? len p then
    match Recycling.findReadableChunk w with
    | Ok (s, w1) =>
        if offset (buf w1) =? len s then Ok ((n, Some EOF), w1)
        else
          match slice_from p n with
          | Ok d =>
              match slice_from s (offset (buf w1)) with
              | Ok s' =>
                  let x := Z.min (len d) (len s') in
                  Recycling.readLoop fuel p (n + x)
                    (mkWorld (store (mem w1) (addr d)
                                (load (mem w1) (addr s') (Z.to_nat x)))
                       (pool w1)
                       (mkBuffer (offset (buf w1) + x) (chunks (buf w1))
                          (chunkCap (buf w1))))
              | Panic e => Panic e
              | OutOfFuel => OutOfFuel
              end
          | Panic e => Panic e
          | OutOfFuel => OutOfFuel
          end
    | Panic e => Panic e
    | OutOfFuel => OutOfFuel
    end
  else Ok ((n, None), w).
Proof.
  simpl. destruct (n <? len p); [|done]. unfold bind.
  destruct (Recycling.findReadableChunk w) as [[s w1]| |]; [|done..].
  unfold get_world. destruct (offset (buf w1) =? len s); [done|].
  unfold lift. destruct (slice_from p n) as [d| |]; [|done..].
  destruct (slice_from s (offset (buf w1))) as [s'| |]; [|done..].
  done.
Qed.

(** One copy of the loop of [Read]: what the invariant gives and what is
    left of it afterwards. *)
Lemma RecInv_copy w1 p s (kn : nat) :
  RecInv w1 → foreign w1 p → slice_wf p →
  head (chunks (buf w1)) = Some s →
  offset (buf w1) < len s → (kn < slen p)%nat →
  let o1 := Z.to_nat (offset (buf w1)) in
  let x := Nat.min (slen p - kn) (slen s - o1) in
  let bs := load (mem w1) (addr s + o1) x in
  let w2 := mkWorld (store (mem w1) (addr p + kn) bs) (pool w1)
              (mkBuffer (offset (buf w1) + Z.of_nat x) (chunks (buf w1))
                 (chunkCap (buf w1))) in
  (0 < x)%nat ∧ length bs = x ∧ bs = take x (unread w1) ∧
  (x <= length (unread w1))%nat ∧
  RecInv w2 ∧ foreign w2 p ∧ unread w2 = drop x (unread w1) ∧
  slice_wf s ∧ 0 <= offset (buf w1).
Proof.
  intros HI [Hp1 Hp2] [Hpl Hpn] Hhd Ho Hkn o1 x bs w2.
  pose proof HI as (HP & Hne & HC & Hbc & HFi & [HV HS] & Hoff).
  destruct (RecInv_facts w1 HI) as (c0 & rest & E & Hc0 & _ & Hoff0 & HVc).
  rewrite E in Hhd. injection Hhd as ->.
  pose proof HVc as HVc'. rewrite E in HVc'.
  apply list.Forall_cons in HVc' as [[Hm0 Hle0] _].
  unfold len in Ho, Hoff0.
  assert (0 < x)%nat as Hx0 by (unfold x, o1; lia).
  assert (x <= slen s - o1)%nat as Hx2 by (unfold x; lia).
  unfold in_mem in Hm0, Hp1. simpl in Hm0, Hp1.
  assert (length bs = x) as Hbs by (apply length_load; lia).
  assert (length (bytes_of (mem w1) s) = slen s) as Hls
    by (by apply length_bytes_of).
  assert (bs = take x (unread w1)) as Ebs.
  { rewrite (unread_cons w1 s rest E). fold o1.
    rewrite drop_app_le by lia. rewrite take_app_le.
    2:{ rewrite length_drop. lia. }
    unfold bytes_of. rewrite drop_load by lia. rewrite take_load by lia. done. }
  assert (x <= length (unread w1))%nat as Hxu.
  { rewrite (unread_cons w1 s rest E). fold o1.
    rewrite length_drop, length_app. lia. }
  assert (String w2 = String w1) as HS2.
  { unfold String, w2. simpl. f_equal. apply map_ext_Forall.
    unfold owned in Hp2. rewrite map_app, Forall_app in Hp2.
    destruct Hp2 as [Hp2 _]. rewrite Forall_map in Hp2.
    eapply List.Forall_impl; [|exact (List.Forall_and HVc Hp2)].
    intros c [[_ Hl] Hc]. apply bytes_of_store_apart; [done|].
    unfold apart in Hc. simpl in Hc. lia. }
  split; [done|]. split; [done|]. split; [done|]. split; [done|].
  split; [|split; [|split; [|split]]].
  - split; [done|]. split; [done|]. split; [done|]. split; [done|].
    split; [done|]. split.
    { split; [|done]. unfold in_mem, w2, owned in *. simpl.
      setoid_rewrite length_store. done. }
    unfold w2. simpl. rewrite E. simpl. unfold len. lia.
  - split.
    + unfold in_mem, w2. simpl. rewrite length_store. done.
    + done.
  - unfold unread. rewrite HS2. unfold w2. simpl.
    replace (Z.to_nat (offset (buf w1) + Z.of_nat x)) with (o1 + x)%nat
      by (unfold o1; lia).
    by rewrite drop_drop.
  - apply (chunk_ok_wf (bytesCap (pool w1))). done.
  - lia.
Qed.

Lemma take_take_app {A} (l1 l2 : list A) (k : nat) :
  take k l1 ++ take (k - length (take k l1)) l2 = take k (l1 ++ l2).
Proof.
  rewrite take_app. f_equal. rewrite length_take.
  destruct (decide (k <= length l1)%nat).
  - replace (k `min` length l1)%nat with k by lia.
    replace (k - k)%nat with 0%nat by lia.
    replace (k - length l1)%nat with 0%nat by lia. done.
  - f_equal. lia.
Qed.

(** The loop of [Read]: it returns, with the bytes that are unread and
    fit; the chunks it has exhausted are gone from the buffer and, as far
    as the pool has room, in the pool. *)
Lemma Recycling_readLoop_spec fuel : ∀ w p n,
  RecInv w → foreign w p → slice_wf p →
  0 <= n <= len p → len p - n <= Z.of_nat fuel →
  let avail := Z.of_nat (length (unread w)) in
  let m := Z.min avail (len p - n) in
  let k := Z.to_nat (poolCap (pool w) - Z.of_nat (length (slices (pool w)))) in
  ∃ w' (j : nat),
    Recycling.readLoop fuel p n w
    = Ok ((n + m, if avail <? len p - n then Some EOF else None), w') ∧
    RecInv w' ∧ foreign w' p ∧
    load (mem w') (addr p + Z.to_nat n) (Z.to_nat m)
      = take (Z.to_nat m) (unread w) ∧
    unread w' = drop (Z.to_nat m) (unread w) ∧
    length (mem w') = length (mem w) ∧
    (∀ i, (i < addr p + Z.to_nat n ∨ addr p + Z.to_nat (n + m) <= i)%nat →
          mem w' !! i = mem w !! i) ∧
    bytesCap (pool w') = bytesCap (pool w) ∧
    poolCap (pool w') = poolCap (pool w) ∧
    chunkCap (buf w') = chunkCap (buf w) ∧
    chunks (buf w') = drop j (chunks (buf w)) ∧
    slices (pool w') = slices (pool w) ++
      map (λ s, Slice (sdata s) 0 (scap s)) (take k (take j (chunks (buf w)))) ∧
    offset (buf w') + Z.of_nat j * bytesCap (pool w) = offset (buf w) + m ∧
    map range (owned w') ⊆+ map range (owned w) ∧
    (avail < len p - n → length (chunks (buf w')) = 1%nat) ∧
    (n = len p → w' = w) ∧
    (len p - n <= avail → n < len p → 0 < offset (buf w')).
Proof.
  induction fuel as [|fuel IH]; intros w p n HI Hfp Hwp Hn Hfuel avail m k.
  - assert (n = len p) as En by lia.
    assert ((n <? len p) = false) as Eb by lia.
    assert (m = 0) as -> by (unfold m, avail; lia).
    exists w, 0%nat. simpl. rewrite Eb.
    assert ((avail <? len p - n) = false) as -> by (unfold avail; lia).
    change (Z.to_nat 0) with 0%nat.
    rewrite Z.add_0_r, !drop_0, !take_0, take_nil, app_nil_r.
    repeat (split; [first [done | lia | (intros; lia)]|]). intros; lia.
  - destruct (decide (n = len p)) as [En|Hne].
    { assert ((n <? len p) = false) as Eb by lia.
      assert (m = 0) as -> by (unfold m, avail; lia).
      exists w, 0%nat. rewrite Recycling_readLoop_S, Eb.
      assert ((avail <? len p - n) = false) as -> by (unfold avail; lia).
      change (Z.to_nat 0) with 0%nat.
      rewrite Z.add_0_r, !drop_0, !take_0, take_nil, app_nil_r.
      repeat (split; [first [done | lia | (intros; lia)]|]). intros; lia. }
    assert ((n <? len p) = true) as Eb by lia.
    rewrite Recycling_readLoop_S, Eb.
    destruct (findReadableChunk_spec w HI)
      as (s & w1 & j1 & HF & HI1 & Hhd & Hm1 & Hun1 & Hbc1 & Hpc1 & Hcc1
          & Hch1 & Hsl1 & Hoj1 & Hsub1 & Heof).
    fold k in Hsl1. rewrite HF.
    destruct (MemInv_submseteq w w1 Hsub1 ltac:(by rewrite Hm1)) as [_ Hfr1].
    pose proof (Hfr1 p Hfp) as Hfp1.
    destruct (decide (offset (buf w1) = len s)) as [He|Hnend].
    { (* no data is left *)
      rewrite He, Z.eqb_refl. destruct (Heof He) as [Hu0 Hlen1].
      assert (avail = 0) as Ea by (unfold avail; rewrite <- Hun1, Hu0; done).
      assert (m = 0) as -> by (unfold m; lia).
      assert ((avail <? len p - n) = true) as -> by lia.
      exists w1, j1. rewrite Z.add_0_r. simpl. rewrite drop_0.
      split; [done|]. split; [done|]. split; [done|]. split; [done|].
      split; [done|]. split; [by rewrite Hm1|].
      split; [intros; by rewrite Hm1|].
      do 5 (split; [done|]). split; [lia|]. split; [done|].
      split; [done|]. split; [lia|]. lia. }
    assert ((offset (buf w1) =? len s) = false) as -> by lia.
    assert (offset (buf w1) < len s) as Ho.
    { destruct (RecInv_facts w1 HI1) as (c0 & rest & E & _ & _ & Hoff0 & _).
      rewrite E in Hhd. injection Hhd as ->. lia. }
    set (kn := Z.to_nat n).
    assert (kn < slen p)%nat as Hkn by (unfold kn, len in *; lia).
    destruct (RecInv_copy w1 p s kn HI1 Hfp1 Hwp Hhd Ho Hkn)
      as (Hx0 & Hbs & Ebs & Hxu & HI2 & Hfp2 & Hun2 & Hws & Ho0).
    set (o1 := Z.to_nat (offset (buf w1))) in *.
    set (x := Nat.min (slen p - kn) (slen s - o1)) in *.
    set (bs := load (mem w1) (addr s + o1) x) in *.
    assert (slice_from p n = Ok (advance p kn)) as ->.
    { rewrite <- (Z2Nat.id n) at 1 by lia. destruct Hwp.
      apply slice_from_Ok; unfold len in *; lia. }
    assert (slice_from s (offset (buf w1)) = Ok (advance s o1)) as ->.
    { rewrite <- (Z2Nat.id (offset (buf w1))) at 1 by lia. destruct Hws.
      apply slice_from_Ok; unfold o1, len in *; lia. }
    rewrite !len_advance. cbv zeta.
    replace (Z.min (Z.of_nat (slen p - kn)) (Z.of_nat (slen s - o1)))
      with (Z.of_nat x) by (unfold x; lia).
    rewrite Nat2Z.id.
    pose proof Hwp as [Hpl Hpn].
    rewrite (addr_advance p kn) by (done || lia).
    rewrite (addr_advance s o1) by (done || (destruct Hws; unfold o1, len in *; lia)).
    fold bs.
    set (w2 := mkWorld (store (mem w1) (addr p + kn) bs) (pool w1)
                 (mkBuffer (offset (buf w1) + Z.of_nat x) (chunks (buf w1))
                    (chunkCap (buf w1)))) in *.
    destruct (IH w2 p (n + Z.of_nat x) HI2 Hfp2 Hwp) as (w' & j2 & IHR);
      [unfold x, kn, len in *; lia|unfold x, kn, len in *; lia|].
    cbv zeta in IHR. rewrite Hun2, length_drop in IHR.
    assert (length (unread w1) = length (unread w)) as Hlu by (by rewrite Hun1).
    assert (Z.min (Z.of_nat (length (unread w1) - x)) (len p - (n + Z.of_nat x))
            = m - Z.of_nat x) as Em by (unfold m, avail; lia).
    assert (0 <= m - Z.of_nat x) as Hm0 by (rewrite <- Em; unfold x, kn, len in *; lia).
    assert ((Z.of_nat (length (unread w1) - x) <? len p - (n + Z.of_nat x))
            = (avail <? len p - n)) as Elt by (unfold avail; lia).
    rewrite Em, Elt in IHR.
    destruct IHR as (HR & HI' & Hfp' & Hd' & Hun' & Hl' & Hfr' & Hbc' & Hpc' & Hcc'
                     & Hch' & Hsl' & Hoj' & Hsub' & Hone' & Hsame' & Hpos').
    exists w', (j1 + j2)%nat. split.
    { rewrite HR. do 3 f_equal. lia. }
    split; [done|]. split; [done|]. split.
    { replace (Z.to_nat m) with (x + Z.to_nat (m - Z.of_nat x))%nat by lia.
      rewrite load_add. rewrite <- take_take_drop. f_equal.
      - rewrite <- Hun1, <- Ebs. transitivity (load (mem w2) (addr p + kn) x).
        + apply load_ext. intros i Hi. apply Hfr'. left. unfold kn. lia.
        + unfold w2. simpl.
          pose proof (load_store_same (mem w1) (addr p + kn)%nat bs) as HL.
          rewrite Hbs in HL. apply HL.
          destruct Hfp1 as [Hpm _]. unfold in_mem in Hpm.
          simpl in Hpm. unfold x. lia.
      - replace (addr p + kn + x)%nat
          with (addr p + Z.to_nat (n + Z.of_nat x))%nat by (unfold kn; lia).
        rewrite Hd'. by rewrite <- Hun1. }
    split.
    { rewrite Hun', <- Hun1, drop_drop. f_equal. lia. }
    split; [by rewrite Hl', <- Hm1; unfold w2; simpl; rewrite length_store|].
    split.
    { intros i Hi. rewrite Hfr' by (unfold kn in *; lia).
      unfold w2. simpl. rewrite <- Hm1.
      apply store_lookup_outside. rewrite Hbs. unfold kn in *. lia. }
    split; [by rewrite Hbc'|]. split; [by rewrite Hpc'|].
    split; [by rewrite Hcc'|].
    split.
    { rewrite Hch'. unfold w2. simpl. by rewrite Hch1, drop_drop. }
    split.
    { rewrite Hsl'. unfold w2. simpl. rewrite Hsl1, Hch1, <- app_assoc. f_equal.
      rewrite <- map_app. f_equal.
      rewrite <- (take_take_drop (chunks (buf w)) j1 j2).
      rewrite <- take_take_app. f_equal. f_equal.
      rewrite Hpc1, length_app, length_map. unfold k. lia. }
    split.
    { unfold w2 in Hoj'. simpl in Hoj'. rewrite Hbc1 in Hoj'. lia. }
    split.
    { etrans; [exact Hsub'|]. exact Hsub1. }
    split; [intros Hlt; apply Hone'; unfold avail in Hlt; lia|].
    split; [intros; lia|].
    intros Hge _. destruct (decide (n + Z.of_nat x = len p)) as [Hend|Hmore].
    + rewrite (Hsame' Hend). unfold w2. simpl. lia.
    + apply Hpos'; unfold avail in Hge; lia.
Qed.

Lemma Recycling_Read_unfold p w :
  chunks (buf w) ≠ [] →
  Recycling.Read p w = Recycling.readLoop (slen p) p 0 w.
Proof.
  intros Hne. unfold Recycling.Read.
  destruct (chunks (buf w)) as [|c l]; [done|].
  assert ((Z.of_nat (length (c :: l)) =? 0) = false) as -> by (simpl; lia).
  done.
Qed.

(** The bounds on the loop of this [Read] suffice as well, in every
    state. *)
Lemma findReadableChunk_fuel w : Recycling.findReadableChunk w ≠ OutOfFuel.
Proof.
  unfold Recycling.findReadableChunk, bind, lift.
  destruct (index_cases (chunks (buf w)) 0) as [[r ->]| ->]; [|done].
  destruct (_ && _); [|done].
  destruct (Put_total w r) as (e & w1 & -> & _ & _).
  unfold get_world, put_world. simpl.
  unfold Recycling.chunks_from. destruct (_ && _); [|done].
  destruct (index_cases (drop (Z.to_nat 1) (chunks (buf w1))) 0)
    as [[r' ->]| ->]; done.
Qed.

Lemma slice_from_fuel s i : slice_from s i ≠ OutOfFuel.
Proof. unfold slice_from, reslice. by destruct (_ && _). Qed.

Lemma Recycling_readLoop_fuel fuel : ∀ p n w,
  0 <= n → len p - n <= Z.of_nat fuel →
  Recycling.readLoop fuel p n w ≠ OutOfFuel.
Proof.
  induction fuel as [|fuel IH]; intros p n w Hn Hfuel.
  - simpl. by assert ((n <? len p) = false) as -> by lia.
  - rewrite Recycling_readLoop_S.
    destruct (n <? len p) eqn:Eb; [|done].
    pose proof (findReadableChunk_fuel w) as HF.
    destruct (Recycling.findReadableChunk w) as [[s w1]| |]; [|done..].
    destruct (offset (buf w1) =? len s) eqn:Ee; [done|].
    pose proof (slice_from_fuel p n) as Hf1.
    pose proof (slice_from_fuel s (offset (buf w1))) as Hf2.
    destruct (slice_from p n) as [d| |] eqn:Ed; [|done..].
    destruct (slice_from s (offset (buf w1))) as [s'| |] eqn:Es; [|done..].
    apply slice_from_inv in Ed as (Hd1 & _ & ->).
    apply slice_from_inv in Es as (Hs1 & _ & ->).
    rewrite !len_advance. cbv zeta. apply IH; unfold len in *; lia.
Qed.

Lemma Recycling_Read_fuel p w : Recycling.Read p w ≠ OutOfFuel.
Proof.
  unfold Recycling.Read. destruct (_ =? 0); [done|].
  apply Recycling_readLoop_fuel; unfold len; lia.
Qed.

(** [Read] of this version on a buffer that satisfies its invariant. *)
Lemma Recycling_Read_spec w p :
  RecInv w → foreign w p → slice_wf p →
  let avail := Z.of_nat (length (unread w)) in
  let m := Z.min avail (len p) in
  let k := Z.to_nat (poolCap (pool w) - Z.of_nat (length (slices (pool w)))) in
  ∃ w' (j : nat),
    Recycling.Read p w
    = Ok ((m, if avail <? len p then Some EOF else None), w') ∧
    RecInv w' ∧ foreign w' p ∧
    load (mem w') (addr p) (Z.to_nat m) = take (Z.to_nat m) (unread w) ∧
    unread w' = drop (Z.to_nat m) (unread w) ∧
    length (mem w') = length (mem w) ∧
    (∀ i, (i < addr p ∨ addr p + Z.to_nat m <= i)%nat →
          mem w' !! i = mem w !! i) ∧
    bytesCap (pool w') = bytesCap (pool w) ∧
    poolCap (pool w') = poolCap (pool w) ∧
    chunks (buf w') = drop j (chunks (buf w)) ∧
    slices (pool w') = slices (pool w) ++
      map (λ s, Slice (sdata s) 0 (scap s)) (take k (take j (chunks (buf w)))) ∧
    offset (buf w') + Z.of_nat j * bytesCap (pool w) = offset (buf w) + m ∧
    map range (owned w') ⊆+ map range (owned w) ∧
    (avail < len p → length (chunks (buf w')) = 1%nat) ∧
    (len p = 0 → w' = w) ∧
    (0 < len p <= avail → 0 < offset (buf w')).
Proof.
  intros HI Hfp Hwp avail m k.
  pose proof HI as (_ & Hne & _).
  rewrite (Recycling_Read_unfold p w Hne).
  destruct (Recycling_readLoop_spec (slen p) w p 0 HI Hfp Hwp)
    as (w' & j & HR & HI' & Hfp' & Hd & Hun & Hl & Hfr & Hbc & Hpc & _
        & Hch & Hsl & Hoj & Hsub & Hone & Hsame & Hpos);
    [unfold len; lia|unfold len; lia|].
  rewrite !Z.sub_0_r in *. rewrite !Z.add_0_l in *.
  change (Z.to_nat 0) with 0%nat in *. rewrite !Nat.add_0_r in *.
  fold avail in HR, Hone, Hpos. fold m in HR, Hd, Hun, Hfr, Hoj. fold k in Hsl.
  exists w', j. do 13 (split; [done|]).
  split; [done|]. split; [intros H0; apply Hsame; lia|].
  intros [H1 H2]. apply Hpos; lia.
Qed.

(** X13.  [Read] of the version that recycles chunks, on a buffer that
    satisfies its invariant, into a slice of the caller's own, never
    panics.  With [avail] the number of unread bytes, it returns
    [min(avail, len(p))], with [io.EOF] exactly when [avail < len(p)]; the
    first cells of [p] hold the unread bytes in order, the unread data
    afterwards are the bytes not delivered, and no other memory is
    written.  The invariant and the discipline of ownership hold again
    afterwards.  In particular a read to the end of data that fill the
    last chunk returns the count with [io.EOF]. *)
Theorem Recycling_Read_delivers (w : World) (p : slice) :
  RecInv w → foreign w p → slice_wf p →
  let avail := Z.of_nat (length (unread w)) in
  let m := Z.min avail (len p) in
  ∃ w', Recycling.Read p w
        = Ok ((m, if avail <? len p then Some EOF else None), w') ∧
    load (mem w') (addr p) (Z.to_nat m) = take (Z.to_nat m) (unread w) ∧
    unread w' = drop (Z.to_nat m) (unread w) ∧
    RecInv w' ∧ foreign w' p ∧ (∀ q, foreign w q → foreign w' q) ∧
    length (mem w') = length (mem w) ∧
    ∀ i, (i < addr p ∨ addr p + Z.to_nat m <= i)%nat →
         mem w' !! i = mem w !! i.
Proof.
  intros HI Hfp Hwp avail m.
  destruct (Recycling_Read_spec w p HI Hfp Hwp)
    as (w' & j & HR & HI' & Hfp' & Hd & Hun & Hl & Hfr & _ & _ & _ & _ & _
        & Hsub & _).
  exists w'. do 5 (split; [done|]).
  split; [|split; [done|done]].
  by apply (MemInv_submseteq w w' Hsub Hl).
Qed.

Lemma Recycling_Read_delivers_witness :
  ∃ w', Recycling.Read (Slice (Some 10%nat) 3 3)
          (mkWorld (list_byte_of_string "helloworldabc") (mkPool [] 5 10)
             (mkBuffer 3 [Slice (Some 0%nat) 5 5; Slice (Some 5%nat) 5 5] 0))
        = Ok ((3, None), w') ∧
        load (mem w') 10 3 = list_byte_of_string "low".
Proof.
  destruct (Recycling_Read_delivers
              (mkWorld (list_byte_of_string "helloworldabc") (mkPool [] 5 10)
                 (mkBuffer 3 [Slice (Some 0%nat) 5 5; Slice (Some 5%nat) 5 5] 0))
              (Slice (Some 10%nat) 3 3)) as (w' & H1 & H2 & _).
  - split; [split; simpl; [constructor|lia]|].
    split; [done|]. split; [repeat constructor; simpl; lia|].
    split; [simpl; lia|]. split; [repeat constructor|].
    split.
    { split; simpl.
      - repeat constructor; unfold in_mem; simpl; lia.
      - split; [repeat constructor; unfold apart; simpl; lia|].
        split; [constructor|exact I]. }
    vm_compute. split; congruence.
  - split; [unfold in_mem; simpl; lia|].
    simpl. repeat constructor; unfold apart; simpl; lia.
  - split; simpl; [lia|done].
  - exists w'. split; [exact H1|exact H2].
Defined.

(** X14.  What the same [Read] does to the chunks.  The chunks
    afterwards are the chunks before without the first [j]: the chunks
    that a later turn of the loop found exhausted, while another chunk
    followed.  They went to [Put] in order, so the pool holds them after
    the slices it held, cut to length zero, as far as it has room.  At
    least one chunk stays.  The read offset counts from the start of the
    first chunk that is left.  A read that returns [io.EOF] leaves one
    chunk.  A read of [len(p) > 0] bytes that does not return [io.EOF]
    leaves the read offset after a byte of the first chunk, so that
    [j = (offset + len(p) - 1) / bytesCap]: a chunk read to its end is
    given back by the next read, not by this one.  A read into an empty
    slice changes nothing. *)
Theorem Recycling_Read_recycles (w : World) (p : slice) :
  RecInv w → foreign w p → slice_wf p →
  let avail := Z.of_nat (length (unread w)) in
  let m := Z.min avail (len p) in
  let k := Z.to_nat (poolCap (pool w) - Z.of_nat (length (slices (pool w)))) in
  ∃ r w' (j : nat),
    Recycling.Read p w = Ok (r, w') ∧
    chunks (buf w') = drop j (chunks (buf w)) ∧
    (j < length (chunks (buf w)))%nat ∧
    slices (pool w') = slices (pool w) ++
      map (λ s, Slice (sdata s) 0 (scap s)) (take k (take j (chunks (buf w)))) ∧
    bytesCap (pool w') = bytesCap (pool w) ∧
    poolCap (pool w') = poolCap (pool w) ∧
    PoolInv (pool w') ∧ MemInv w' ∧
    offset (buf w') + Z.of_nat j * bytesCap (pool w) = offset (buf w) + m ∧
    0 <= offset (buf w') <= bytesCap (pool w) ∧
    (avail < len p → Chunks w' = Ok (1, w')) ∧
    (0 < len p <= avail →
       0 < offset (buf w') ∧
       Z.of_nat j = (offset (buf w) + len p - 1) / bytesCap (pool w)) ∧
    (len p = 0 → w' = w).
Proof.
  intros HI Hfp Hwp avail m k.
  destruct (Recycling_Read_spec w p HI Hfp Hwp)
    as (w' & j & HR & HI' & Hfp' & Hd & Hun & Hl & Hfr & Hbc & Hpc & Hch & Hsl
        & Hoj & Hsub & Hone & Hsame & Hpos).
  fold avail in HR, Hone, Hpos. fold m in HR, Hoj. fold k in Hsl.
  destruct (RecInv_facts w' HI') as (c0 & rest & E & Hc0 & _ & Hoff0 & _).
  destruct Hc0 as (Hcap0 & _ & Hle0).
  assert (0 <= offset (buf w') <= bytesCap (pool w)) as Hrange.
  { unfold len, cap in *. lia. }
  pose proof HI' as (HP' & _ & _ & _ & _ & HM' & _).
  pose proof HI as (_ & _ & _ & Hbcpos & _).
  eexists _, w', j. split; [exact HR|]. split; [done|].
  split.
  { destruct (decide (j < length (chunks (buf w)))%nat) as [|Hge]; [done|].
    rewrite drop_ge in Hch by lia. by rewrite E in Hch. }
  do 6 (split; [done|]). split; [done|].
  split.
  { intros Hlt. unfold Chunks. by rewrite (Hone Hlt). }
  split; [|done].
  intros Hp. pose proof (Hpos Hp) as Ho. split; [done|].
  assert (m = len p) as Em by (unfold m; lia).
  apply (Z.div_unique_pos _ _ _ (offset (buf w') - 1)); [lia|].
  unfold m in Em. lia.
Qed.

Lemma Recycling_Read_recycles_witness :
  ∃ r w',
    Recycling.Read (Slice (Some 10%nat) 3 3)
      (mkWorld (list_byte_of_string "helloworldabc") (mkPool [] 5 10)
         (mkBuffer 3 [Slice (Some 0%nat) 5 5; Slice (Some 5%nat) 5 5] 0))
    = Ok (r, w') ∧
    chunks (buf w') = [Slice (Some 5%nat) 5 5] ∧
    slices (pool w') = [Slice (Some 0%nat) 0 5] ∧
    offset (buf w') = 1.
Proof.
  destruct (Recycling_Read_recycles
              (mkWorld (list_byte_of_string "helloworldabc") (mkPool [] 5 10)
                 (mkBuffer 3 [Slice (Some 0%nat) 5 5; Slice (Some 5%nat) 5 5] 0))
              (Slice (Some 10%nat) 3 3))
    as (r & w' & j & H1 & H2 & _ & H3 & _ & _ & _ & _ & H4 & _ & _ & H5 & _).
  - split; [split; simpl; [constructor|lia]|].
    split; [done|]. split; [repeat constructor; simpl; lia|].
    split; [simpl; lia|]. split; [repeat constructor|].
    split.
    { split; simpl.
      - repeat constructor; unfold in_mem; simpl; lia.
      - split; [repeat constructor; unfold apart; simpl; lia|].
        split; [constructor|exact I]. }
    vm_compute. split; congruence.
  - split; [unfold in_mem; simpl; lia|].
    simpl. repeat constructor; unfold apart; simpl; lia.
  - split; simpl; [lia|done].
  - destruct H5 as [_ Hj]; [vm_compute; split; congruence|].
    assert (Z.of_nat j = 1) as Hj1 by (rewrite Hj; reflexivity).
    assert (j = 1%nat) as -> by lia.
    exists r, w'. split; [exact H1|]. split; [exact H2|].
    split; [exact H3|]. change (offset (buf w') + 5 = 6) in H4. lia.
Defined.

(** On the buffer on which [Read] of the version with [ReadAt] panics
    (a full chunk, read to the end into a longer slice), this [Read]
    returns the 5 bytes and [io.EOF]. *)
Example recycling_read_to_end_of_full_chunk :
  run 5 100 (Recycling.NewBuffer (Some ThePool) ;;;
             WriteString (list_byte_of_string "hello") ;;;
             p <- make 10 10 ;;
             r <- Recycling.Read p ;;
             s <- show (Slice (sdata p) (Z.to_nat r.1) (scap p)) ;;
             ret (r, s))
  = Ok ((5, Some EOF), "hello"%string).
Proof. vm_compute. reflexivity. Qed.

(** ** [Write] on the buffer that recycles chunks *)

(** [Write] and what it calls neither read nor write [chunkCap]: they are
    the functions of both versions of [buffer.go]. *)
Lemma with_chunkCap_id w : with_chunkCap w (chunkCap (buf w)) = w.
Proof. destruct w as [m pl [o cs cc]]. done. Qed.

Lemma with_chunkCap_twice w a b :
  with_chunkCap (with_chunkCap w a) b = with_chunkCap w b.
Proof. done. Qed.

Lemma ignores_bind {A B} (m : M A) (k : A → M B) :
  ignores_chunkCap m → (∀ a, ignores_chunkCap (k a)) →
  ignores_chunkCap (bind m k).
Proof.
  intros Hm Hk w c. unfold bind. rewrite Hm.
  destruct (m w) as [[a w']| |]; simpl; [apply Hk|done..].
Qed.

Lemma ignores_ret {A} (a : A) : ignores_chunkCap (ret a).
Proof. done. Qed.

Lemma ignores_lift {A} (r : result A) : ignores_chunkCap (lift r).
Proof. intros w c. unfold lift. by destruct r. Qed.

Lemma ignores_Get : ignores_chunkCap Get.
Proof.
  intros w c. unfold Get, bind, lift, make, put_world, ret. simpl.
  destruct (0 <? Z.of_nat (length (slices (pool w)))).
  - by destruct (index (slices (pool w)) _).
  - by destruct (bytesCap (pool w) <? 0).
Qed.

Lemma ignores_copy d s : ignores_chunkCap (copy d s).
Proof. done. Qed.

Lemma ignores_set_chunk i v : ignores_chunkCap (set_chunk i v).
Proof. done. Qed.

Lemma ignores_findWritableChunk : ignores_chunkCap findWritableChunk.
Proof.
  intros w c. unfold findWritableChunk, bind, lift. simpl.
  destruct (index _ _) as [s| |]; [|done..].
  destruct (_ =? 0); [|done].
  rewrite ignores_Get. by destruct (Get w) as [[s' w']| |].
Qed.

Lemma ignores_moveBytes dst src : ignores_chunkCap (moveBytes dst src).
Proof.
  unfold moveBytes. destruct (len src =? 0); [apply ignores_ret|].
  destruct (_ =? 0); [done|].
  repeat (apply ignores_bind; [first [apply ignores_lift | apply ignores_copy]|intros ?]).
  apply ignores_ret.
Qed.

Lemma ignores_writeLoop fuel : ∀ p n, ignores_chunkCap (writeLoop fuel p n).
Proof.
  induction fuel as [|fuel IH]; intros p n; simpl.
  - by destruct (0 <? len p).
  - destruct (0 <? len p); [|apply ignores_ret].
    apply ignores_bind; [apply ignores_findWritableChunk|intros wi].
    intros w c. unfold bind at 1 3. unfold get_world. simpl.
    fold (with_chunkCap w c).
    apply (ignores_bind (lift (index (chunks (buf w)) wi))); [apply ignores_lift|].
    intros dst. apply ignores_bind; [apply ignores_moveBytes|intros r].
    apply ignores_bind; [apply ignores_set_chunk|intros _]. apply IH.
Qed.

Lemma ignores_Write p : ignores_chunkCap (Write p).
Proof.
  intros w c. unfold Write. simpl. destruct (_ =? 0); [done|].
  apply ignores_writeLoop.
Qed.

Lemma ignores_WriteString s : ignores_chunkCap (WriteString s).
Proof.
  apply ignores_bind; [done|]. apply ignores_Write.
Qed.

Lemma RecInv_BufInv w :
  RecInv w →
  let v := with_chunkCap w (bytesCap (pool w)) in
  BufInv v ∧ FullInv (buf v) ∧ MemInv v ∧ 0 < bytesCap (pool v) ∧
  w = with_chunkCap v (chunkCap (buf w)).
Proof.
  intros (HP & Hne & HC & Hbc & HFi & HM & Hoff) v.
  split; [done|]. split; [done|]. split; [done|]. split; [done|].
  unfold v. by rewrite with_chunkCap_twice, with_chunkCap_id.
Qed.

Lemma length_String_head w c0 rest :
  chunks (buf w) = c0 :: rest →
  in_mem (mem w) (range c0) → (slen c0 <= scap c0)%nat →
  (slen c0 <= length (String w))%nat.
Proof.
  intros E Hm Hl. unfold String. rewrite E. simpl.
  rewrite length_app, (length_bytes_of _ _ Hm Hl). lia.
Qed.

(** [Write] on a buffer of [Recycling]: the invariant stays and the
    bytes are added to the unread data. *)
Lemma Recycling_Write_spec w p :
  RecInv w → foreign w p → slice_wf p →
  ∃ w', Write p w = Ok ((len p, None), w') ∧
    RecInv w' ∧
    unread w' = unread w ++ bytes_of (mem w) p ∧
    offset (buf w') = offset (buf w) ∧
    bytesCap (pool w') = bytesCap (pool w) ∧
    ∀ q, foreign w q → (slen q <= scap q)%nat →
         foreign w' q ∧ bytes_of (mem w') q = bytes_of (mem w) q.
Proof.
  intros HI Hfp Hwp.
  destruct (RecInv_BufInv w HI) as (HBv & HFv & HMv & Hbcv & Ew).
  set (v := with_chunkCap w (bytesCap (pool w))) in *.
  destruct (RecInv_facts w HI) as (c0 & rest & E & Hc0 & _ & Hoff0 & HVc).
  destruct Hc0 as (Hcap0 & _ & Hle0).
  pose proof HVc as HVc'. rewrite E in HVc'.
  apply list.Forall_cons in HVc' as [[Hm0 _] _].
  destruct (Write_positive_capacity v p HBv Hbcv Hwp)
    as (v' & HW & HB' & Hbc' & Hpc' & Hoff' & (new & Hnew) & Hmem).
  destruct (Hmem HMv Hfp) as (HS' & HM' & Hfr').
  destruct (Write_full _ _ _ _ HBv Hbcv Hwp HW) as [Hwr' HFi'].
  specialize (HFi' HFv).
  exists (with_chunkCap v' (chunkCap (buf w))).
  split.
  { rewrite Ew at 1. by rewrite ignores_Write, HW. }
  assert (0 <= offset (buf v') <= len (default nil_slice (head (chunks (buf v')))))
    as Hoffv'.
  { rewrite Hoff'. simpl.
    pose proof HB' as (_ & Hne' & HC' & _).
    destruct (chunks (buf v')) as [|c0' rest'] eqn:E'; [done|].
    simpl in Hnew. rewrite E in Hnew. simpl in Hnew.
    injection Hnew as _ Hcap Hrest.
    simpl. unfold len in *.
    destruct rest' as [|c1' rest'].
    - destruct rest; [|by destruct new].
      unfold written in Hwr'. rewrite E' in Hwr'. simpl in Hwr'.
      rewrite E in Hwr'. simpl in Hwr'. unfold len in Hwr'. lia.
    - unfold FullInv in HFi'. rewrite E' in HFi'. simpl in HFi'.
      apply list.Forall_cons in HFi' as [Hf _]. unfold full in Hf. lia. }
  split.
  { pose proof HB' as (HP' & Hne' & HC' & _).
    split; [done|]. split; [done|]. split; [done|].
    split; [simpl; lia|]. split; [done|]. split; [done|]. done. }
  split.
  { unfold unread. simpl. rewrite Hoff'. simpl.
    change (String (with_chunkCap v' (chunkCap (buf w)))) with (String v').
    rewrite HS'. change (String v) with (String w). change (mem v) with (mem w).
    apply drop_app_le.
    pose proof (length_String_head w c0 rest E Hm0 Hle0). unfold len in *. lia. }
  split; [done|]. split; [done|].
  intros q Hq Hlq. by apply Hfr'.
Qed.

Lemma Recycling_NewBuffer_unfold w :
  Recycling.NewBuffer (Some ThePool) w
  = outcome_with_chunkCap 0 (NewBuffer (Some ThePool) w).
Proof.
  unfold Recycling.NewBuffer, NewBuffer, bind.
  by destruct (Get w) as [[c w0]| |].
Qed.

(** New memory is the caller's own, and allocating it keeps the buffer. *)
Lemma RecInv_extend w z (n : nat) :
  RecInv w → length z = n →
  RecInv (set_mem w (mem w ++ z)) ∧
  unread (set_mem w (mem w ++ z)) = unread w ∧
  foreign (set_mem w (mem w ++ z)) (Slice (Some (length (mem w))) n n) ∧
  bytes_of (mem w ++ z) (Slice (Some (length (mem w))) n n) = z.
Proof.
  intros HI Hz. pose proof HI as (HP & Hne & HC & Hbc & HFi & HM & Hoff).
  set (p := Slice (Some (length (mem w))) n n).
  set (w0 := set_mem w (mem w ++ z)).
  assert (MemInv w0) as HM0.
  { destruct HM as [HV HS]. split; [|done]. unfold w0, owned. simpl.
    eapply List.Forall_impl; [|exact HV]. intros r. apply in_mem_app. }
  assert (foreign w0 p) as Hfp.
  { destruct HM as [HV _]. split.
    - unfold in_mem, w0, p, range, addr. simpl. rewrite length_app. lia.
    - unfold w0, owned. simpl.
      eapply List.Forall_impl; [|exact HV]. intros r Hr.
      apply apart_sym. by apply apart_fresh. }
  assert (String w0 = String w) as HS0.
  { apply (String_extend w w0 [] z HM); simpl;
      [by rewrite app_nil_r|constructor| |done].
    eapply List.Forall_impl; [|exact HC]. by intros c (_ & _ & ?). }
  split; [done|]. split; [by unfold unread; rewrite HS0|]. split; [done|].
  unfold bytes_of, p. simpl. rewrite load_app_r by lia. by rewrite take_ge by lia.
Qed.

Lemma Recycling_WriteString_spec w (s : list byte) :
  RecInv w →
  ∃ w', WriteString s w = Ok ((Z.of_nat (length s), None), w') ∧
    RecInv w' ∧ unread w' = unread w ++ s ∧
    offset (buf w') = offset (buf w) ∧
    bytesCap (pool w') = bytesCap (pool w).
Proof.
  intros HI.
  destruct (RecInv_extend w s (length s) HI eq_refl) as (HI0 & Hun0 & Hfp & Hb).
  set (p := Slice (Some (length (mem w))) (length s) (length s)) in *.
  set (w0 := set_mem w (mem w ++ s)) in *.
  destruct (Recycling_Write_spec w0 p HI0 Hfp) as (w' & HW & HI' & Hun' & Ho' & Hbc' & _).
  { split; simpl; [lia|done]. }
  exists w'. split.
  { unfold WriteString, bind, bytes_of_string. fold p. fold w0. by rewrite HW. }
  split; [done|]. split; [|done].
  rewrite Hun', Hun0. f_equal. exact Hb.
Qed.

(** X15.  The invariant of the buffer that recycles chunks is what the
    package establishes and keeps.  [NewBuffer] of that version, over a
    sound pool of positive capacity whose slices lie in memory and do not
    overlap, returns a buffer that satisfies it, with one chunk and no
    unread data.  [Write] of a slice of the caller's own and
    [WriteString] return the length and no error, keep the invariant and
    the read offset, and add the bytes after the unread data. *)
Theorem Recycling_invariant_kept :
  (∀ w, PoolInv (pool w) → 0 < bytesCap (pool w) →
     Forall (in_mem (mem w)) (map range (slices (pool w))) →
     pairwise_apart (map range (slices (pool w))) →
     ∃ w1, Recycling.NewBuffer (Some ThePool) w
           = Ok ((Some TheBuffer, None), w1) ∧
       RecInv w1 ∧ unread w1 = [] ∧ Chunks w1 = Ok (1, w1) ∧
       offset (buf w1) = 0) ∧
  (∀ w p, RecInv w → foreign w p → slice_wf p →
     ∃ w', Write p w = Ok ((len p, None), w') ∧
       RecInv w' ∧ unread w' = unread w ++ bytes_of (mem w) p ∧
       offset (buf w') = offset (buf w) ∧
       ∀ q, foreign w q → (slen q <= scap q)%nat →
            foreign w' q ∧ bytes_of (mem w') q = bytes_of (mem w) q) ∧
  (∀ w s, RecInv w →
     ∃ w', WriteString s w = Ok ((Z.of_nat (length s), None), w') ∧
       RecInv w' ∧ unread w' = unread w ++ s ∧
       offset (buf w') = offset (buf w)).
Proof.
  split; [|split].
  - intros w HP Hbc HV HS.
    destruct (NewBuffer_spec w HP ltac:(lia))
      as (v1 & HN & HB & Hbc1 & _ & Hoff & Hlen & HSt & _ & HFi & Hmem).
    destruct (Hmem HV HS) as [HM1 _].
    exists (with_chunkCap v1 0). split.
    { by rewrite Recycling_NewBuffer_unfold, HN. }
    pose proof HB as (HP1 & Hne1 & HC1 & _).
    split.
    { split; [done|]. split; [done|]. split; [done|].
      split; [simpl; lia|]. split; [done|]. split; [done|].
      simpl. rewrite Hoff. unfold len. lia. }
    split.
    { unfold unread. change (String (with_chunkCap v1 0)) with (String v1).
      rewrite HSt. by rewrite drop_nil. }
    split; [|done]. unfold Chunks. simpl. by rewrite Hlen.
  - intros w p HI Hfp Hwp.
    destruct (Recycling_Write_spec w p HI Hfp Hwp)
      as (w' & HW & HI' & Hun & Ho & _ & Hfr).
    exists w'. done.
  - intros w s HI.
    destruct (Recycling_WriteString_spec w s HI) as (w' & HW & HI' & Hun & Ho & _).
    exists w'. done.
Qed.

Lemma Recycling_invariant_kept_witness :
  ∃ w1 w2,
    Recycling.NewBuffer (Some ThePool) (mkWorld [] (mkPool [] 5 100) (mkBuffer 0 [] 0))
    = Ok ((Some TheBuffer, None), w1) ∧
    WriteString (list_byte_of_string "hello world") w1 = Ok ((11, None), w2) ∧
    unread w2 = list_byte_of_string "hello world".
Proof.
  destruct Recycling_invariant_kept as (H1 & _ & H3).
  destruct (H1 (mkWorld [] (mkPool [] 5 100) (mkBuffer 0 [] 0)))
    as (w1 & HN & HI & Hun & _).
  - split; simpl; [constructor|lia].
  - simpl. lia.
  - constructor.
  - exact I.
  - destruct (H3 w1 (list_byte_of_string "hello world") HI) as (w2 & HW & _ & Hun2 & _).
    exists w1, w2. split; [exact HN|]. split; [exact HW|].
    rewrite Hun2, Hun. reflexivity.
Defined.

(** X16.  What is written is what is read, in the version that recycles
    chunks.  On a buffer that satisfies its invariant, [WriteString(s)]
    followed by [Read] into a new slice of [n] bytes never panics: with
    [avail] the number of bytes unread after the write, the read returns
    [min(avail, n)], with [io.EOF] exactly when [avail < n]; the slice
    holds the first bytes of the old unread data followed by [s]; what
    is left unread are the bytes after them; the invariant holds again. *)
Theorem Recycling_write_then_read (w : World) (s : list byte) (n : nat) :
  RecInv w →
  let data := unread w ++ s in
  let avail := Z.of_nat (length data) in
  let m := Z.min avail (Z.of_nat n) in
  ∃ w1 p w2 w3,
    WriteString s w = Ok ((Z.of_nat (length s), None), w1) ∧
    make (Z.of_nat n) (Z.of_nat n) w1 = Ok (p, w2) ∧
    Recycling.Read p w2
    = Ok ((m, if avail <? Z.of_nat n then Some EOF else None), w3) ∧
    load (mem w3) (addr p) (Z.to_nat m) = take (Z.to_nat m) data ∧
    unread w3 = drop (Z.to_nat m) data ∧
    RecInv w3.
Proof.
  intros HI data avail m.
  destruct (Recycling_WriteString_spec w s HI) as (w1 & HW & HI1 & Hun1 & _).
  destruct (RecInv_extend w1 (replicate n Byte.x00) n HI1)
    as (HI2 & Hun2 & Hfp & _); [by rewrite length_replicate|].
  set (p := Slice (Some (length (mem w1))) n n) in *.
  set (w2 := set_mem w1 (mem w1 ++ replicate n Byte.x00)) in *.
  destruct (Recycling_Read_spec w2 p HI2 Hfp) as (w3 & j & HR & HI3 & _ & Hd & Hun3 & _).
  { split; simpl; [lia|done]. }
  rewrite Hun2, Hun1 in HR, Hd, Hun3. fold data in HR, Hd, Hun3.
  change (len p) with (Z.of_nat n) in HR, Hd, Hun3.
  exists w1, p, w2, w3. split; [done|]. split; [apply make_Ok|]. done.
Qed.

Lemma Recycling_write_then_read_witness :
  ∃ w1 p w2 w3,
    WriteString (list_byte_of_string "hello")
      (mkWorld (replicate 5 Byte.x00) (mkPool [] 5 100)
         (mkBuffer 0 [Slice (Some 0%nat) 0 5] 0))
    = Ok ((5, None), w1) ∧
    make 10 10 w1 = Ok (p, w2) ∧
    Recycling.Read p w2 = Ok ((5, Some EOF), w3) ∧
    load (mem w3) (addr p) 5 = list_byte_of_string "hello".
Proof.
  destruct (Recycling_write_then_read
              (mkWorld (replicate 5 Byte.x00) (mkPool [] 5 100)
                 (mkBuffer 0 [Slice (Some 0%nat) 0 5] 0))
              (list_byte_of_string "hello") 10)
    as (w1 & p & w2 & w3 & H1 & H2 & H3 & H4 & _).
  - split; [split; simpl; [constructor|lia]|].
    split; [done|]. split; [repeat constructor; simpl; lia|].
    split; [simpl; lia|]. split; [constructor|].
    split.
    { split; simpl.
      - repeat constructor; unfold in_mem; simpl; lia.
      - split; [constructor|exact I]. }
    vm_compute. split; congruence.
  - exists w1, p, w2, w3. split; [exact H1|]. split; [exact H2|].
    split; [exact H3|exact H4].
Defined.
